(** * Graph-coloring: distributed branch-and-bound over MPI

    A shallow embedding of the C++ sources ([main.cpp], [graph.tpp]) and the
    properties claimed about them.  Unsigned machine integers are modelled
    as [Z] with the 32-bit wrap-around written out where the source converts
    or decrements; vectors are lists indexed with stdpp's lookup and insert,
    with out-of-range writes made explicit. *)

From Stdlib Require Import ZArith Lia Ascii String.
From stdpp Require Import base list strings.

Open Scope Z_scope.

(** ** Machine integers *)

Definition UINT_MOD : Z := 2 ^ 32.

(** Conversion to [unsigned int]. *)
Definition u32 (z : Z) : Z := z mod UINT_MOD.

Definition is_u32 (z : Z) : Prop := 0 ≤ z < UINT_MOD.

(** ** The search node ([solution]) as it travels on the wire

    Only the three data members that [send_solution] and [receive_solution]
    touch are needed here: the colour vector, [tot_colors] and [next]. *)

Record solution : Type := Solution {
  color : list Z;
  tot_colors : Z;
  next : Z
}.

(** The members are [unsigned int]s and the colour vector has [dim] entries:
    the class invariant of a search node for a graph with [dim] vertices. *)
Definition node_shape (dim : nat) (s : solution) : Prop :=
  length (color s) = dim ∧ Forall is_u32 (color s) ∧
  is_u32 (tot_colors s) ∧ is_u32 (next s).

Module Wire.

(** [std::vector<unsigned int> buffer(solution::dim + 2)]. *)
Definition fresh_buffer (dim : nat) : list Z := replicate (dim + 2) 0.

(** [std::copy(first, last, buffer.begin())]: overwrites the front of the
    buffer; copying more elements than the buffer holds writes past its
    end, which is reported as [None]. *)
Definition copy_into (src buffer : list Z) : option (list Z) :=
  if decide (length src ≤ length buffer)%nat
  then Some ((u32 <$> src) ++ drop (length src) buffer)
  else None.

(** [buffer[i] = x] on a vector: in range by construction in the callers,
    reported as [None] otherwise. *)
Definition store (i : nat) (x : Z) (buffer : list Z) : option (list Z) :=
  if decide (i < length buffer)%nat then Some (<[i := u32 x]> buffer) else None.

(** The payload handed to [MPI_Send] by [send_solution]. *)
Definition send_solution (dim : nat) (sol : solution) : option (list Z) :=
  b0 ← copy_into (color sol) (fresh_buffer dim);
  b1 ← store dim (tot_colors sol) b0;
  store (dim + 1) (next sol) b1.

(** [MPI_Recv] into a buffer of [dim + 2] unsigned integers: a shorter
    message leaves the tail of the buffer as it was, a longer one is a
    truncation error. *)
Definition recv_into (payload buffer : list Z) : option (list Z) :=
  if decide (length payload ≤ length buffer)%nat
  then Some (payload ++ drop (length payload) buffer)
  else None.

(** [receive_solution]: the node unpacked from a received payload. *)
Definition receive_solution (dim : nat) (payload : list Z) : option solution :=
  buffer ← recv_into payload (fresh_buffer dim);
  Some {| color := take dim buffer;
          tot_colors := default 0 (buffer !! dim);
          next := default 0 (buffer !! (dim + 1)%nat) |}.

End Wire.

(** ** The adjacency matrix and its two constructors ([graph.tpp]) *)

Module Graph.

(** [m]: a [dim] x [dim] table of booleans, value-initialised ([m{}]) to
    all [false]. *)
Abbreviation matrix := (list (list bool)).

Definition zero_matrix (dim : nat) : matrix :=
  replicate dim (replicate dim false).

(** [operator()(i, j)], i.e. [m[i][j]]. *)
Definition adj (m : matrix) (i j : nat) : bool :=
  default false (row ← m !! i; row !! j).

(** [m[i][j] = b] with [unsigned int] indices.  The source performs no
    bounds check; a write outside the table is reported as [None]. *)
Definition write (dim : nat) (m : matrix) (i j : Z) (b : bool) : option matrix :=
  if decide (0 ≤ i < Z.of_nat dim ∧ 0 ≤ j < Z.of_nat dim)
  then Some (alter (<[Z.to_nat j := b]>) (Z.to_nat i) m)
  else None.

(** *** Formatted extraction from a line ([std::istringstream])

    The stream is the list of characters not yet consumed. *)

Definition is_space (c : ascii) : bool :=
  let n := nat_of_ascii c in
  (n =? 32)%nat || ((9 <=? n)%nat && (n <=? 13)%nat).

Definition is_digit (c : ascii) : bool :=
  let n := nat_of_ascii c in (48 <=? n)%nat && (n <=? 57)%nat.

Definition digit_val (c : ascii) : Z := Z.of_nat (nat_of_ascii c) - 48.

Fixpoint skip_ws (s : list ascii) : list ascii :=
  match s with
  | c :: s' => if is_space c then skip_ws s' else s
  | [] => []
  end.

(** The maximal prefix of characters satisfying [p], and what follows. *)
Fixpoint span (p : ascii → bool) (s : list ascii) : list ascii * list ascii :=
  match s with
  | c :: s' => if p c then let '(a, b) := span p s' in (c :: a, b) else ([], s)
  | [] => ([], [])
  end.

(** [iss >> word] for a [std::string]: skips white space and reads up to
    the next white space.  [None] when nothing is left (the stream fails
    and the string stays empty). *)
Definition read_word (s : list ascii) : option (list ascii * list ascii) :=
  match skip_ws s with
  | [] => None
  | s' => Some (span (λ c, negb (is_space c)) s')
  end.

Definition decimal (ds : list ascii) : Z :=
  foldl (λ acc c, 10 * acc + digit_val c) 0 ds.

(** The outcome of [iss >> x] for an [unsigned int x]. *)
Inductive extracted : Type :=
| XOk (v : Z) (rest : list ascii)
    (** success: [x = v] *)
| XFail (stored : option Z).
    (** the stream fails; [stored] is what was written to [x], [None] when
        [x] was left untouched because no character was available *)

(** [iss >> x] for an [unsigned int]: white space, an optional sign, then
    decimal digits.  No digit: failure with [x = 0].  A magnitude above
    [UINT_MAX]: failure with [x = UINT_MAX].  A leading minus negates
    modulo [2^32]. *)
Definition read_uint (s : list ascii) : extracted :=
  match skip_ws s with
  | [] => XFail None
  | c :: s' =>
    let '(neg, body) :=
      if Ascii.eqb c "-" then (true, s')
      else if Ascii.eqb c "+" then (false, s') else (false, c :: s') in
    let '(ds, rest) := span is_digit body in
    match ds with
    | [] => XFail (Some 0)
    | _ =>
      let v := decimal ds in
      if UINT_MOD <=? v then XFail (Some (UINT_MOD - 1))
      else XOk (if neg then u32 (- v) else v) rest
    end
  end.

(** What one pass of the [while (std::getline(file, line))] body extracts
    from a line before it acts. *)
Inductive line : Type :=
| LComment
| LProblem (format : string) (nodes : option Z)
    (** [nodes = None]: the variable is read uninitialised *)
| LEdge (uv : option (Z * Z))
    (** [Some (u, v)] when [iss >> u >> v] succeeds *)
| LOther.

Definition parse_line (l : string) : line :=
  match read_word (list_ascii_of_string l) with
  | None => LOther
  | Some (type, s1) =>
    if String.eqb (string_of_list_ascii type) "c" then LComment
    else if String.eqb (string_of_list_ascii type) "p" then
      match read_word s1 with
      | None => LProblem "" None
      | Some (format, s2) =>
        LProblem (string_of_list_ascii format)
          match read_uint s2 with
          | XOk v _ => Some v
          | XFail stored => stored
          end
      end
    else if String.eqb (string_of_list_ascii type) "e" then
      match read_uint s1 with
      | XOk u s2 =>
        match read_uint s2 with
        | XOk v _ => LEdge (Some (u, v))
        | XFail _ => LEdge None
        end
      | XFail _ => LEdge None
      end
    else LOther
  end.

(** *** [graph<dim>::graph(const std::string& file_path)] *)

Inductive result : Type :=
| Built (m : matrix)
| Thrown (what : string)
| OutOfBounds
    (** an assignment [m[u][v] = true] outside the table *)
| Uninitialised.
    (** [nodes] is compared although nothing was extracted into it *)

(** The two assignments of the ["e"] branch, after [--u; --v]. *)
Definition add_edge (dim : nat) (m : matrix) (u v : Z) : option matrix :=
  let u' := u32 (u - 1) in
  let v' := u32 (v - 1) in
  m1 ← write dim m u' v' true;
  write dim m1 v' u' true.

Fixpoint read_lines (dim : nat) (ls : list string) (m : matrix) : result :=
  match ls with
  | [] => Built m
  | l :: ls' =>
    match parse_line l with
    | LComment => read_lines dim ls' m
    | LProblem format nodes =>
      if negb (String.eqb format "edge") then
        Thrown "Error: Dimension mismatch in file"
      else
        match nodes with
        | None => Uninitialised
        | Some n =>
          if negb (n =? Z.of_nat dim) then
            Thrown "Error: Dimension mismatch in file"
          else read_lines dim ls' m
        end
    | LEdge (Some (u, v)) =>
      match add_edge dim m u v with
      | Some m' => read_lines dim ls' m'
      | None => OutOfBounds
      end
    | LEdge None => read_lines dim ls' m
    | LOther => read_lines dim ls' m
    end
  end.

(** [file = None]: the file cannot be opened. *)
Definition graph_from_file (dim : nat) (file : option (list string)) : result :=
  match file with
  | None => Thrown "Error: Unable to open file"
  | Some ls => read_lines dim ls (zero_matrix dim)
  end.

(** *** [graph<dim>::graph(const double density)]

    The Bernoulli draws [dist(gen)] are an arbitrary sequence of booleans,
    consumed in order: [draws k] is the result of the [k]-th call. *)

(** The inner loop [for (j = i + 1; j < dim; ++j)], started at [j] with
    [todo] iterations left; returns the table and the number of draws
    consumed so far. *)
Fixpoint fill_row (draws : nat → bool) (i j todo : nat) (k : nat) (m : matrix)
  : matrix * nat :=
  match todo with
  | O => (m, k)
  | S todo' =>
    let edge := draws k in
    let m1 := alter (<[j := edge]>) i m in
    let m2 := alter (<[i := edge]>) j m1 in
    fill_row draws i (S j) todo' (S k) m2
  end.

(** The outer loop [for (i = 0; i < dim; ++i)], started at [i]. *)
Fixpoint fill_rows (draws : nat → bool) (dim i todo : nat) (k : nat) (m : matrix)
  : matrix :=
  match todo with
  | O => m
  | S todo' =>
    let '(m1, k1) := fill_row draws i (S i) (dim - S i) k m in
    let m2 := alter (<[i := false]>) i m1 in
    fill_rows draws dim (S i) todo' k1 m2
  end.

Definition graph_random (dim : nat) (draws : nat → bool) : matrix :=
  fill_rows draws dim 0 dim 0 (zero_matrix dim).

(** The table has [dim] rows of [dim] entries. *)
Definition square (dim : nat) (m : matrix) : Prop :=
  length m = dim ∧ Forall (λ row, length row = dim) m.

(** Every ["e u v"] line names two vertices in [1 .. dim]. *)
Definition edges_in_range (dim : nat) (ls : list string) : Prop :=
  Forall (λ l, match parse_line l with
               | LEdge (Some (u, v)) =>
                 1 ≤ u ≤ Z.of_nat dim ∧ 1 ≤ v ≤ Z.of_nat dim
               | _ => True
               end) ls.

(** No ["e u v"] line joins a vertex to itself. *)
Definition no_loop_lines (ls : list string) : Prop :=
  Forall (λ l, match parse_line l with
               | LEdge (Some (u, v)) => u ≠ v
               | _ => True
               end) ls.

Definition symmetric (dim : nat) (m : matrix) : Prop :=
  ∀ i j : nat, (i < dim)%nat → (j < dim)%nat → adj m i j = adj m j i.

Definition irreflexive (dim : nat) (m : matrix) : Prop :=
  ∀ i : nat, (i < dim)%nat → adj m i i = false.

End Graph.

(** ** The search node's operations

    [main.cpp] uses the class [solution] through [is_final], [get_next], the
    default constructor and the static [colors_ub]; the class itself lives in
    a header that is not part of the sources at hand, so the engine below is
    written against this interface. *)

Class NodeOps : Type := {
  (** [solution::dim], the number of vertices *)
  dim : nat;
  (** [curr.is_final()] *)
  is_final : solution → bool;
  (** [curr.get_next()]; the first argument is the value of
      [solution::colors_ub] that the call reads *)
  get_next : Z → solution → list solution;
  (** [solution{}] *)
  blank : solution;
  (** the value [solution::colors_ub] starts with on every process *)
  initial_ub : Z
}.

(** Modelled from the spec: the class [solution] (its header is missing from
    the sources), following the data model and the branching rule of the
    specification: a node is final when [next = n]; [expand] tries the colours
    [1..k] not used by an earlier neighbour of vertex [next], in ascending
    order, then the fresh colour [k + 1] when [k + 1 ≤ UB - 1]; the bound
    starts at [n + 1]; a node is constructed with all entries [0]. *)
Module Search.
Section WithGraph.
Variable n : nat.
Variable g : Graph.matrix.

Definition empty : solution :=
  {| color := replicate n 0; tot_colors := 0; next := 0 |}.

Definition final (s : solution) : bool := next s =? Z.of_nat n.

(** [c ∈ F], the forbidden set [{ color[j] : j < next ∧ E(next, j) }]. *)
Definition forbidden (s : solution) (c : Z) : bool :=
  existsb
    (λ j, Graph.adj g (Z.to_nat (next s)) j && (default 0 (color s !! j) =? c))
    (seq 0 (Z.to_nat (next s))).

(** The child that gives colour [c] to vertex [next]. *)
Definition child (s : solution) (c tot : Z) : solution :=
  {| color := <[Z.to_nat (next s) := c]> (color s);
     tot_colors := tot;
     next := next s + 1 |}.

Definition expand (ub : Z) (s : solution) : list solution :=
  let k := tot_colors s in
  ((λ c, child s c k) <$> filter (λ c, forbidden s c = false) (seqZ 1 k))
  ++ (if decide (k + 1 ≤ ub - 1) then [child s (k + 1) (k + 1)] else []).

Definition ops : NodeOps :=
  {| dim := n; is_final := final; get_next := expand;
     blank := empty; initial_ub := Z.of_nat n + 1 |}.
End WithGraph.
End Search.

(** ** Message tags ([main.cpp], lines 14-16) *)

Definition INITIAL_NODE : Z := 1.
Definition SOLUTION_FROM_WORKER : Z := 2.
Definition RETURN : Z := 3.

(** A point-to-point message: its tag and the [unsigned int] buffer. *)
Record msg : Type := Msg { tag : Z; payload : list Z }.

(** ** Observable events of a run *)

Inductive tid : Type := MainThread | ListenerThread.

Inductive event : Type :=
| EvRead (rank : nat) (t : tid) (v : Z)
    (** thread [t] of process [rank] reads [solution::colors_ub = v] *)
| EvWrite (rank : nat) (t : tid) (old new : Z)
    (** an assignment [solution::colors_ub = new]; it held [old] *)
| EvSend (src dst : nat) (m : msg)
| EvBcast (v : Z)
    (** rank 0 calls [MPI_Bcast] with [v] *)
| EvSpawn (rank : nat)
    (** [pthread_create] of the listener *)
| EvBarrier (rank : nat)
    (** the main thread enters [MPI_Barrier] *)
| EvPrint (rank : nat) (s : solution)
| EvAbort (rank : nat) (code : Z).

(** ** The engine ([main.cpp]) *)

Section Engine.
Context `{NodeOps}.

(** *** Rank 0, main thread: the breadth-first seeding loop (lines 127-164) *)

Record seed : Type := Seed {
  initial_q : list solution;   (** the queue, front first *)
  s_ub : Z;                    (** [solution::colors_ub] on rank 0 *)
  best_so_far : solution
}.

Inductive flow : Type := Continue | Break.

(** One pass of the body of [while (!initial_q.empty())]: [curr] has been
    popped and [rest] is what the queue still holds.  [W] is [size - 1]. *)
Definition seed_body (W : nat) (curr : solution) (rest : list solution)
    (ub : Z) (best : solution) : flow * seed * list event :=
  if negb (is_final curr) then
    if ub <=? tot_colors curr then
      (Continue, Seed rest ub best, [EvRead 0 MainThread ub])
    else
      let tmp := get_next ub curr in
      if (length rest + length tmp <=? W)%nat then
        (Continue, Seed (rest ++ tmp) ub best,
         [EvRead 0 MainThread ub; EvRead 0 MainThread ub])
      else
        (Break, Seed (rest ++ [curr]) ub best,
         [EvRead 0 MainThread ub; EvRead 0 MainThread ub])
  else if tot_colors curr <? ub then
    (Continue, Seed rest (tot_colors curr) curr,
     [EvRead 0 MainThread ub; EvWrite 0 MainThread ub (tot_colors curr);
      EvPrint 0 curr])
  else
    (Continue, Seed rest ub best, [EvRead 0 MainThread ub]).

Fixpoint seed_loop (fuel : nat) (W : nat) (st : seed) : option (seed * list event) :=
  match fuel with
  | O => None
  | S fuel' =>
    match initial_q st with
    | [] => Some (st, [])
    | curr :: rest =>
      let '(fl, st', evs) := seed_body W curr rest (s_ub st) (best_so_far st) in
      match fl with
      | Break => Some (st', evs)
      | Continue =>
        '(st'', evs') ← seed_loop fuel' W st';
        Some (st'', evs ++ evs')
      end
    end
  end.

(** The state the loop starts from: the queue holds [solution s{}]. *)
Definition seed_init : seed := Seed [blank] initial_ub blank.

(** *** Rank 0, main thread: after the loop (lines 166-210) *)

(** How the main thread of rank 0 leaves the sequential part. *)
Inductive launch : Type :=
| Aborted (code : Z)
    (** [MPI_Abort(MPI_COMM_WORLD, code)] *)
| Dispatched (first : list msg).
    (** the message sent to each of the ranks [1 .. size - 1], in order *)

(** The two dispatch loops: one [INITIAL_NODE] message per queued node,
    then a dummy with tag [0] for every remaining rank below [size].
    Sending to a rank that does not exist, or packing a node whose colour
    vector overflows the buffer, has no defined result. *)
Definition dispatch (W : nat) (q : list solution) : option (list msg) :=
  nodes ← mapM (Wire.send_solution dim) q;
  dummy ← Wire.send_solution dim blank;
  if decide (length nodes ≤ W)%nat then
    Some ((Msg INITIAL_NODE <$> nodes) ++ replicate (W - length nodes) (Msg 0 dummy))
  else None.

Definition send_events (first : list msg) : list event :=
  imap (λ i m, EvSend 0 (S i) m) first.

Definition coordinator_main (fuel : nat) (W : nat)
  : option (launch * seed * list event) :=
  '(st, evs) ← seed_loop fuel W seed_init;
  match initial_q st with
  | [] =>
    Some (Aborted 69, st, evs ++ [EvPrint 0 (best_so_far st); EvAbort 0 69])
  | _ =>
    first ← dispatch W (initial_q st);
    Some (Dispatched first, st,
          evs ++ send_events first ++ [EvSpawn 0; EvBarrier 0])
  end.

(** *** A worker process (lines 214-294 and 305-322)

    Each thread is a small machine whose steps contain at most one access
    to the shared [solution::colors_ub], so that the two threads of a
    process interleave at the granularity of those accesses. *)

(** Where the main thread of a worker stands. *)
Inductive wmain : Type :=
| WReceive
    (** line 226: blocked in [receive_solution] *)
| WLoop (q : list solution)
    (** line 245: the loop head; [q] is the stack, top first *)
| WExpand (curr : solution) (q : list solution)
    (** line 257: the prune test passed, about to call [get_next] *)
| WStore (curr : solution) (q : list solution)
    (** line 266: the test of line 262 passed, about to assign the bound *)
| WSendDone
    (** line 287: about to send the [RETURN] message *)
| WBarrier
    (** line 290 *)
| WJoin.
    (** line 293 *)

(** Where the listener thread of a worker stands. *)
Inductive wlis : Type :=
| LNone
    (** not created yet *)
| LWait
    (** line 310: blocked in [MPI_Bcast] *)
| LCheck (new_ub : Z)
    (** line 314: about to compare with [solution::colors_ub] *)
| LStore (new_ub : Z)
    (** line 315: about to assign *)
| LExit.

Record worker : Type := Worker {
  w_main : wmain;
  w_lis : wlis;
  w_ub : Z;                (** [solution::colors_ub] of this process *)
  w_inbox : list msg;      (** sent by rank 0, not received yet *)
  w_bcasts : list Z;       (** broadcast by rank 0, not received yet *)
  w_out : list msg         (** sent to rank 0, not received there yet *)
}.

Definition main_step (rank : nat) (w : worker) : option (worker * list event) :=
  let 'Worker pc lis ub inbox bcasts out := w in
  match pc with
  | WReceive =>
    match inbox with
    | [] => None
    | m :: inbox' =>
      sol_init_loc ← Wire.receive_solution dim (payload m);
      let pc' := if tag m =? INITIAL_NODE then WLoop [sol_init_loc] else WSendDone in
      Some (Worker pc' LWait ub inbox' bcasts out, [EvSpawn rank])
    end
  | WLoop [] => Some (Worker WSendDone lis ub inbox bcasts out, [])
  | WLoop (curr :: q) =>
    let pc' :=
      if negb (is_final curr) then
        if ub <=? tot_colors curr then WLoop q else WExpand curr q
      else if tot_colors curr <? ub then WStore curr q
      else WLoop q in
    Some (Worker pc' lis ub inbox bcasts out, [EvRead rank MainThread ub])
  | WExpand curr q =>
    Some (Worker (WLoop (get_next ub curr ++ q)) lis ub inbox bcasts out,
          [EvRead rank MainThread ub])
  | WStore curr q =>
    buffer ← Wire.send_solution dim curr;
    let m := Msg SOLUTION_FROM_WORKER buffer in
    Some (Worker (WLoop q) lis (tot_colors curr) inbox bcasts (out ++ [m]),
          [EvWrite rank MainThread ub (tot_colors curr); EvSend rank 0 m])
  | WSendDone =>
    buffer ← Wire.send_solution dim blank;
    let m := Msg RETURN buffer in
    Some (Worker WBarrier lis ub inbox bcasts (out ++ [m]), [EvSend rank 0 m])
  | WBarrier => Some (Worker WJoin lis ub inbox bcasts out, [EvBarrier rank])
  | WJoin => None
  end.

Definition listener_step (rank : nat) (w : worker) : option (worker * list event) :=
  let 'Worker pc lis ub inbox bcasts out := w in
  match lis with
  | LWait =>
    match bcasts with
    | [] => None
    | new_ub :: bcasts' =>
      let lis' := if new_ub =? RETURN then LExit else LCheck new_ub in
      Some (Worker pc lis' ub inbox bcasts' out, [])
    end
  | LCheck new_ub =>
    let lis' := if new_ub <? ub then LStore new_ub else LWait in
    Some (Worker pc lis' ub inbox bcasts out, [EvRead rank ListenerThread ub])
  | LStore new_ub =>
    Some (Worker pc LWait new_ub inbox bcasts out,
          [EvWrite rank ListenerThread ub new_ub])
  | LNone | LExit => None
  end.

(** *** Rank 0, listener thread (lines 324-358) *)

Record coordinator : Type := Coordinator {
  c_ub : Z;               (** [solution::colors_ub] on rank 0 *)
  worker_done : nat;
  best : solution;
  c_finished : bool       (** the final report has been printed *)
}.

(** One pass of the body of [while (worker_done < size - 1)] on the message
    [m]: the new state, the value broadcast (if any) and the events. *)
Definition coordinator_receive (W : nat) (c : coordinator) (m : msg)
  : option (coordinator * list Z * list event) :=
  let 'Coordinator ub done b fin := c in
  if fin || negb (done <? W)%nat then None
  else
    new_best ← Wire.receive_solution dim (payload m);
    let done' := if tag m =? RETURN then S done else done in
    if (tag m =? SOLUTION_FROM_WORKER) && (tot_colors new_best <? ub) then
      Some (Coordinator (tot_colors new_best) done' new_best false,
            [tot_colors new_best],
            [EvRead 0 ListenerThread ub;
             EvWrite 0 ListenerThread ub (tot_colors new_best);
             EvPrint 0 new_best; EvBcast (tot_colors new_best)])
    else
      Some (Coordinator ub done' b false, [],
            if tag m =? SOLUTION_FROM_WORKER
            then [EvRead 0 ListenerThread ub] else []).

(** Leaving the loop: the [RETURN] broadcast and the final report. *)
Definition coordinator_finish (W : nat) (c : coordinator)
  : option (coordinator * list Z * list event) :=
  let 'Coordinator ub done b fin := c in
  if fin || (done <? W)%nat then None
  else Some (Coordinator ub done b true, [RETURN], [EvBcast RETURN; EvPrint 0 b]).

(** *** The process group after the dispatch *)

Record system : Type := System {
  coord : coordinator;
  workers : list worker   (** the worker at index [i] has rank [i + 1] *)
}.

(** [MPI_Bcast] from rank 0: every worker will receive the values, in the
    order they were broadcast. *)
Definition deliver_bcast (vs : list Z) (w : worker) : worker :=
  let 'Worker pc lis ub inbox bcasts out := w in
  Worker pc lis ub inbox (bcasts ++ vs) out.

Definition take_out (w : worker) : option (msg * worker) :=
  let 'Worker pc lis ub inbox bcasts out := w in
  match out with
  | [] => None
  | m :: out' => Some (m, Worker pc lis ub inbox bcasts out')
  end.

(** What happens next is chosen by the scheduler and the transport. *)
Inductive sched : Type :=
| RunMain (i : nat)        (** the main thread of worker [i] takes a step *)
| RunListener (i : nat)    (** the listener of worker [i] takes a step *)
| Deliver (i : nat)        (** rank 0 receives the oldest message of worker [i] *)
| Finish.                  (** the listener of rank 0 leaves its loop *)

Definition sys_step (a : sched) (s : system) : option (system * list event) :=
  let W := length (workers s) in
  match a with
  | RunMain i =>
    w ← workers s !! i;
    '(w', evs) ← main_step (S i) w;
    Some (System (coord s) (<[i := w']> (workers s)), evs)
  | RunListener i =>
    w ← workers s !! i;
    '(w', evs) ← listener_step (S i) w;
    Some (System (coord s) (<[i := w']> (workers s)), evs)
  | Deliver i =>
    w ← workers s !! i;
    '(m, w') ← take_out w;
    '(c', vs, evs) ← coordinator_receive W (coord s) m;
    Some (System c' (deliver_bcast vs <$> <[i := w']> (workers s)), evs)
  | Finish =>
    '(c', vs, evs) ← coordinator_finish W (coord s);
    Some (System c' (deliver_bcast vs <$> workers s), evs)
  end.

Fixpoint exec (sch : list sched) (s : system) : option (system * list event) :=
  match sch with
  | [] => Some (s, [])
  | a :: sch' =>
    '(s1, evs1) ← sys_step a s;
    '(s2, evs2) ← exec sch' s1;
    Some (s2, evs1 ++ evs2)
  end.

(** The process group right after rank 0 has dispatched [first], when every
    process searches the same table; [program_init] is the group whose
    workers search the table [broadcast_graph] left them with. *)
Definition init_system (st : seed) (first : list msg) : system :=
  System (Coordinator (s_ub st) 0 blank false)
         ((λ m, Worker WReceive LNone initial_ub [m] [] []) <$> first).

(** A whole run: the sequential part on rank 0, then the schedule [sch]. *)
Definition run (fuel : nat) (W : nat) (sch : list sched)
  : option (system * list event) :=
  '(l, st, evs) ← coordinator_main fuel W;
  match l with
  | Aborted _ => None
  | Dispatched first =>
    '(s, evs') ← exec sch (init_system st first);
    Some (s, evs ++ evs')
  end.

End Engine.

(** ** Colourings and the chromatic number *)

(** [c] gives every vertex of the graph a colour in [1 .. k], and no edge
    joins two vertices of the same colour. *)
Definition proper_coloring (n : nat) (g : Graph.matrix) (k : Z) (c : list Z) : Prop :=
  length c = n ∧
  Forall (λ x, 1 ≤ x ≤ k) c ∧
  ∀ i j : nat, (i < n)%nat → (j < n)%nat →
    Graph.adj g i j = true → c !! i ≠ c !! j.

Definition colorable (n : nat) (g : Graph.matrix) (k : Z) : Prop :=
  0 ≤ k ∧ ∃ c, proper_coloring n g k c.

(** [k] is the chromatic number of the graph. *)
Definition chromatic_number (n : nat) (g : Graph.matrix) (k : Z) : Prop :=
  colorable n g k ∧ ∀ k', colorable n g k' → k ≤ k'.

(** ** Small graphs used in the examples *)

(** No edge, three vertices. *)
Definition edgeless3 : Graph.matrix := Graph.zero_matrix 3.

(** One edge, two vertices. *)
Definition edge2 : Graph.matrix := [[false; true]; [true; false]].

(** The cycle on five vertices. *)
Definition cycle5 : Graph.matrix :=
  [[false; true; false; false; true]; [true; false; true; false; false];
   [false; true; false; true; false]; [false; false; true; false; true];
   [true; false; false; true; false]].

(** * Properties *)

(** ** Machine integers and records *)

Lemma u32_id z : is_u32 z → u32 z = z.
Proof. intros Hz. apply Z.mod_small. exact Hz. Qed.

Lemma u32_range z : is_u32 (u32 z).
Proof. apply Z.mod_pos_bound. reflexivity. Qed.

Lemma u32_fmap_id (l : list Z) : Forall is_u32 l → u32 <$> l = l.
Proof.
  induction 1 as [|x l Hx _ IH]; [reflexivity|].
  rewrite fmap_cons, (u32_id x Hx), IH. reflexivity.
Qed.

Lemma solution_eta (s : solution) :
  s = {| color := color s; tot_colors := tot_colors s; next := next s |}.
Proof. destruct s; reflexivity. Qed.

(** ** The wire format of a search node *)

Section WireFacts.
Variable dim : nat.

(** What [send_solution] puts on the wire for a well-shaped node. *)
Lemma send_solution_shape (sol : solution) :
  node_shape dim sol →
  Wire.send_solution dim sol = Some (color sol ++ [tot_colors sol; next sol]).
Proof.
  intros (Hlen & Hcol & Htot & Hnext).
  unfold Wire.send_solution, Wire.copy_into, Wire.fresh_buffer.
  rewrite length_replicate.
  rewrite decide_True by lia. simpl.
  rewrite (u32_fmap_id _ Hcol), drop_replicate, Hlen.
  replace (dim + 2 - dim)%nat with 2%nat by lia. simpl.
  unfold Wire.store.
  rewrite decide_True by (rewrite length_app, Hlen; simpl; lia).
  simpl.
  rewrite decide_True by (rewrite length_insert, length_app, Hlen; simpl; lia).
  f_equal.
  rewrite insert_app_r_alt by lia. rewrite Hlen, Nat.sub_diag. simpl.
  rewrite insert_app_r_alt by lia. rewrite Hlen.
  replace (dim + 1 - dim)%nat with 1%nat by lia. simpl.
  rewrite (u32_id _ Htot), (u32_id _ Hnext). reflexivity.
Qed.

(** What [receive_solution] unpacks from a buffer of the wire's size. *)
Lemma receive_solution_shape (cs : list Z) (t x : Z) :
  length cs = dim →
  Wire.receive_solution dim (cs ++ [t; x])
  = Some {| color := cs; tot_colors := t; next := x |}.
Proof.
  intros Hlen.
  unfold Wire.receive_solution, Wire.recv_into, Wire.fresh_buffer.
  rewrite length_replicate, length_app, Hlen. simpl.
  rewrite decide_True by lia. simpl.
  rewrite drop_replicate.
  replace (dim + 2 - (dim + 2))%nat with 0%nat by lia. simpl.
  rewrite app_nil_r.
  rewrite take_app_length' by (symmetry; exact Hlen).
  rewrite lookup_app_r by lia. rewrite Hlen, Nat.sub_diag. simpl.
  rewrite lookup_app_r by lia. rewrite Hlen.
  replace (dim + 1 - dim)%nat with 1%nat by lia. reflexivity.
Qed.

(** C9: a search node sent with [send_solution] and received with
    [receive_solution] comes out equal; the payload is exactly [dim + 2]
    unsigned integers, the colour vector followed by [tot_colors] and
    [next]. *)
Theorem send_receive_roundtrip (sol : solution) :
  node_shape dim sol →
  ∃ buffer,
    Wire.send_solution dim sol = Some buffer ∧
    length buffer = (dim + 2)%nat ∧
    buffer = color sol ++ [tot_colors sol; next sol] ∧
    Wire.receive_solution dim buffer = Some sol.
Proof.
  intros Hshape.
  exists (color sol ++ [tot_colors sol; next sol]).
  split; [apply send_solution_shape; exact Hshape|].
  destruct Hshape as (Hlen & _).
  split; [rewrite length_app, Hlen; reflexivity|].
  split; [reflexivity|].
  rewrite receive_solution_shape by exact Hlen.
  rewrite <- solution_eta. reflexivity.
Qed.
End WireFacts.

Lemma send_receive_roundtrip_witness :
  ∃ buffer,
    Wire.send_solution 3 {| color := [1; 2; 0]; tot_colors := 2; next := 2 |}
      = Some buffer ∧
    length buffer = 5%nat ∧
    buffer = [1; 2; 0] ++ [2; 2] ∧
    Wire.receive_solution 3 buffer
      = Some {| color := [1; 2; 0]; tot_colors := 2; next := 2 |}.
Proof.
  apply (send_receive_roundtrip 3 {| color := [1; 2; 0]; tot_colors := 2; next := 2 |}).
  unfold node_shape, is_u32, UINT_MOD. simpl.
  repeat split; try lia; repeat constructor; lia.
Defined.

(** ** The adjacency matrix *)

Section GraphFacts.
Import Graph.
Variable dim : nat.

Lemma square_zero : square dim (zero_matrix dim).
Proof.
  split; [apply length_replicate|].
  apply Forall_replicate, length_replicate.
Qed.

Lemma adj_zero (i j : nat) : adj (zero_matrix dim) i j = false.
Proof.
  unfold adj, zero_matrix.
  destruct (decide (i < dim)%nat) as [Hi|Hi].
  - rewrite lookup_replicate_2 by exact Hi. simpl.
    destruct (decide (j < dim)%nat) as [Hj|Hj].
    + rewrite lookup_replicate_2 by exact Hj. reflexivity.
    + rewrite (proj1 (lookup_replicate_None _ _ _)) by lia. reflexivity.
  - rewrite (proj1 (lookup_replicate_None _ _ _)) by lia. reflexivity.
Qed.

(** [m[i][j] = b] keeps the table square. *)
Lemma square_alter (m : matrix) (i j : nat) (b : bool) :
  square dim m → square dim (alter (<[j := b]>) i m).
Proof.
  intros [Hlen Hrows]. split.
  - rewrite length_alter. exact Hlen.
  - apply Forall_alter; [exact Hrows|].
    intros row _ Hrow. rewrite length_insert. exact Hrow.
Qed.

(** Reading the table after [m[i][j] = b]. *)
Lemma adj_alter (m : matrix) (i j : nat) (b : bool) (a c : nat) :
  square dim m → (i < dim)%nat → (j < dim)%nat →
  adj (alter (<[j := b]>) i m) a c
  = if decide (a = i ∧ c = j) then b else adj m a c.
Proof.
  intros [Hlen Hrows] Hi Hj. unfold adj.
  destruct (decide (a = i)) as [->|Hai].
  - rewrite list_lookup_alter_eq.
    destruct (lookup_lt_is_Some_2 m i) as [row Hrow]; [lia|].
    rewrite Hrow. simpl.
    assert (length row = dim) as Hr.
    { rewrite Forall_lookup in Hrows. exact (Hrows i row Hrow). }
    destruct (decide (c = j)) as [->|Hcj].
    + rewrite decide_True by tauto.
      rewrite list_lookup_insert_eq by lia. reflexivity.
    + rewrite decide_False by tauto.
      rewrite list_lookup_insert_ne by congruence. reflexivity.
  - rewrite decide_False by tauto.
    rewrite list_lookup_alter_ne by congruence. reflexivity.
Qed.

(** The pair of assignments [m[i][j] = b; m[j][i] = b]. *)
Lemma adj_pair (m : matrix) (i j : nat) (b : bool) (a c : nat) :
  square dim m → (i < dim)%nat → (j < dim)%nat →
  adj (alter (<[i := b]>) j (alter (<[j := b]>) i m)) a c
  = if decide ((a = i ∧ c = j) ∨ (a = j ∧ c = i)) then b else adj m a c.
Proof.
  intros Hsq Hi Hj.
  rewrite adj_alter by (try apply square_alter; assumption).
  rewrite adj_alter by assumption.
  repeat case_decide; try reflexivity; tauto.
Qed.

Lemma symmetric_pair (m : matrix) (i j : nat) (b : bool) :
  square dim m → (i < dim)%nat → (j < dim)%nat →
  symmetric dim m →
  symmetric dim (alter (<[i := b]>) j (alter (<[j := b]>) i m)).
Proof.
  intros Hsq Hi Hj Hsym a c Ha Hc.
  rewrite !adj_pair by assumption.
  rewrite (Hsym a c Ha Hc).
  repeat case_decide; try reflexivity; tauto.
Qed.

Lemma irreflexive_pair (m : matrix) (i j : nat) (b : bool) :
  square dim m → (i < dim)%nat → (j < dim)%nat → i ≠ j →
  irreflexive dim m →
  irreflexive dim (alter (<[i := b]>) j (alter (<[j := b]>) i m)).
Proof.
  intros Hsq Hi Hj Hne Hirr a Ha.
  rewrite adj_pair by assumption.
  rewrite decide_False by (intros [[-> ->]|[-> ->]]; congruence).
  apply Hirr, Ha.
Qed.

Lemma square_pair (m : matrix) (i j : nat) (b : bool) :
  square dim m → square dim (alter (<[i := b]>) j (alter (<[j := b]>) i m)).
Proof. intros Hsq. apply square_alter, square_alter, Hsq. Qed.

End GraphFacts.

(** ** Extraction of unsigned integers *)

Section LexFacts.
Import Graph.

Lemma span_prefix (p : ascii → bool) (s a b : list ascii) :
  span p s = (a, b) → Forall (λ c, p c = true) a.
Proof.
  revert a b. induction s as [|c s IH]; intros a b; simpl.
  - intros [= <- <-]. constructor.
  - destruct (p c) eqn:Hc.
    + destruct (span p s) as [a' b'] eqn:Hs. intros [= <- <-].
      constructor; [exact Hc|]. eapply IH. reflexivity.
    + intros [= <- <-]. constructor.
Qed.

Lemma digit_val_range (c : ascii) : is_digit c = true → 0 ≤ digit_val c ≤ 9.
Proof.
  unfold is_digit, digit_val. intros Hc.
  apply andb_true_iff in Hc as [H1 H2].
  apply Nat.leb_le in H1, H2. lia.
Qed.

Lemma decimal_nonneg (ds : list ascii) (acc : Z) :
  Forall (λ c, is_digit c = true) ds → 0 ≤ acc →
  0 ≤ foldl (λ acc c, 10 * acc + digit_val c) acc ds.
Proof.
  intros Hds. revert acc.
  induction Hds as [|c ds Hc _ IH]; intros acc Hacc; simpl; [exact Hacc|].
  apply IH. pose proof (digit_val_range c Hc). lia.
Qed.

(** A successful extraction yields a value of the type [unsigned int]. *)
Lemma read_uint_range (s rest : list ascii) (v : Z) :
  read_uint s = XOk v rest → is_u32 v.
Proof.
  unfold read_uint.
  destruct (skip_ws s) as [|c s']; [discriminate|].
  destruct (if Ascii.eqb c "-" then (true, s')
            else if Ascii.eqb c "+" then (false, s') else (false, c :: s'))
    as [neg body].
  destruct (span is_digit body) as [ds rest'] eqn:Hspan.
  destruct ds as [|d ds]; [discriminate|].
  destruct (UINT_MOD <=? decimal (d :: ds)) eqn:Hov; [discriminate|].
  intros [= <- _].
  destruct neg; [apply u32_range|].
  apply Z.leb_gt in Hov. split; [|exact Hov].
  apply decimal_nonneg; [|lia]. eapply span_prefix, Hspan.
Qed.

Lemma parse_edge_range (l : string) (u v : Z) :
  parse_line l = LEdge (Some (u, v)) → is_u32 u ∧ is_u32 v.
Proof.
  unfold parse_line.
  destruct (read_word _) as [[type s1]|]; [|discriminate].
  destruct (String.eqb _ "c"); [discriminate|].
  destruct (String.eqb _ "p").
  { destruct (read_word s1) as [[format s2]|]; discriminate. }
  destruct (String.eqb _ "e"); [|discriminate].
  destruct (read_uint s1) as [u0 s2|] eqn:Hu; [|discriminate].
  destruct (read_uint s2) as [v0 s3|] eqn:Hv; [|discriminate].
  intros [= <- <-]. split; eapply read_uint_range; eassumption.
Qed.

End LexFacts.

(** ** The constructor from a file *)

Section FileFacts.
Import Graph.
Variable dim : nat.

(** When both assignments of the ["e"] branch land in the table, they are
    the symmetric pair at the decremented indices. *)
Lemma add_edge_Some (m m' : matrix) (u v : Z) :
  add_edge dim m u v = Some m' →
  ∃ i j : nat,
    (i < dim)%nat ∧ (j < dim)%nat ∧
    Z.of_nat i = u32 (u - 1) ∧ Z.of_nat j = u32 (v - 1) ∧
    m' = alter (<[i := true]>) j (alter (<[j := true]>) i m).
Proof.
  unfold add_edge, write.
  destruct (decide (0 ≤ u32 (u - 1) < Z.of_nat dim ∧ 0 ≤ u32 (v - 1) < Z.of_nat dim))
    as [Hin|Hout]; [|discriminate].
  simpl. rewrite decide_True by tauto.
  intros [= <-].
  exists (Z.to_nat (u32 (u - 1))), (Z.to_nat (u32 (v - 1))).
  repeat split; lia || reflexivity.
Qed.

(** The assignments land in the table exactly when both vertex numbers are
    in [1 .. dim]. *)
Lemma add_edge_in_bounds (m : matrix) (u v : Z) :
  Z.of_nat dim < UINT_MOD → is_u32 u → is_u32 v →
  is_Some (add_edge dim m u v) ↔ (1 ≤ u ≤ Z.of_nat dim ∧ 1 ≤ v ≤ Z.of_nat dim).
Proof.
  intros Hdim Hu Hv.
  assert (∀ x, is_u32 x →
    (0 ≤ u32 (x - 1) < Z.of_nat dim ↔ 1 ≤ x ≤ Z.of_nat dim)) as Hdec.
  { intros x [Hx0 Hx1]. unfold u32.
    destruct (decide (x = 0)) as [->|Hx].
    - change ((0 - 1) mod UINT_MOD) with (UINT_MOD - 1). lia.
    - rewrite Z.mod_small by lia. lia. }
  unfold add_edge, write.
  destruct (decide (0 ≤ u32 (u - 1) < Z.of_nat dim ∧ 0 ≤ u32 (v - 1) < Z.of_nat dim))
    as [Hin|Hout]; simpl.
  - rewrite decide_True by tauto.
    split; [intros _|intros _; eexists; reflexivity].
    destruct Hin as [H1 H2]. apply Hdec in H1, H2; tauto.
  - split; [intros [? [=]]|].
    intros [H1 H2]. apply Hdec in H1, H2; tauto.
Qed.

Lemma decrement_injective (u v : Z) :
  is_u32 u → is_u32 v → u32 (u - 1) = u32 (v - 1) → u = v.
Proof.
  intros [Hu0 Hu1] [Hv0 Hv1]. unfold u32.
  destruct (decide (u = 0)) as [->|Hu], (decide (v = 0)) as [->|Hv].
  - reflexivity.
  - change ((0 - 1) mod UINT_MOD) with (UINT_MOD - 1).
    rewrite (Z.mod_small (v - 1)) by lia. lia.
  - change ((0 - 1) mod UINT_MOD) with (UINT_MOD - 1).
    rewrite (Z.mod_small (u - 1)) by lia. lia.
  - rewrite !Z.mod_small by lia. lia.
Qed.

(** The reading loop keeps the table square and symmetric. *)
Lemma read_lines_symmetric (ls : list string) (m m' : matrix) :
  square dim m → symmetric dim m →
  read_lines dim ls m = Built m' →
  square dim m' ∧ symmetric dim m'.
Proof.
  revert m. induction ls as [|l ls IH]; intros m Hsq Hsym; simpl.
  - intros [= <-]. split; assumption.
  - destruct (parse_line l) as [|format nodes|[[u v]|]|]; try (apply IH; assumption).
    + destruct (negb (String.eqb format "edge")); [discriminate|].
      destruct nodes as [k|]; [|discriminate].
      destruct (negb (k =? Z.of_nat dim)); [discriminate|].
      apply IH; assumption.
    + destruct (add_edge dim m u v) as [m1|] eqn:Hadd; [|discriminate].
      apply add_edge_Some in Hadd as (i & j & Hi & Hj & _ & _ & ->).
      apply IH; [apply square_pair, Hsq|apply symmetric_pair; assumption].
Qed.

(** Without a line joining a vertex to itself, it also keeps the diagonal
    clear. *)
Lemma read_lines_irreflexive (ls : list string) (m m' : matrix) :
  square dim m → irreflexive dim m → no_loop_lines ls →
  read_lines dim ls m = Built m' →
  irreflexive dim m'.
Proof.
  revert m. induction ls as [|l ls IH]; intros m Hsq Hirr Hno; simpl.
  - intros [= <-]. assumption.
  - apply Forall_cons in Hno as [Hl Hno].
    destruct (parse_line l) as [|format nodes|[[u v]|]|] eqn:Hparse;
      try (apply IH; assumption).
    + destruct (negb (String.eqb format "edge")); [discriminate|].
      destruct nodes as [k|]; [|discriminate].
      destruct (negb (k =? Z.of_nat dim)); [discriminate|].
      apply IH; assumption.
    + destruct (add_edge dim m u v) as [m1|] eqn:Hadd; [|discriminate].
      apply add_edge_Some in Hadd as (i & j & Hi & Hj & Hiu & Hjv & ->).
      apply parse_edge_range in Hparse as [Hu Hv].
      apply IH; [apply square_pair, Hsq| |exact Hno].
      apply irreflexive_pair; try assumption.
      intros ->. apply Hl, decrement_injective; [assumption..|congruence].
Qed.

(** With every edge line in range, no assignment leaves the table. *)
Lemma read_lines_in_bounds (ls : list string) (m : matrix) :
  Z.of_nat dim < UINT_MOD →
  edges_in_range dim ls → read_lines dim ls m ≠ OutOfBounds.
Proof.
  intros Hdim Hall. revert m.
  induction Hall as [|l ls Hl _ IH]; intros m; simpl; [discriminate|].
  destruct (parse_line l) as [|format nodes|[[u v]|]|] eqn:Hparse;
    try apply IH.
  - destruct (negb (String.eqb format "edge")); [discriminate|].
    destruct nodes as [k|]; [|discriminate].
    destruct (negb (k =? Z.of_nat dim)); [discriminate|apply IH].
  - apply parse_edge_range in Hparse as [Hu Hv].
    destruct (proj2 (add_edge_in_bounds m u v Hdim Hu Hv) Hl) as [m1 ->].
    apply IH.
Qed.

(** An edge line with a vertex number outside [1 .. dim] makes the loop
    write outside the table as soon as it is read. *)
Lemma read_lines_out_of_bounds (l : string) (ls : list string) (m : matrix) (u v : Z) :
  Z.of_nat dim < UINT_MOD →
  parse_line l = LEdge (Some (u, v)) →
  ¬ (1 ≤ u ≤ Z.of_nat dim ∧ 1 ≤ v ≤ Z.of_nat dim) →
  read_lines dim (l :: ls) m = OutOfBounds.
Proof.
  intros Hdim Hparse Hout. simpl. rewrite Hparse.
  apply parse_edge_range in Hparse as [Hu Hv].
  destruct (add_edge dim m u v) as [m1|] eqn:Hadd; [|reflexivity].
  exfalso. apply Hout, (add_edge_in_bounds m u v Hdim Hu Hv).
  rewrite Hadd. eexists; reflexivity.
Qed.

End FileFacts.

(** C10: the constructor from a file keeps its assignments inside the table
    only when every ["e u v"] line has [1 ≤ u ≤ dim] and [1 ≤ v ≤ dim].  It
    decrements both numbers as [unsigned int]s, so that [0] wraps to
    [2^32 - 1], and indexes without a check: with all lines in range no
    assignment leaves the table, and the first line out of range, such as
    ["e 0 1"] or a vertex number above [dim], writes outside it. *)
Theorem file_constructor_bounds (dim : nat) :
  Z.of_nat dim < UINT_MOD →
  (∀ ls m, Graph.edges_in_range dim ls →
           Graph.read_lines dim ls m ≠ Graph.OutOfBounds) ∧
  (∀ l ls m u v,
     Graph.parse_line l = Graph.LEdge (Some (u, v)) →
     ¬ (1 ≤ u ≤ Z.of_nat dim ∧ 1 ≤ v ≤ Z.of_nat dim) →
     Graph.read_lines dim (l :: ls) m = Graph.OutOfBounds) ∧
  (∀ m v, Graph.add_edge dim m 0 v = None) ∧
  Graph.graph_from_file dim (Some ["e 0 1"%string]) = Graph.OutOfBounds ∧
  Graph.graph_from_file 3 (Some ["p edge 3 1"; "e 4 1"]%string) = Graph.OutOfBounds.
Proof.
  intros Hdim.
  split; [intros ls m; apply read_lines_in_bounds, Hdim|].
  split; [intros l ls m u v; apply read_lines_out_of_bounds, Hdim|].
  assert (∀ m v, Graph.add_edge dim m 0 v = None) as Hzero.
  { intros m v. unfold Graph.add_edge, Graph.write.
    change (u32 (0 - 1)) with (UINT_MOD - 1).
    rewrite decide_False by lia. reflexivity. }
  split; [exact Hzero|].
  split; [|reflexivity].
  apply (read_lines_out_of_bounds dim "e 0 1" [] _ 0 1 Hdim); [reflexivity|lia].
Qed.

Lemma file_constructor_bounds_witness :
  Graph.graph_from_file 2 (Some ["e 0 1"%string]) = Graph.OutOfBounds.
Proof.
  apply (file_constructor_bounds 2). reflexivity.
Defined.

(** ** The random constructor *)

Section RandomFacts.
Import Graph.
Variable dim : nat.
Variable draws : nat → bool.

(** What both loops maintain. *)
Definition undirected (m : matrix) : Prop :=
  square dim m ∧ symmetric dim m ∧ irreflexive dim m.

Lemma undirected_zero : undirected (zero_matrix dim).
Proof.
  split; [apply square_zero|].
  split; [intros i j _ _|intros i _]; rewrite !adj_zero; reflexivity.
Qed.

Lemma undirected_pair (m : matrix) (i j : nat) (b : bool) :
  (i < dim)%nat → (j < dim)%nat → i ≠ j → undirected m →
  undirected (alter (<[i := b]>) j (alter (<[j := b]>) i m)).
Proof.
  intros Hi Hj Hne (Hsq & Hsym & Hirr).
  split; [apply square_pair, Hsq|].
  split; [apply symmetric_pair|apply irreflexive_pair]; assumption.
Qed.

(** [m[i][i] = false]. *)
Lemma undirected_diagonal (m : matrix) (i : nat) :
  (i < dim)%nat → undirected m → undirected (alter (<[i := false]>) i m).
Proof.
  intros Hi (Hsq & Hsym & Hirr).
  split; [apply square_alter, Hsq|].
  split.
  - intros a c Ha Hc. rewrite !(adj_alter dim) by assumption.
    rewrite (Hsym a c Ha Hc).
    repeat case_decide; try reflexivity; tauto.
  - intros a Ha. rewrite (adj_alter dim) by assumption.
    case_decide; [reflexivity|apply Hirr, Ha].
Qed.

Lemma fill_row_undirected (i j todo k : nat) (m : matrix) :
  (i < j)%nat → (j + todo ≤ dim)%nat → undirected m →
  undirected (fill_row draws i j todo k m).1.
Proof.
  revert j k m. induction todo as [|todo IH]; intros j k m Hij Hj Hm; simpl.
  - exact Hm.
  - apply IH; [lia..|].
    apply undirected_pair; [lia..|exact Hm].
Qed.

Lemma fill_rows_undirected (i todo k : nat) (m : matrix) :
  (i + todo ≤ dim)%nat → undirected m →
  undirected (fill_rows draws dim i todo k m).
Proof.
  revert i k m. induction todo as [|todo IH]; intros i k m Hi Hm; simpl.
  - exact Hm.
  - pose proof (fill_row_undirected i (S i) (dim - S i) k m) as Hrow.
    destruct (fill_row draws i (S i) (dim - S i) k m) as [m1 k1].
    apply IH; [lia|].
    apply undirected_diagonal; [lia|].
    apply Hrow; [lia..|exact Hm].
Qed.

Lemma graph_random_undirected : undirected (graph_random dim draws).
Proof. apply fill_rows_undirected; [lia|apply undirected_zero]. Qed.

End RandomFacts.

(** C8, as the code has it: every graph the two constructors build is
    symmetric; the random constructor also clears the diagonal, while the
    constructor from a file leaves [adj(i, i) = false] only when no
    ["e u v"] line has [u = v], since it accepts such a line. *)
Theorem constructed_graph_symmetric (dim : nat) (ls : list string)
    (draws : nat → bool) (m : Graph.matrix) :
  Graph.graph_from_file dim (Some ls) = Graph.Built m →
  (Graph.symmetric dim m ∧
   (Graph.no_loop_lines ls → Graph.irreflexive dim m)) ∧
  (Graph.symmetric dim (Graph.graph_random dim draws) ∧
   Graph.irreflexive dim (Graph.graph_random dim draws)).
Proof.
  intros Hbuilt. simpl in Hbuilt.
  destruct (undirected_zero dim) as (Hsq & Hsym & Hirr).
  split.
  - split.
    + eapply read_lines_symmetric; eassumption.
    + intros Hno. eapply read_lines_irreflexive; eassumption.
  - destruct (graph_random_undirected dim draws) as (_ & Hs & Hi).
    split; assumption.
Qed.

Lemma constructed_graph_symmetric_witness :
  (Graph.symmetric 3 [[false; true; false]; [true; false; false]; [false; false; false]] ∧
   (Graph.no_loop_lines ["p edge 3 1"; "e 1 2"]%string →
    Graph.irreflexive 3 [[false; true; false]; [true; false; false]; [false; false; false]])) ∧
  (Graph.symmetric 3 (Graph.graph_random 3 Nat.even) ∧
   Graph.irreflexive 3 (Graph.graph_random 3 Nat.even)).
Proof.
  apply (constructed_graph_symmetric 3 ["p edge 3 1"; "e 1 2"]%string Nat.even).
  reflexivity.
Defined.

(** C8 as stated fails for the constructor from a file: the line ["e 1 1"]
    is accepted and sets an entry of the diagonal. *)
Lemma file_graph_not_irreflexive :
  ∃ m, Graph.graph_from_file 1 (Some ["p edge 1 1"; "e 1 1"]%string) = Graph.Built m ∧
       ¬ Graph.irreflexive 1 m.
Proof.
  exists [[true]]. split; [reflexivity|].
  intros Hirr. specialize (Hirr 0%nat ltac:(lia)). discriminate Hirr.
Qed.

(** ** The sequential part on rank 0 *)

Definition is_send (e : event) : Prop :=
  match e with EvSend _ _ _ => True | _ => False end.

Section SeedFacts.
Context `{NodeOps}.

Lemma seed_body_no_send (W : nat) (curr : solution) (rest : list solution)
    (ub : Z) (b : solution) :
  Forall (λ e, ¬ is_send e) (seed_body W curr rest ub b).2.
Proof.
  unfold seed_body.
  repeat match goal with |- context [if ?c then _ else _] => destruct c end;
    simpl; repeat constructor; simpl; tauto.
Qed.

Lemma seed_loop_no_send (fuel W : nat) (st st' : seed) (evs : list event) :
  seed_loop fuel W st = Some (st', evs) → Forall (λ e, ¬ is_send e) evs.
Proof.
  revert st st' evs. induction fuel as [|fuel IH]; intros st st' evs; simpl;
    [discriminate|].
  destruct (initial_q st) as [|curr rest]; [intros [= _ <-]; constructor|].
  pose proof (seed_body_no_send W curr rest (s_ub st) (best_so_far st)) as Hbody.
  destruct (seed_body W curr rest (s_ub st) (best_so_far st)) as [[fl st1] evs1].
  simpl in Hbody. destruct fl.
  - destruct (seed_loop fuel W st1) as [[st2 evs2]|] eqn:Hloop; [|discriminate].
    simpl. intros [= _ <-]. apply Forall_app. split; [exact Hbody|].
    eapply IH, Hloop.
  - intros [= _ <-]. exact Hbody.
Qed.

(** C5: when the seeding loop ends with an empty queue, the main thread of
    rank 0 prints [best_so_far] and calls [MPI_Abort] with the non-zero code
    [69]; no message has been sent to any worker. *)
Theorem empty_frontier_aborts (fuel W : nat) (st : seed) (evs : list event) :
  seed_loop fuel W seed_init = Some (st, evs) →
  initial_q st = [] →
  ∃ code tr,
    coordinator_main fuel W = Some (Aborted code, st, tr) ∧
    code = 69 ∧ code ≠ 0 ∧
    tr = evs ++ [EvPrint 0 (best_so_far st); EvAbort 0 code] ∧
    Forall (λ e, ¬ is_send e) tr.
Proof.
  intros Hloop Hempty.
  exists 69, (evs ++ [EvPrint 0 (best_so_far st); EvAbort 0 69]).
  split; [unfold coordinator_main; rewrite Hloop; simpl; rewrite Hempty; reflexivity|].
  split; [reflexivity|]. split; [discriminate|]. split; [reflexivity|].
  apply Forall_app. split; [eapply seed_loop_no_send, Hloop|].
  repeat constructor; simpl; tauto.
Qed.

(** What the loop does with a node that is not final, not pruned, and whose
    children do not fit. *)
Lemma seed_body_break (W : nat) (curr : solution) (rest : list solution)
    (ub : Z) (b : solution) :
  is_final curr = false →
  tot_colors curr < ub →
  (W < length rest + length (get_next ub curr))%nat →
  seed_body W curr rest ub b
  = (Break, Seed (rest ++ [curr]) ub b,
     [EvRead 0 MainThread ub; EvRead 0 MainThread ub]).
Proof.
  intros Hfin Hub Hfit. unfold seed_body. rewrite Hfin. simpl.
  destruct (ub <=? tot_colors curr) eqn:Hle; [apply Z.leb_le in Hle; lia|].
  destruct (length rest + length (get_next ub curr) <=? W)%nat eqn:Hw;
    [apply Nat.leb_le in Hw; lia|].
  reflexivity.
Qed.

Lemma mapM_app_Some {A B : Type} (f : A → option B) (l1 l2 : list A) (k1 k2 : list B) :
  mapM f l1 = Some k1 → mapM f l2 = Some k2 → mapM f (l1 ++ l2) = Some (k1 ++ k2).
Proof.
  intros H1 H2. apply mapM_Some in H1, H2. apply mapM_Some.
  apply Forall2_app; assumption.
Qed.

(** C6, as the code has it: the node that stops the seeding loop is pushed
    at the back of the queue, the loop ends there, and the dispatch sends it
    after every other queued node, to rank [initial_q.size()]. *)
Theorem seed_stop_pushes_back (fuel W : nat) (curr : solution)
    (rest : list solution) (ub : Z) (b : solution) (first : list msg) :
  is_final curr = false →
  tot_colors curr < ub →
  (W < length rest + length (get_next ub curr))%nat →
  dispatch W (rest ++ [curr]) = Some first →
  seed_loop (S fuel) W (Seed (curr :: rest) ub b)
  = Some (Seed (rest ++ [curr]) ub b,
          [EvRead 0 MainThread ub; EvRead 0 MainThread ub]) ∧
  ∃ buffer,
    Wire.send_solution dim curr = Some buffer ∧
    first !! length rest = Some (Msg INITIAL_NODE buffer) ∧
    ∀ (i : nat) m, (length rest < i)%nat → first !! i = Some m → tag m = 0.
Proof.
  intros Hfin Hub Hfit Hdisp.
  split.
  { simpl. rewrite seed_body_break by assumption. reflexivity. }
  unfold dispatch in Hdisp.
  destruct (mapM (Wire.send_solution dim) (rest ++ [curr])) as [nodes|] eqn:Hnodes;
    [|discriminate].
  simpl in Hdisp.
  destruct (Wire.send_solution dim blank) as [dummy|]; [|discriminate].
  simpl in Hdisp.
  destruct (decide (length nodes ≤ W)%nat) as [Hle|]; [|discriminate].
  injection Hdisp as <-.
  apply mapM_Some in Hnodes.
  apply Forall2_app_inv_l in Hnodes as (k1 & k2 & Hk1 & Hk2 & ->).
  apply Forall2_cons_inv_l in Hk2 as (buffer & k3 & Hbuf & Hk3 & ->).
  apply Forall2_nil_inv_l in Hk3 as ->.
  apply Forall2_length in Hk1.
  exists buffer. split; [exact Hbuf|]. split.
  - rewrite lookup_app_l by (rewrite length_fmap, length_app; simpl; lia).
    rewrite list_lookup_fmap, lookup_app_r by lia.
    rewrite Hk1, Nat.sub_diag. reflexivity.
  - intros i m Hi Hm.
    rewrite lookup_app_r in Hm by (rewrite length_fmap, length_app; simpl; lia).
    apply lookup_replicate_1 in Hm as [-> _]. reflexivity.
Qed.

End SeedFacts.

Lemma empty_frontier_aborts_witness :
  ∃ code tr,
    @coordinator_main (Search.ops 2 edge2) 10 3
      = Some (Aborted code,
              Seed [] 2 {| color := [1; 2]; tot_colors := 2; next := 2 |}, tr) ∧
    code = 69 ∧ code ≠ 0 ∧
    tr = [EvRead 0 MainThread 3; EvRead 0 MainThread 3; EvRead 0 MainThread 3;
          EvRead 0 MainThread 3; EvRead 0 MainThread 3; EvWrite 0 MainThread 3 2;
          EvPrint 0 {| color := [1; 2]; tot_colors := 2; next := 2 |}]
         ++ [EvPrint 0 {| color := [1; 2]; tot_colors := 2; next := 2 |};
             EvAbort 0 code] ∧
    Forall (λ e, ¬ is_send e) tr.
Proof.
  apply (@empty_frontier_aborts (Search.ops 2 edge2) 10 3
           (Seed [] 2 {| color := [1; 2]; tot_colors := 2; next := 2 |})).
  - reflexivity.
  - reflexivity.
Defined.

Lemma seed_stop_pushes_back_witness :
  @seed_loop (Search.ops 3 edgeless3) 1 2
    (Seed [ {| color := [1; 1; 0]; tot_colors := 1; next := 2 |};
            {| color := [1; 2; 0]; tot_colors := 2; next := 2 |} ] 4
          (Search.empty 3))
  = Some (Seed [ {| color := [1; 2; 0]; tot_colors := 2; next := 2 |};
                 {| color := [1; 1; 0]; tot_colors := 1; next := 2 |} ] 4
               (Search.empty 3),
          [EvRead 0 MainThread 4; EvRead 0 MainThread 4]) ∧
  ∃ buffer,
    Wire.send_solution 3 {| color := [1; 1; 0]; tot_colors := 1; next := 2 |}
      = Some buffer ∧
    [Msg INITIAL_NODE [1; 2; 0; 2; 2]; Msg INITIAL_NODE [1; 1; 0; 1; 2]] !! 1%nat
      = Some (Msg INITIAL_NODE buffer) ∧
    ∀ (i : nat) m, (1 < i)%nat →
      [Msg INITIAL_NODE [1; 2; 0; 2; 2]; Msg INITIAL_NODE [1; 1; 0; 1; 2]] !! i
        = Some m → tag m = 0.
Proof.
  apply (@seed_stop_pushes_back (Search.ops 3 edgeless3) 0 2
           {| color := [1; 1; 0]; tot_colors := 1; next := 2 |}
           [ {| color := [1; 2; 0]; tot_colors := 2; next := 2 |} ] 4
           (Search.empty 3)).
  - reflexivity.
  - simpl. lia.
  - simpl. lia.
  - reflexivity.
Defined.

(** C6 as stated fails: in the run on the edgeless graph with three vertices
    and two workers, the node [1 1 0] stops the loop while [1 2 0] is still
    queued; it ends up behind [1 2 0], not at the head, and goes to rank 2
    while rank 1 receives [1 2 0]. *)
Lemma seed_stop_not_at_head :
  let u := {| color := [1; 1; 0]; tot_colors := 1; next := 2 |} in
  let v := {| color := [1; 2; 0]; tot_colors := 2; next := 2 |} in
  @seed_body (Search.ops 3 edgeless3) 2 u [v] 4 (Search.empty 3)
    = (Break, Seed [v; u] 4 (Search.empty 3),
       [EvRead 0 MainThread 4; EvRead 0 MainThread 4]) ∧
  (∃ st evs,
     @coordinator_main (Search.ops 3 edgeless3) 10 2
       = Some (Dispatched [Msg INITIAL_NODE [1; 2; 0; 2; 2];
                           Msg INITIAL_NODE [1; 1; 0; 1; 2]], st, evs) ∧
     initial_q st = [v; u]) ∧
  [v; u] ≠ u :: [v] ∧
  Wire.send_solution 3 u ≠ Some [1; 2; 0; 2; 2].
Proof.
  simpl. split; [reflexivity|]. split.
  - eexists _, _. split; reflexivity.
  - split; [intros [=]|]. vm_compute. intros [=].
Qed.

(** ** The termination value on the bound channel *)

(** The listener of rank 0 ends its loop by broadcasting [RETURN]. *)
Lemma coordinator_finish_bcast `{NodeOps} (W : nat) (c c' : coordinator)
    (vs : list Z) (evs : list event) :
  coordinator_finish W c = Some (c', vs, evs) → vs = [RETURN].
Proof.
  unfold coordinator_finish. destruct c as [ub done b fin].
  destruct (fin || (done <? W)%nat); [discriminate|]. intros [= _ <- _].
  reflexivity.
Qed.

(** A worker's listener leaves its loop on the value [RETURN], whoever
    broadcast it and why. *)
Lemma listener_exits_on_RETURN `{NodeOps} (rank : nat) (pc : wmain) (ub : Z)
    (inbox : list msg) (bcasts : list Z) (out : list msg) :
  listener_step rank (Worker pc LWait ub inbox (RETURN :: bcasts) out)
  = Some (Worker pc LExit ub inbox bcasts out, []).
Proof. reflexivity. Qed.

(** C2 fails on the code: the value broadcast at termination is the constant
    [RETURN = 3], whatever the number of vertices.  On the cycle with five
    vertices and three workers, rank 1 finds the colouring [1 2 1 2 3]; rank 0
    accepts it and broadcasts the bound [3]; the listener of rank 2 takes it
    for the termination value and exits with its bound still at [6], while
    rank 0 has counted no terminated worker. *)
Theorem sentinel_collides_with_bound :
  RETURN = 3 ∧ RETURN ≤ Z.of_nat (@dim (Search.ops 5 cycle5)) ∧
  ∃ s tr w,
    @run (Search.ops 5 cycle5) 20 3
      (replicate 5 (RunMain 0) ++ [Deliver 0; RunMain 1; RunListener 1])
      = Some (s, tr) ∧
    EvPrint 0 {| color := [1; 2; 1; 2; 3]; tot_colors := 3; next := 5 |} ∈ tr ∧
    EvBcast 3 ∈ tr ∧
    c_finished (coord s) = false ∧ worker_done (coord s) = 0%nat ∧
    c_ub (coord s) = 3 ∧
    workers s !! 1%nat = Some w ∧ w_lis w = LExit ∧ w_ub w = 6.
Proof.
  split; [reflexivity|]. split; [simpl; unfold RETURN; lia|].
  eexists _, _, _. split; [vm_compute; reflexivity|].
  split; [|split]; [repeat (apply list_elem_of_here || apply list_elem_of_further)..|].
  repeat split; reflexivity.
Qed.

(** ** Who writes the bound, and what *)

Section BoundWriters.
Context `{NodeOps}.

(** The seeding loop assigns the bound only for a final node below it. *)
Lemma seed_body_write (W : nat) (curr : solution) (rest : list solution)
    (ub : Z) (b : solution) (rank : nat) (t : tid) (old new : Z) :
  EvWrite rank t old new ∈ (seed_body W curr rest ub b).2 →
  rank = 0%nat ∧ t = MainThread ∧ is_final curr = true ∧
  old = ub ∧ new = tot_colors curr ∧ new < old.
Proof.
  unfold seed_body.
  destruct (is_final curr); simpl.
  - destruct (tot_colors curr <? ub) eqn:Hlt; simpl.
    + apply Z.ltb_lt in Hlt. rewrite !elem_of_cons, elem_of_nil.
      intros [[=]|[[= -> -> -> ->]|[[=]|[]]]]. repeat split; reflexivity || exact Hlt.
    + rewrite !elem_of_cons, elem_of_nil. intros [[=]|[]].
  - destruct (ub <=? tot_colors curr); simpl.
    + rewrite !elem_of_cons, elem_of_nil. intros [[=]|[]].
    + destruct (length rest + length (get_next ub curr) <=? W)%nat; simpl;
        rewrite !elem_of_cons, elem_of_nil; intros [[=]|[[=]|[]]].
Qed.

(** The main thread of a worker assigns the bound at line 266 only. *)
Lemma main_step_write (rank : nat) (w w' : worker) (evs : list event)
    (r : nat) (t : tid) (old new : Z) :
  main_step rank w = Some (w', evs) →
  EvWrite r t old new ∈ evs →
  r = rank ∧ t = MainThread ∧ old = w_ub w ∧
  ∃ curr q, w_main w = WStore curr q ∧ new = tot_colors curr.
Proof.
  destruct w as [pc lis ub inbox bcasts out]. simpl.
  destruct pc as [|[|curr q]|curr q|curr q| | |]; simpl.
  - destruct inbox as [|m inbox']; [discriminate|].
    destruct (Wire.receive_solution dim (payload m)); [|discriminate]. simpl.
    intros [= _ <-]. rewrite !elem_of_cons, elem_of_nil. intros [[=]|[]].
  - intros [= _ <-]. rewrite elem_of_nil. intros [].
  - intros [= _ <-]. rewrite !elem_of_cons, elem_of_nil. intros [[=]|[]].
  - intros [= _ <-]. rewrite !elem_of_cons, elem_of_nil. intros [[=]|[]].
  - destruct (Wire.send_solution dim curr); [|discriminate]. simpl.
    intros [= _ <-]. rewrite !elem_of_cons, elem_of_nil.
    intros [[= -> -> -> ->]|[[=]|[]]]. repeat split; try reflexivity.
    eexists _, _. split; reflexivity.
  - destruct (Wire.send_solution dim blank); [|discriminate]. simpl.
    intros [= _ <-]. rewrite !elem_of_cons, elem_of_nil. intros [[=]|[]].
  - intros [= _ <-]. rewrite !elem_of_cons, elem_of_nil. intros [[=]|[]].
  - discriminate.
Qed.

(** It gets to line 266 only through the test of line 262. *)
Lemma main_step_to_store (rank : nat) (w w' : worker) (evs : list event)
    (curr : solution) (q : list solution) :
  main_step rank w = Some (w', evs) →
  w_main w' = WStore curr q →
  w_main w = WLoop (curr :: q) ∧ is_final curr = true ∧ tot_colors curr < w_ub w.
Proof.
  destruct w as [pc lis ub inbox bcasts out]. simpl.
  destruct pc as [|[|c q']|c q'|c q'| | |]; simpl.
  - destruct inbox as [|m inbox']; [discriminate|].
    destruct (Wire.receive_solution dim (payload m)); [|discriminate]. simpl.
    intros [= <- _]. simpl. destruct (tag m =? INITIAL_NODE); discriminate.
  - intros [= <- _]. discriminate.
  - intros [= <- _]. simpl.
    destruct (is_final c) eqn:Hfin; simpl.
    + destruct (tot_colors c <? ub) eqn:Hlt; [|discriminate].
      intros [= -> ->]. apply Z.ltb_lt in Hlt. repeat split; assumption.
    + destruct (ub <=? tot_colors c); discriminate.
  - intros [= <- _]. discriminate.
  - destruct (Wire.send_solution dim c); [|discriminate]. simpl.
    intros [= <- _]. discriminate.
  - destruct (Wire.send_solution dim blank); [|discriminate]. simpl.
    intros [= <- _]. discriminate.
  - intros [= <- _]. discriminate.
  - discriminate.
Qed.

(** The listener of a worker assigns the value it received, at line 315. *)
Lemma listener_step_write (rank : nat) (w w' : worker) (evs : list event)
    (r : nat) (t : tid) (old new : Z) :
  listener_step rank w = Some (w', evs) →
  EvWrite r t old new ∈ evs →
  r = rank ∧ t = ListenerThread ∧ old = w_ub w ∧ w_lis w = LStore new.
Proof.
  destruct w as [pc lis ub inbox bcasts out]. simpl.
  destruct lis as [| |v|v|]; simpl; try discriminate.
  - destruct bcasts; [discriminate|]. intros [= _ <-].
    rewrite elem_of_nil. intros [].
  - intros [= _ <-]. rewrite !elem_of_cons, elem_of_nil. intros [[=]|[]].
  - intros [= _ <-]. rewrite !elem_of_cons, elem_of_nil.
    intros [[= -> -> -> ->]|[]]. repeat split; reflexivity.
Qed.

(** Both branches of the receiving loop on rank 0 belong to its listener. *)
Lemma coordinator_write (W : nat) (c c' : coordinator) (m : msg)
    (vs : list Z) (evs : list event) (r : nat) (t : tid) (old new : Z) :
  coordinator_receive W c m = Some (c', vs, evs) ∨
  coordinator_finish W c = Some (c', vs, evs) →
  EvWrite r t old new ∈ evs →
  r = 0%nat ∧ t = ListenerThread ∧ old = c_ub c ∧ new < old.
Proof.
  destruct c as [ub done b fin]. simpl. intros [Hrecv|Hfin].
  - destruct (fin || negb (done <? W)%nat); [discriminate|].
    destruct (Wire.receive_solution dim (payload m)) as [nb|]; [|discriminate].
    simpl in Hrecv.
    destruct (tag m =? SOLUTION_FROM_WORKER); simpl in Hrecv.
    + destruct (tot_colors nb <? ub) eqn:Hlt; injection Hrecv as _ _ <-.
      * apply Z.ltb_lt in Hlt. rewrite !elem_of_cons, elem_of_nil.
        intros [[=]|[[= -> -> -> ->]|[[=]|[[=]|[]]]]].
        repeat split; reflexivity || exact Hlt.
      * rewrite !elem_of_cons, elem_of_nil. intros [[=]|[]].
    + injection Hrecv as _ _ <-. rewrite elem_of_nil. intros [].
  - destruct (fin || (done <? W)%nat); [discriminate|].
    injection Hfin as _ _ <-.
    rewrite !elem_of_cons, elem_of_nil. intros [[=]|[[=]|[]]].
Qed.

Lemma sys_step_rank0_write (a : sched) (s s' : system) (evs : list event)
    (t : tid) (old new : Z) :
  sys_step a s = Some (s', evs) →
  EvWrite 0 t old new ∈ evs → t = ListenerThread.
Proof.
  destruct a as [i|i|i|]; simpl.
  - destruct (workers s !! i) as [w|]; [|discriminate]. simpl.
    destruct (main_step (S i) w) as [[w' evs']|] eqn:Hstep; [|discriminate].
    simpl. intros [= _ <-] Hin.
    apply (main_step_write _ _ _ _ _ _ _ _ Hstep) in Hin as [[=] _].
  - destruct (workers s !! i) as [w|]; [|discriminate]. simpl.
    destruct (listener_step (S i) w) as [[w' evs']|] eqn:Hstep; [|discriminate].
    simpl. intros [= _ <-] Hin.
    apply (listener_step_write _ _ _ _ _ _ _ _ Hstep) in Hin as [[=] _].
  - destruct (workers s !! i) as [w|]; [|discriminate]. simpl.
    destruct (take_out w) as [[m w']|]; [|discriminate]. simpl.
    destruct (coordinator_receive _ _ m) as [[[c' vs] evs']|] eqn:Hrecv;
      [|discriminate].
    simpl. intros [= _ <-] Hin.
    eapply coordinator_write in Hin as (_ & -> & _); [reflexivity|].
    left. exact Hrecv.
  - destruct (coordinator_finish _ _) as [[[c' vs] evs']|] eqn:Hfin; [|discriminate].
    simpl. intros [= _ <-] Hin.
    eapply (coordinator_write _ _ _ (Msg 0 [])) in Hin as (_ & -> & _);
      [reflexivity|].
    right. exact Hfin.
Qed.

(** After the dispatch, the listener is the only writer on rank 0. *)
Lemma exec_rank0_write (sch : list sched) (s s' : system) (evs : list event)
    (t : tid) (old new : Z) :
  exec sch s = Some (s', evs) →
  EvWrite 0 t old new ∈ evs → t = ListenerThread.
Proof.
  revert s evs. induction sch as [|a sch IH]; intros s evs; simpl.
  - intros [= _ <-]. rewrite elem_of_nil. intros [].
  - destruct (sys_step a s) as [[s1 evs1]|] eqn:Hstep; [|discriminate]. simpl.
    destruct (exec sch s1) as [[s2 evs2]|] eqn:Hexec; [|discriminate]. simpl.
    intros [= <- <-]. rewrite elem_of_app. intros [Hin|Hin].
    + eapply sys_step_rank0_write; eassumption.
    + eapply IH; eassumption.
Qed.

(** C4, as the code has it: the bound is assigned by the listener thread and
    by the main thread.  The main thread of rank 0 assigns it in the seeding
    loop and the main thread of a worker at line 266 of its search, each time
    with the [tot_colors] of a final node it has just compared below the
    bound; the listener of a worker assigns the value it received; from the
    dispatch on, every assignment on rank 0 is its listener's. *)
Theorem bound_writers (W : nat) :
  (∀ curr rest ub b rank t old new,
     EvWrite rank t old new ∈ (seed_body W curr rest ub b).2 →
     rank = 0%nat ∧ t = MainThread ∧ is_final curr = true ∧
     old = ub ∧ new = tot_colors curr ∧ new < old) ∧
  (∀ rank w w' evs r t old new,
     main_step rank w = Some (w', evs) →
     EvWrite r t old new ∈ evs →
     r = rank ∧ t = MainThread ∧ old = w_ub w ∧
     ∃ curr q, w_main w = WStore curr q ∧ new = tot_colors curr) ∧
  (∀ rank w w' evs curr q,
     main_step rank w = Some (w', evs) →
     w_main w' = WStore curr q →
     w_main w = WLoop (curr :: q) ∧ is_final curr = true ∧
     tot_colors curr < w_ub w) ∧
  (∀ rank w w' evs r t old new,
     listener_step rank w = Some (w', evs) →
     EvWrite r t old new ∈ evs →
     r = rank ∧ t = ListenerThread ∧ old = w_ub w ∧ w_lis w = LStore new) ∧
  (∀ sch s s' evs t old new,
     exec sch s = Some (s', evs) →
     EvWrite 0 t old new ∈ evs → t = ListenerThread).
Proof.
  split; [intros *; apply seed_body_write|].
  split; [intros *; apply main_step_write|].
  split; [intros *; apply main_step_to_store|].
  split; [intros *; apply listener_step_write|].
  intros *; apply exec_rank0_write.
Qed.

End BoundWriters.

(** What C4 and C3 state about a trace of events. *)
Definition only_listener_writes (tr : list event) : Prop :=
  ∀ rank t old new, EvWrite rank t old new ∈ tr → t = ListenerThread.

Definition writes_decrease (tr : list event) : Prop :=
  ∀ rank t old new, EvWrite rank t old new ∈ tr → new < old.

(** The schedule of the run used below, on the edgeless graph with three
    vertices and two workers: rank 1 finds [1 2 1] and reports it, rank 0
    broadcasts the bound [2]; on rank 2 the listener compares [2] with the
    bound [4], then the main thread finds [1 1 1] and assigns [1], and then
    the listener assigns [2]. *)
Definition race_schedule : list sched :=
  replicate 5 (RunMain 0) ++
  [Deliver 0; RunMain 1; RunListener 1; RunListener 1;
   RunMain 1; RunMain 1; RunMain 1; RunMain 1; RunListener 1].

(** C4 as stated fails: the main threads assign the bound, on rank 1 and on
    rank 2 in this run (and on rank 0 in the seeding loop of a run that
    aborts). *)
Lemma main_thread_writes_bound :
  ∃ s tr,
    @run (Search.ops 3 edgeless3) 10 2 race_schedule = Some (s, tr) ∧
    EvWrite 1 MainThread 4 2 ∈ tr ∧
    EvWrite 2 MainThread 4 1 ∈ tr ∧
    ¬ only_listener_writes tr.
Proof.
  eexists _, _. split; [vm_compute; reflexivity|].
  split; [repeat (apply list_elem_of_here || apply list_elem_of_further)|].
  split; [repeat (apply list_elem_of_here || apply list_elem_of_further)|].
  intros Hall. specialize (Hall 1%nat MainThread 4 2). discriminate Hall.
  repeat (apply list_elem_of_here || apply list_elem_of_further).
Qed.

Lemma bound_writers_witness :
  1%nat = 1%nat ∧ MainThread = MainThread ∧ 4 = 4 ∧
  ∃ curr q,
    w_main (Worker (WStore {| color := [1; 2; 1]; tot_colors := 2; next := 3 |} [])
                   LWait 4 [] [] [])
      = WStore curr q ∧ 2 = tot_colors curr.
Proof.
  refine (proj1 (proj2 (@bound_writers (Search.ops 3 edgeless3) 2)) 1%nat
           (Worker (WStore {| color := [1; 2; 1]; tot_colors := 2; next := 3 |} [])
                   LWait 4 [] [] [])
           _ _ 1%nat MainThread 4 2 _ _).
  - vm_compute. reflexivity.
  - apply list_elem_of_here.
Defined.

(** C3 is violated by the code: in the same run the listener of rank 2
    assigns [2] to a bound that holds [1].  Its test at line 314 read the
    bound before the main thread lowered it at line 266; nothing makes the
    test and the assignment of either thread atomic. *)
Theorem bound_raised_by_race :
  ∃ s tr w,
    @run (Search.ops 3 edgeless3) 10 2 race_schedule = Some (s, tr) ∧
    EvWrite 2 MainThread 4 1 ∈ tr ∧
    EvWrite 2 ListenerThread 1 2 ∈ tr ∧
    ¬ writes_decrease tr ∧
    workers s !! 1%nat = Some w ∧ w_ub w = 2.
Proof.
  eexists _, _, _. split; [vm_compute; reflexivity|].
  split; [repeat (apply list_elem_of_here || apply list_elem_of_further)|].
  split; [repeat (apply list_elem_of_here || apply list_elem_of_further)|].
  split; [|split; reflexivity].
  intros Hall. specialize (Hall 2%nat ListenerThread 1 2).
  assert (2 < 1) by (apply Hall; repeat (apply list_elem_of_here || apply list_elem_of_further)).
  lia.
Qed.

(** ** What the engine needs from the search node

    The contract the engine relies on: valid nodes fit the wire, the
    children of a valid node that is not final are valid and strictly closer
    to a complete colouring, and a node has a bounded number of children. *)

Class NodeLaws `{NodeOps} : Type := {
  valid : solution → Prop;
  depth : solution → nat;
  branching : nat;
  valid_blank : valid blank;
  valid_shape : ∀ s, valid s → node_shape dim s;
  valid_children : ∀ ub s c,
    valid s → is_final s = false → c ∈ get_next ub s →
    valid c ∧ (depth c < depth s)%nat;
  children_bound : ∀ ub s,
    valid s → (length (get_next ub s) ≤ branching)%nat
}.

Section GroupFacts.
Context `{NodeLaws}.

(** *** Well-formed process groups *)

(** The nodes the main thread of a worker still holds. *)
Definition pc_nodes (pc : wmain) : list solution :=
  match pc with
  | WLoop q => q
  | WExpand curr q | WStore curr q => curr :: q
  | _ => []
  end.

(** The message carries a valid node. *)
Definition packed (m : msg) : Prop :=
  ∃ s, valid s ∧ Wire.send_solution dim s = Some (payload m).

(** The main thread has sent its [RETURN] message. *)
Definition done_main (pc : wmain) : bool :=
  match pc with WBarrier | WJoin => true | _ => false end.

Definition joined (pc : wmain) : bool :=
  match pc with WJoin => true | _ => false end.

Definition is_improved (m : msg) : Prop := tag m = SOLUTION_FROM_WORKER.

(** What is still on its way to rank 0: reports of colourings, closed by the
    [RETURN] message once the main thread has sent it. *)
Definition out_tags (w : worker) : Prop :=
  if done_main (w_main w) then
    w_out w = [] ∨
    ∃ ms m, w_out w = ms ++ [m] ∧ tag m = RETURN ∧ Forall is_improved ms
  else Forall is_improved (w_out w).

(** Line 257 is reached with a node that is not final, line 266 with a
    final one. *)
Definition pc_ok (pc : wmain) : Prop :=
  match pc with
  | WExpand curr _ => is_final curr = false
  | WStore curr _ => is_final curr = true
  | _ => True
  end.

Definition wf_worker (w : worker) : Prop :=
  Forall valid (pc_nodes (w_main w)) ∧
  (w_main w = WReceive → ∃ m, w_inbox w = [m] ∧ packed m) ∧
  Forall packed (w_out w) ∧
  out_tags w ∧
  pc_ok (w_main w).

(** Rank 0 has received the [RETURN] message of this worker. *)
Definition returned (w : worker) : bool :=
  done_main (w_main w) && bool_decide (w_out w = []).

Definition total (f : worker → nat) (ws : list worker) : nat :=
  sum_list (f <$> ws).

Definition returned01 (w : worker) : nat := if returned w then 1 else 0.

Definition wf_system (s : system) : Prop :=
  Forall wf_worker (workers s) ∧
  worker_done (coord s) = total returned01 (workers s) ∧
  (c_finished (coord s) = true → worker_done (coord s) = length (workers s)).

(** *** Sums over the workers *)

Lemma total_cons (f : worker → nat) (w : worker) (ws : list worker) :
  total f (w :: ws) = (f w + total f ws)%nat.
Proof. reflexivity. Qed.

Lemma total_insert (f : worker → nat) (ws : list worker) (i : nat) (w w' : worker) :
  ws !! i = Some w →
  (total f (<[i := w']> ws) + f w = total f ws + f w')%nat.
Proof.
  revert i. induction ws as [|x ws IH]; intros i; [discriminate|].
  destruct i as [|i].
  - intros [= ->]. change (<[0%nat := w']> (w :: ws)) with (w' :: ws).
    rewrite !total_cons. lia.
  - intros Hi. specialize (IH i Hi).
    change (<[S i := w']> (x :: ws)) with (x :: <[i := w']> ws).
    rewrite !total_cons. lia.
Qed.

Lemma total_fmap (f : worker → nat) (g : worker → worker) (k : nat) (ws : list worker) :
  (∀ w, f (g w) = f w + k)%nat →
  (total f (g <$> ws) = total f ws + k * length ws)%nat.
Proof.
  intros Hfg. induction ws as [|x ws IH]; [unfold total; simpl; lia|].
  rewrite fmap_cons, !total_cons, Hfg, IH. simpl. lia.
Qed.

Lemma total_le_length (f : worker → nat) (ws : list worker) :
  (∀ w, f w ≤ 1)%nat → (total f ws ≤ length ws)%nat.
Proof.
  intros Hf. induction ws as [|x ws IH]; [reflexivity|].
  rewrite total_cons. specialize (Hf x). simpl. lia.
Qed.

Lemma total_lt_length (f : worker → nat) (ws : list worker) (i : nat) (w : worker) :
  (∀ w, f w ≤ 1)%nat → ws !! i = Some w → f w = 0%nat →
  (total f ws < length ws)%nat.
Proof.
  intros Hf. revert i. induction ws as [|x ws IH]; intros i; [discriminate|].
  rewrite total_cons. destruct i as [|i]; simpl.
  - intros [= ->] Hw. pose proof (total_le_length f ws Hf) as Hle. lia.
  - intros Hi Hw. specialize (IH i Hi Hw). specialize (Hf x). lia.
Qed.

Lemma total_all (f : worker → nat) (ws : list worker) :
  Forall (λ w, f w = 1%nat) ws → total f ws = length ws.
Proof.
  induction 1 as [|x ws Hx _ IH]; [reflexivity|].
  rewrite total_cons, Hx, IH. reflexivity.
Qed.

Lemma total_all_inv (f : worker → nat) (ws : list worker) :
  (∀ w, f w ≤ 1)%nat → total f ws = length ws → Forall (λ w, f w = 1%nat) ws.
Proof.
  intros Hf. induction ws as [|x ws IH]; [constructor|].
  rewrite total_cons. simpl. intros Heq.
  pose proof (total_le_length f ws Hf). specialize (Hf x).
  constructor; [lia|apply IH; lia].
Qed.

Lemma returned01_le (w : worker) : (returned01 w ≤ 1)%nat.
Proof. unfold returned01. destruct (returned w); lia. Qed.

(** *** Messages that carry valid nodes can be sent and received *)

Lemma valid_send (s : solution) :
  valid s → Wire.send_solution dim s = Some (color s ++ [tot_colors s; next s]).
Proof. intros Hs. apply send_solution_shape, valid_shape, Hs. Qed.

Lemma packed_receive (m : msg) :
  packed m → ∃ s, valid s ∧ Wire.receive_solution dim (payload m) = Some s.
Proof.
  intros (s & Hs & Hsend). exists s. split; [exact Hs|].
  rewrite (valid_send s Hs) in Hsend. injection Hsend as <-.
  rewrite receive_solution_shape by apply (valid_shape s Hs).
  rewrite <- solution_eta. reflexivity.
Qed.

Lemma packed_of_valid (t : Z) (s : solution) (buffer : list Z) :
  valid s → Wire.send_solution dim s = Some buffer → packed (Msg t buffer).
Proof. intros Hs Hb. exists s. split; assumption. Qed.

End GroupFacts.

(** ** Every run is finite and never blocks before the report

    A cost is charged to everything that can still happen; every step of
    the group lowers the total. *)

Section Progress.
Context `{NodeLaws}.

(** [mc]: what a message on its way to rank 0 can still cause, its receipt
    and one broadcast value for each listener to receive, test and store. *)
Variable mc : nat.

(** The cost of a node [d] levels above the complete colourings: its two
    steps, its report, and its children. *)
Fixpoint weight (d : nat) : nat :=
  match d with
  | O => 2 + mc
  | S d' => 2 + mc + branching * weight d'
  end.

Definition stack_cost (q : list solution) : nat :=
  sum_list ((λ s, weight (depth s)) <$> q).

(** What follows the loop: leaving it, the [RETURN] message, the barrier. *)
Definition after_loop : nat := 3 + mc.

Definition main_cost (w : worker) : nat :=
  match w_main w with
  | WReceive =>
    match w_inbox w with
    | m :: _ =>
      match Wire.receive_solution dim (payload m) with
      | Some s => 1 + weight (depth s) + after_loop
      | None => 0
      end
    | [] => 0
    end
  | WLoop q => stack_cost q + after_loop
  | WExpand curr q | WStore curr q =>
    weight (depth curr) - 1 + stack_cost q + after_loop
  | WSendDone => 2 + mc
  | WBarrier => 1
  | WJoin => 0
  end.

Definition lis_cost (w : worker) : nat :=
  3 * length (w_bcasts w) +
  match w_lis w with LCheck _ => 2 | LStore _ => 1 | _ => 0 end.

Definition worker_cost (w : worker) : nat :=
  main_cost w + lis_cost w + mc * length (w_out w).

Lemma weight_min (d : nat) : (2 + mc ≤ weight d)%nat.
Proof. destruct d; simpl; lia. Qed.

Lemma weight_mono (d d' : nat) : (d ≤ d')%nat → (weight d ≤ weight d')%nat.
Proof.
  revert d. induction d' as [|d' IH]; intros d Hd.
  - replace d with 0%nat by lia. reflexivity.
  - destruct d as [|d]; [apply weight_min|].
    simpl. specialize (IH d ltac:(lia)). nia.
Qed.

Lemma stack_cost_app (q1 q2 : list solution) :
  stack_cost (q1 ++ q2) = (stack_cost q1 + stack_cost q2)%nat.
Proof.
  unfold stack_cost. induction q1 as [|s q1 IH]; [reflexivity|].
  rewrite <- app_comm_cons, !fmap_cons. simpl. simpl in IH. rewrite IH. lia.
Qed.

Lemma stack_cost_cons (s : solution) (q : list solution) :
  stack_cost (s :: q) = (weight (depth s) + stack_cost q)%nat.
Proof. reflexivity. Qed.

Lemma stack_cost_bound (q : list solution) (x : nat) :
  Forall (λ s, (weight (depth s) ≤ x)%nat) q →
  (stack_cost q ≤ length q * x)%nat.
Proof.
  induction 1 as [|s q Hs _ IH]; [reflexivity|].
  rewrite stack_cost_cons. simpl. lia.
Qed.

(** The children of a node cost less than the node. *)
Lemma children_cost (ub : Z) (s : solution) :
  valid s → is_final s = false →
  (stack_cost (get_next ub s) + 2 + mc ≤ weight (depth s))%nat.
Proof.
  intros Hs Hfin.
  pose proof (children_bound ub s Hs) as Hlen.
  assert (Forall (λ c, (depth c < depth s)%nat) (get_next ub s)) as Hch.
  { apply Forall_forall. intros c Hc. apply (valid_children ub s c Hs Hfin Hc). }
  destruct (depth s) as [|d] eqn:Hd.
  - destruct (get_next ub s) as [|c l]; [simpl; lia|].
    apply Forall_cons in Hch as [Hc _]. lia.
  - assert (stack_cost (get_next ub s) ≤ length (get_next ub s) * weight d)%nat
      as Hsum.
    { apply stack_cost_bound. eapply Forall_impl; [exact Hch|].
      intros c Hc. simpl in Hc. apply weight_mono. lia. }
    simpl. nia.
Qed.

(** *** Steps of a worker *)

Lemma main_step_wf (rank : nat) (w w' : worker) (evs : list event) :
  wf_worker w → main_step rank w = Some (w', evs) →
  wf_worker w' ∧ returned w' = returned w ∧
  (worker_cost w' < worker_cost w)%nat.
Proof.
  destruct w as [pc lis ub inbox bcasts out].
  intros (Hnodes & Hrecv & Hout & Htags & Hpc).
  unfold out_tags in Htags. simpl in Hnodes, Hrecv, Hout, Htags, Hpc.
  unfold worker_cost, main_cost, lis_cost, returned, wf_worker, out_tags.
  destruct pc as [|[|curr q]|curr q|curr q| | |]; simpl in *.
  - destruct (Hrecv eq_refl) as (m & -> & Hm).
    destruct (packed_receive m Hm) as (s & Hs & Hsol). rewrite Hsol. simpl.
    intros [= <- _]. simpl.
    pose proof (weight_min (depth s)).
    destruct (tag m =? INITIAL_NODE); simpl.
    + split; [|split; [reflexivity|]].
      * split; [repeat constructor; exact Hs|].
        split; [discriminate|]. repeat split; assumption.
      * unfold after_loop, stack_cost. simpl. destruct lis; lia.
    + split; [|split; [reflexivity|]].
      * split; [constructor|].
        split; [discriminate|]. repeat split; assumption.
      * unfold after_loop. destruct lis; lia.
  - intros [= <- _]. simpl. split; [|split; [reflexivity|]].
    + split; [constructor|]. split; [discriminate|]. repeat split; assumption.
    + unfold after_loop, stack_cost. simpl. lia.
  - intros [= <- _]. simpl.
    apply Forall_cons in Hnodes as [Hcurr Hq].
    pose proof (weight_min (depth curr)).
    rewrite stack_cost_cons.
    destruct (is_final curr) eqn:Hfin; simpl.
    + destruct (tot_colors curr <? ub); simpl.
      * split; [|split; [reflexivity|lia]].
        split; [constructor; assumption|].
        split; [discriminate|]. repeat split; assumption.
      * split; [|split; [reflexivity|lia]].
        split; [assumption|]. split; [discriminate|]. repeat split; assumption.
    + destruct (ub <=? tot_colors curr); simpl.
      * split; [|split; [reflexivity|lia]].
        split; [assumption|]. split; [discriminate|]. repeat split; assumption.
      * split; [|split; [reflexivity|lia]].
        split; [constructor; assumption|].
        split; [discriminate|]. repeat split; assumption.
  - intros [= <- _]. simpl.
    apply Forall_cons in Hnodes as [Hcurr Hq].
    pose proof (children_cost ub curr Hcurr Hpc).
    pose proof (weight_min (depth curr)).
    rewrite stack_cost_app.
    split; [|split; [reflexivity|lia]].
    split; [|split; [discriminate|repeat split; assumption]].
    apply Forall_app. split; [|exact Hq].
    apply Forall_forall. intros c Hc.
    apply (valid_children ub curr c Hcurr Hpc Hc).
  - apply Forall_cons in Hnodes as [Hcurr Hq].
    rewrite (valid_send curr Hcurr). simpl.
    intros [= <- _]. simpl.
    pose proof (weight_min (depth curr)).
    rewrite length_app. simpl.
    split; [|split; [reflexivity|lia]].
    split; [exact Hq|]. split; [discriminate|]. split; [|split; [|exact I]].
    + apply Forall_app. split; [exact Hout|]. repeat constructor.
      eapply packed_of_valid; [exact Hcurr|apply valid_send, Hcurr].
    + apply Forall_app. split; [exact Htags|]. repeat constructor.
  - rewrite (valid_send blank valid_blank). simpl.
    intros [= <- _]. simpl.
    rewrite length_app. simpl.
    split; [|split; [|lia]].
    + split; [constructor|]. split; [discriminate|]. split; [|split; [|exact I]].
      * apply Forall_app. split; [exact Hout|]. repeat constructor.
        eapply packed_of_valid; [exact valid_blank|apply valid_send, valid_blank].
      * right. eexists out, _. repeat split. exact Htags.
    + apply bool_decide_eq_false_2.
      intros Hnil. apply (f_equal length) in Hnil.
      rewrite length_app in Hnil. simpl in Hnil. lia.
  - intros [= <- _]. simpl.
    split; [|split; [reflexivity|lia]].
    split; [constructor|]. split; [discriminate|]. repeat split; assumption.
  - discriminate.
Qed.

Lemma listener_step_wf (rank : nat) (w w' : worker) (evs : list event) :
  wf_worker w → listener_step rank w = Some (w', evs) →
  wf_worker w' ∧ returned w' = returned w ∧
  (worker_cost w' < worker_cost w)%nat.
Proof.
  destruct w as [pc lis ub inbox bcasts out].
  intros Hwf. unfold worker_cost, main_cost, lis_cost. simpl.
  destruct lis as [| |v|v|]; simpl; try discriminate.
  - destruct bcasts as [|v bcasts']; [discriminate|].
    intros [= <- _]. simpl.
    split; [exact Hwf|]. split; [reflexivity|].
    destruct (v =? RETURN); lia.
  - intros [= <- _]. simpl.
    split; [exact Hwf|]. split; [reflexivity|].
    destruct (v <? ub); lia.
  - intros [= <- _]. simpl.
    split; [exact Hwf|]. split; [reflexivity|]. lia.
Qed.

Lemma take_out_wf (w w' : worker) (m : msg) :
  wf_worker w → take_out w = Some (m, w') →
  wf_worker w' ∧ packed m ∧
  (worker_cost w' + mc = worker_cost w)%nat ∧
  returned w = false ∧
  ((tag m = RETURN ∧ returned w' = true) ∨
   (tag m = SOLUTION_FROM_WORKER ∧ returned w' = false)).
Proof.
  destruct w as [pc lis ub inbox bcasts out].
  intros (Hnodes & Hrecv & Hout & Htags & Hpc).
  unfold take_out. destruct out as [|m0 out']; [discriminate|].
  intros [= <- <-].
  apply Forall_cons in Hout as [Hm Hout'].
  unfold wf_worker, worker_cost, main_cost, lis_cost, returned, out_tags in *.
  simpl in *.
  split; [|split; [exact Hm|split; [lia|]]].
  - split; [assumption|]. split; [assumption|]. split; [assumption|].
    split; [|assumption].
    destruct (done_main pc).
    + destruct Htags as [[=]|(ms & m & Heq & Hm0 & Hms)].
      destruct ms as [|m1 ms]; simpl in Heq; injection Heq as -> ->.
      * left. reflexivity.
      * right. apply Forall_cons in Hms as [_ Hms]. eexists ms, m. repeat split; assumption.
    + apply Forall_cons in Htags as [_ Htags]. exact Htags.
  - split; [rewrite andb_false_r; reflexivity|].
    destruct (done_main pc); simpl.
    + destruct Htags as [[=]|(ms & m & Heq & Hm0 & Hms)].
      destruct ms as [|m1 ms]; simpl in Heq; injection Heq as -> ->.
      * left. split; [exact Hm0|reflexivity].
      * right. apply Forall_cons in Hms as [Hm1 _]. split; [exact Hm1|].
        apply bool_decide_eq_false_2. intros Hnil.
        apply (f_equal length) in Hnil. rewrite length_app in Hnil. simpl in Hnil. lia.
    + right. apply Forall_cons in Htags as [Hm0 _]. split; [exact Hm0|reflexivity].
Qed.

Lemma deliver_bcast_wf (vs : list Z) (w : worker) :
  wf_worker w → wf_worker (deliver_bcast vs w).
Proof. destruct w. intros Hwf. exact Hwf. Qed.

Lemma deliver_bcast_returned (vs : list Z) (w : worker) :
  returned01 (deliver_bcast vs w) = (returned01 w + 0)%nat.
Proof. destruct w. unfold returned01, returned. simpl. lia. Qed.

Lemma deliver_bcast_cost (vs : list Z) (w : worker) :
  worker_cost (deliver_bcast vs w) = (worker_cost w + 3 * length vs)%nat.
Proof.
  destruct w. unfold worker_cost, main_cost, lis_cost. simpl.
  rewrite length_app. lia.
Qed.

End Progress.

Section GroupProgress.
Context `{NodeLaws}.

(** What a message to rank 0 can still cause in a group of [W] workers. *)
Definition msg_cost (W : nat) : nat := 1 + 3 * W.

(** The cost of a state of the group: an upper bound on the number of steps
    that can still be taken from it. *)
Definition group_cost (s : system) : nat :=
  let mc := msg_cost (length (workers s)) in
  total (worker_cost mc) (workers s) + (if c_finished (coord s) then 0 else mc).

Lemma coordinator_receive_facts (W : nat) (c c' : coordinator) (m : msg)
    (vs : list Z) (evs : list event) :
  coordinator_receive W c m = Some (c', vs, evs) →
  c_finished c = false ∧ c_finished c' = false ∧ (length vs ≤ 1)%nat ∧
  (worker_done c < W)%nat ∧
  worker_done c' = (worker_done c + if (tag m =? RETURN)%Z then 1 else 0)%nat.
Proof.
  destruct c as [ub done b fin]. simpl.
  destruct fin; [discriminate|]. simpl.
  destruct (done <? W)%nat eqn:Hlt; [|discriminate]. simpl.
  apply Nat.ltb_lt in Hlt.
  destruct (Wire.receive_solution dim (payload m)) as [nb|]; [|discriminate].
  simpl.
  destruct ((tag m =? SOLUTION_FROM_WORKER) && (tot_colors nb <? ub));
    intros [= <- <- _]; simpl; repeat split; try lia;
    destruct (tag m =? RETURN); lia.
Qed.

Lemma coordinator_finish_facts (W : nat) (c c' : coordinator)
    (vs : list Z) (evs : list event) :
  coordinator_finish W c = Some (c', vs, evs) →
  c_finished c = false ∧ c_finished c' = true ∧ length vs = 1%nat ∧
  (W ≤ worker_done c)%nat ∧ worker_done c' = worker_done c ∧
  c_ub c' = c_ub c ∧ best c' = best c.
Proof.
  destruct c as [ub done b fin]. simpl.
  destruct fin; [discriminate|]. simpl.
  destruct (done <? W)%nat eqn:Hlt; [discriminate|].
  apply Nat.ltb_ge in Hlt.
  intros [= <- <- _]. simpl. repeat split. exact Hlt.
Qed.

Lemma wf_workers_bcast (vs : list Z) (ws : list worker) :
  Forall wf_worker ws → Forall wf_worker (deliver_bcast vs <$> ws).
Proof.
  intros Hws. apply Forall_fmap. eapply Forall_impl; [exact Hws|].
  intros w Hw. apply deliver_bcast_wf, Hw.
Qed.

Lemma returned_bcast (vs : list Z) (ws : list worker) :
  total returned01 (deliver_bcast vs <$> ws) = total returned01 ws.
Proof.
  rewrite (total_fmap returned01 (deliver_bcast vs) 0).
  - lia.
  - intros w. apply deliver_bcast_returned.
Qed.

Lemma cost_bcast (mc : nat) (vs : list Z) (ws : list worker) :
  total (worker_cost mc) (deliver_bcast vs <$> ws)
  = (total (worker_cost mc) ws + 3 * length vs * length ws)%nat.
Proof.
  apply total_fmap. intros w. apply deliver_bcast_cost.
Qed.

(** Every step keeps the group well formed and lowers its cost. *)
Lemma sys_step_wf (a : sched) (s s' : system) (evs : list event) :
  wf_system s → sys_step a s = Some (s', evs) →
  wf_system s' ∧ (group_cost s' < group_cost s)%nat ∧
  length (workers s') = length (workers s).
Proof.
  destruct s as [c ws]. intros (Hws & Hdone & Hall). simpl in Hws, Hdone, Hall.
  unfold group_cost, wf_system. simpl.
  destruct a as [i|i|i|]; simpl.
  - destruct (ws !! i) as [w|] eqn:Hi; [|discriminate]. simpl.
    destruct (main_step (S i) w) as [[w' evs']|] eqn:Hstep; [|discriminate].
    simpl. intros [= <- _]. simpl.
    destruct (main_step_wf (msg_cost (length ws)) (S i) w w' evs'
                (proj1 (Forall_lookup _ _) Hws i w Hi) Hstep)
      as (Hw' & Hret & Hcost).
    rewrite length_insert.
    pose proof (total_insert returned01 ws i w w' Hi) as Hr.
    pose proof (total_insert (worker_cost (msg_cost (length ws))) ws i w w' Hi) as Hc.
    assert (returned01 w' = returned01 w) as Hr01
      by (unfold returned01; rewrite Hret; reflexivity).
    split; [split; [apply Forall_insert; assumption|split; [lia|exact Hall]]|].
    split; [lia|reflexivity].
  - destruct (ws !! i) as [w|] eqn:Hi; [|discriminate]. simpl.
    destruct (listener_step (S i) w) as [[w' evs']|] eqn:Hstep; [|discriminate].
    simpl. intros [= <- _]. simpl.
    destruct (listener_step_wf (msg_cost (length ws)) (S i) w w' evs'
                (proj1 (Forall_lookup _ _) Hws i w Hi) Hstep)
      as (Hw' & Hret & Hcost).
    rewrite length_insert.
    pose proof (total_insert returned01 ws i w w' Hi) as Hr.
    pose proof (total_insert (worker_cost (msg_cost (length ws))) ws i w w' Hi) as Hc.
    assert (returned01 w' = returned01 w) as Hr01
      by (unfold returned01; rewrite Hret; reflexivity).
    split; [split; [apply Forall_insert; assumption|split; [lia|exact Hall]]|].
    split; [lia|reflexivity].
  - destruct (ws !! i) as [w|] eqn:Hi; [|discriminate]. simpl.
    destruct (take_out w) as [[m w']|] eqn:Htake; [|discriminate]. simpl.
    destruct (coordinator_receive (length ws) c m) as [[[c' vs] evs']|] eqn:Hrecv;
      [|discriminate].
    simpl. intros [= <- _]. simpl.
    destruct (take_out_wf (msg_cost (length ws)) w w' m
                (proj1 (Forall_lookup _ _) Hws i w Hi) Htake)
      as (Hw' & Hm & Hcost & Hret & Hcase).
    destruct (coordinator_receive_facts _ _ _ _ _ _ Hrecv)
      as (Hfin & Hfin' & Hvs & Hlt & Hdone').
    rewrite length_fmap, length_insert, returned_bcast, cost_bcast, length_insert.
    pose proof (total_insert returned01 ws i w w' Hi) as Hr.
    pose proof (total_insert (worker_cost (msg_cost (length ws))) ws i w w' Hi) as Hc.
    rewrite Hfin, Hfin'. unfold msg_cost in *.
    split; [split; [apply wf_workers_bcast, Forall_insert; assumption|
                    split; [|discriminate]]|].
    + assert (returned01 w = 0%nat) as Hr0
        by (unfold returned01; rewrite Hret; reflexivity).
      destruct Hcase as [[Htag Hr']|[Htag Hr']]; rewrite Htag in Hdone'.
      * assert (returned01 w' = 1%nat) as Hr1
          by (unfold returned01; rewrite Hr'; reflexivity).
        rewrite Z.eqb_refl in Hdone'. lia.
      * assert (returned01 w' = 0%nat) as Hr1
          by (unfold returned01; rewrite Hr'; reflexivity).
        unfold SOLUTION_FROM_WORKER, RETURN in Hdone'. simpl in Hdone'. lia.
    + split; [nia|reflexivity].
  - destruct (coordinator_finish (length ws) c) as [[[c' vs] evs']|] eqn:Hfinish;
      [|discriminate].
    simpl. intros [= <- _]. simpl.
    destruct (coordinator_finish_facts _ _ _ _ _ Hfinish)
      as (Hfin & Hfin' & Hvs & Hle & Hdone' & _).
    rewrite length_fmap, returned_bcast, cost_bcast.
    rewrite Hfin, Hfin', Hvs. unfold msg_cost.
    pose proof (total_le_length returned01 ws returned01_le) as Hle'.
    split; [split; [apply wf_workers_bcast; assumption|split; [lia|intros _; lia]]|].
    split; [lia|reflexivity].
Qed.

(** A run of [length sch] steps costs at least that much. *)
Lemma exec_wf (sch : list sched) (s s' : system) (evs : list event) :
  wf_system s → exec sch s = Some (s', evs) →
  wf_system s' ∧ (length sch + group_cost s' ≤ group_cost s)%nat ∧
  length (workers s') = length (workers s).
Proof.
  revert s evs. induction sch as [|a sch IH]; intros s evs Hwf; simpl.
  - intros [= <- _]. split; [exact Hwf|]. split; [lia|reflexivity].
  - destruct (sys_step a s) as [[s1 evs1]|] eqn:Hstep; [|discriminate]. simpl.
    destruct (exec sch s1) as [[s2 evs2]|] eqn:Hexec; [|discriminate]. simpl.
    intros [= <- _].
    destruct (sys_step_wf a s s1 evs1 Hwf Hstep) as (Hwf1 & Hcost1 & Hlen1).
    destruct (IH s1 evs2 Hwf1 Hexec) as (Hwf2 & Hcost2 & Hlen2).
    split; [exact Hwf2|]. split; [lia|congruence].
Qed.

(** The main thread of a worker can take a step until it has joined. *)
Lemma main_step_enabled (rank : nat) (w : worker) :
  wf_worker w → joined (w_main w) = false → is_Some (main_step rank w).
Proof.
  destruct w as [pc lis ub inbox bcasts out].
  intros (Hnodes & Hrecv & Hout & Htags & Hpc). simpl in *.
  destruct pc as [|[|curr q]|curr q|curr q| | |]; simpl; intros Hj;
    try discriminate; try (eexists; reflexivity).
  - destruct (Hrecv eq_refl) as (m & -> & Hm).
    destruct (packed_receive m Hm) as (s & Hs & ->). eexists; reflexivity.
  - apply Forall_cons in Hnodes as [Hcurr _].
    rewrite (valid_send curr Hcurr). eexists; reflexivity.
  - rewrite (valid_send blank valid_blank). eexists; reflexivity.
Qed.

(** Before the final report, some step can always be taken: a main thread
    that has not joined can move; when all have joined, a message still on
    its way can be received; when none is left, the listener of rank 0
    leaves its loop. *)
Lemma group_progress (s : system) :
  wf_system s → c_finished (coord s) = false →
  ∃ a, is_Some (sys_step a s).
Proof.
  destruct s as [c ws]. intros (Hws & Hdone & _) Hfin. simpl in *.
  destruct (Forall_Exists_dec (λ w, joined (w_main w) = true)
              (λ w, joined (w_main w) = false)
              (λ w, match joined (w_main w) as b
                    return {b = true} + {b = false}
                    with true => left eq_refl | false => right eq_refl end) ws)
    as [Hall|Hex].
  - destruct (Forall_Exists_dec (λ w, w_out w = []) (λ w, w_out w ≠ [])
                (λ w, decide (w_out w = [])) ws) as [Hempty|Hmsg].
    + exists Finish. simpl.
      assert (total returned01 ws = length ws) as Hcount.
      { apply total_all. apply Forall_forall. intros w Hw.
        rewrite Forall_forall in Hall, Hempty.
        specialize (Hall w Hw). specialize (Hempty w Hw).
        unfold returned01, returned. rewrite Hempty.
        destruct (w_main w); try discriminate. reflexivity. }
      destruct c as [ub done b fin]. simpl in *. subst fin.
      rewrite Hdone, Hcount, Nat.ltb_irrefl. simpl. eexists; reflexivity.
    + apply Exists_exists in Hmsg as (w & Hw & Hout).
      apply list_elem_of_lookup in Hw as [i Hi].
      exists (Deliver i). simpl. rewrite Hi. simpl.
      destruct w as [pc lis ub inbox bcasts out]. simpl in Hout.
      destruct out as [|m out']; [congruence|]. simpl.
      pose proof (proj1 (Forall_lookup _ _) Hws i _ Hi) as (_ & _ & Hpacked & _).
      simpl in Hpacked. apply Forall_cons in Hpacked as [Hm _].
      destruct (packed_receive m Hm) as (nb & _ & Hnb).
      assert (total returned01 ws < length ws)%nat as Hlt.
      { eapply total_lt_length; [apply returned01_le|exact Hi|].
        unfold returned01, returned. simpl.
        rewrite andb_false_r. reflexivity. }
      destruct c as [cub done b fin]. simpl in *. subst fin.
      rewrite Hnb. simpl.
      destruct (done <? length ws)%nat eqn:Hd;
        [|apply Nat.ltb_ge in Hd; lia].
      simpl.
      destruct ((tag m =? SOLUTION_FROM_WORKER) && (tot_colors nb <? cub));
        eexists; reflexivity.
  - apply Exists_exists in Hex as (w & Hw & Hj).
    apply list_elem_of_lookup in Hw as [i Hi].
    exists (RunMain i). simpl. rewrite Hi. simpl.
    destruct (main_step_enabled (S i) w (proj1 (Forall_lookup _ _) Hws i w Hi) Hj)
      as [[w' evs] ->].
    eexists; reflexivity.
Qed.

End GroupProgress.

(** ** The group right after the dispatch *)

Section Dispatch.
Context `{NodeLaws}.

Lemma seed_body_valid (W : nat) (curr : solution) (rest : list solution)
    (ub : Z) (b : solution) :
  Forall valid (curr :: rest) →
  Forall valid (initial_q (seed_body W curr rest ub b).1.2).
Proof.
  intros Hq. apply Forall_cons in Hq as [Hcurr Hrest]. unfold seed_body.
  destruct (is_final curr) eqn:Hfin; simpl.
  - destruct (tot_colors curr <? ub); exact Hrest.
  - destruct (ub <=? tot_colors curr); simpl; [exact Hrest|].
    destruct (length rest + length (get_next ub curr) <=? W)%nat; simpl.
    + apply Forall_app. split; [exact Hrest|].
      apply Forall_forall. intros c Hc.
      apply (valid_children ub curr c Hcurr Hfin Hc).
    + apply Forall_app. split; [exact Hrest|]. repeat constructor. exact Hcurr.
Qed.

Lemma seed_loop_valid (fuel W : nat) (st st' : seed) (evs : list event) :
  Forall valid (initial_q st) →
  seed_loop fuel W st = Some (st', evs) →
  Forall valid (initial_q st').
Proof.
  revert st st' evs. induction fuel as [|fuel IH]; intros st st' evs Hq; simpl;
    [discriminate|].
  destruct (initial_q st) as [|curr rest] eqn:Hst.
  { intros [= <- _]. rewrite Hst. constructor. }
  pose proof (seed_body_valid W curr rest (s_ub st) (best_so_far st) Hq) as Hbody.
  destruct (seed_body W curr rest (s_ub st) (best_so_far st)) as [[fl st1] evs1].
  simpl in Hbody. destruct fl.
  - destruct (seed_loop fuel W st1) as [[st2 evs2]|] eqn:Hloop; [|discriminate].
    simpl. intros [= <- _]. eapply IH; eassumption.
  - intros [= <- _]. exact Hbody.
Qed.

Lemma dispatch_packed (W : nat) (q : list solution) (first : list msg) :
  Forall valid q → dispatch W q = Some first →
  length first = W ∧ Forall packed first ∧
  Forall (λ m, tag m = INITIAL_NODE ∨ tag m = 0) first.
Proof.
  intros Hq. unfold dispatch.
  destruct (mapM (Wire.send_solution dim) q) as [nodes|] eqn:Hnodes; [|discriminate].
  simpl. rewrite (valid_send blank valid_blank). simpl.
  destruct (decide (length nodes ≤ W)%nat) as [Hle|]; [|discriminate].
  intros [= <-]. apply mapM_Some in Hnodes.
  split; [rewrite length_app, length_fmap, length_replicate; lia|]. split.
  - apply Forall_app. split.
    + apply Forall_fmap. clear Hle.
      induction Hnodes as [|s b q' bs Hsb _ IH]; [constructor|].
      apply Forall_cons in Hq as [Hs Hq']. constructor; [|apply IH, Hq'].
      eapply packed_of_valid; eassumption.
    + apply Forall_replicate.
      eapply packed_of_valid; [exact valid_blank|apply valid_send, valid_blank].
  - apply Forall_app. split.
    + apply Forall_fmap, Forall_forall. intros b _. left. reflexivity.
    + apply Forall_replicate. right. reflexivity.
Qed.

Lemma total_receiving (f : worker → nat) (first : list msg) :
  (∀ m, f (Worker WReceive LNone initial_ub [m] [] []) = 0%nat) →
  total f ((λ m, Worker WReceive LNone initial_ub [m] [] []) <$> first) = 0%nat.
Proof.
  intros Hf. induction first as [|m first IH]; [reflexivity|].
  rewrite fmap_cons, total_cons, Hf, IH. reflexivity.
Qed.

(** The group the dispatch leaves behind is well formed and has one worker
    per rank, each with its one initial message. *)
Lemma init_system_wf (fuel W : nat) (st : seed) (first : list msg)
    (evs : list event) :
  coordinator_main fuel W = Some (Dispatched first, st, evs) →
  wf_system (init_system st first) ∧ length first = W ∧
  Forall (λ m, tag m = INITIAL_NODE ∨ tag m = 0) first.
Proof.
  unfold coordinator_main.
  destruct (seed_loop fuel W seed_init) as [[st0 evs0]|] eqn:Hloop; [|discriminate].
  simpl.
  assert (Forall valid (initial_q st0)) as Hq.
  { eapply seed_loop_valid; [|exact Hloop]. repeat constructor. exact valid_blank. }
  destruct (initial_q st0) as [|s q] eqn:Hst0; [discriminate|].
  destruct (dispatch W (s :: q)) as [first0|] eqn:Hdisp; [|discriminate].
  simpl. intros [= <- <- _].
  destruct (dispatch_packed W (s :: q) first0 Hq Hdisp) as (Hlen & Hpacked & Htags).
  split; [|split; assumption].
  unfold init_system, wf_system. simpl. split; [|split; [|discriminate]].
  - apply Forall_fmap. eapply Forall_impl; [exact Hpacked|].
    intros m Hm. unfold wf_worker, out_tags. simpl.
    split; [constructor|]. split; [intros _; exists m; split; [reflexivity|exact Hm]|].
    split; [constructor|]. split; [constructor|exact I].
  - symmetry. apply total_receiving. intros m. reflexivity.
Qed.

End Dispatch.

(** ** Counting the messages of a worker *)

Definition is_return_from (rank : nat) (e : event) : bool :=
  match e with
  | EvSend src dst m => (src =? rank)%nat && (dst =? 0)%nat && (tag m =? RETURN)
  | _ => false
  end.

Definition is_barrier_of (rank : nat) (e : event) : bool :=
  match e with
  | EvBarrier r => (r =? rank)%nat
  | _ => false
  end.

(** The number of events of the trace that satisfy [p]. *)
Definition count (p : event → bool) (evs : list event) : nat :=
  length (List.filter p evs).

Lemma count_app (p : event → bool) (evs1 evs2 : list event) :
  count p (evs1 ++ evs2) = (count p evs1 + count p evs2)%nat.
Proof. unfold count. rewrite List.filter_app, length_app. reflexivity. Qed.

Lemma count_cons (p : event → bool) (e : event) (evs : list event) :
  count p (e :: evs) = ((if p e then 1 else 0) + count p evs)%nat.
Proof. unfold count. simpl. destruct (p e); reflexivity. Qed.

Lemma count_nil (p : event → bool) : count p [] = 0%nat.
Proof. reflexivity. Qed.

Section Counting.
Context `{NodeOps}.

Definition done01 (pc : wmain) : nat := if done_main pc then 1 else 0.
Definition joined01 (pc : wmain) : nat := if joined pc then 1 else 0.

Lemma main_step_counts (rank r : nat) (w w' : worker) (evs : list event) :
  main_step rank w = Some (w', evs) →
  if decide (r = rank) then
    (count (is_return_from r) evs + done01 (w_main w) = done01 (w_main w'))%nat ∧
    (count (is_barrier_of r) evs + joined01 (w_main w) = joined01 (w_main w'))%nat
  else
    count (is_return_from r) evs = 0%nat ∧ count (is_barrier_of r) evs = 0%nat.
Proof.
  destruct w as [pc lis ub inbox bcasts out]. simpl.
  assert (∀ m : msg, tag m = SOLUTION_FROM_WORKER →
            is_return_from r (EvSend rank 0 m) = false) as Himp.
  { intros m Hm. simpl. rewrite Hm. apply andb_false_r. }
  destruct pc as [|[|curr q]|curr q|curr q| | |]; simpl.
  - destruct inbox as [|m inbox']; [discriminate|].
    destruct (Wire.receive_solution dim (payload m)); [|discriminate]. simpl.
    intros [= <- <-]. simpl.
    destruct (tag m =? INITIAL_NODE); case_decide; split; reflexivity.
  - intros [= <- <-]. case_decide; split; reflexivity.
  - intros [= <- <-]. simpl.
    destruct (is_final curr); simpl;
      [destruct (tot_colors curr <? ub)|destruct (ub <=? tot_colors curr)];
      case_decide; split; reflexivity.
  - intros [= <- <-]. case_decide; split; reflexivity.
  - destruct (Wire.send_solution dim curr); [|discriminate]. simpl.
    intros [= <- <-]. rewrite !count_cons, !count_nil, Himp by reflexivity.
    case_decide; split; reflexivity.
  - destruct (Wire.send_solution dim blank); [|discriminate]. simpl.
    intros [= <- <-]. rewrite !count_cons, !count_nil. simpl.
    rewrite andb_true_r, andb_true_r.
    case_decide as Hr.
    + subst r. rewrite Nat.eqb_refl. split; reflexivity.
    + rewrite (proj2 (Nat.eqb_neq rank r)) by congruence. split; reflexivity.
  - intros [= <- <-]. rewrite !count_cons, !count_nil. simpl.
    case_decide as Hr.
    + subst r. rewrite Nat.eqb_refl. split; reflexivity.
    + rewrite (proj2 (Nat.eqb_neq rank r)) by congruence. split; reflexivity.
  - discriminate.
Qed.

Lemma listener_step_counts (rank : nat) (w w' : worker) (evs : list event)
    (p : event → bool) :
  (∀ r t v, p (EvRead r t v) = false) →
  (∀ r t o v, p (EvWrite r t o v) = false) →
  listener_step rank w = Some (w', evs) →
  w_main w' = w_main w ∧ count p evs = 0%nat.
Proof.
  intros Hrd Hwr. destruct w as [pc lis ub inbox bcasts out]. simpl.
  destruct lis as [| |v|v|]; simpl; try discriminate.
  - destruct bcasts; [discriminate|]. intros [= <- <-]. split; reflexivity.
  - intros [= <- <-]. rewrite count_cons, count_nil, Hrd. split; reflexivity.
  - intros [= <- <-]. rewrite count_cons, count_nil, Hwr. split; reflexivity.
Qed.

Lemma coordinator_counts (W : nat) (c c' : coordinator) (m : msg)
    (vs : list Z) (evs : list event) (p : event → bool) :
  (∀ r t v, p (EvRead r t v) = false) →
  (∀ r t o v, p (EvWrite r t o v) = false) →
  (∀ r s, p (EvPrint r s) = false) →
  (∀ v, p (EvBcast v) = false) →
  coordinator_receive W c m = Some (c', vs, evs) ∨
  coordinator_finish W c = Some (c', vs, evs) →
  count p evs = 0%nat.
Proof.
  intros Hrd Hwr Hpr Hbc. destruct c as [ub done b fin]. simpl.
  intros [Hrecv|Hfin].
  - destruct (fin || negb (done <? W)%nat); [discriminate|].
    destruct (Wire.receive_solution dim (payload m)) as [nb|]; [|discriminate].
    simpl in Hrecv.
    destruct (tag m =? SOLUTION_FROM_WORKER); simpl in Hrecv.
    + destruct (tot_colors nb <? ub); injection Hrecv as _ _ <-;
        rewrite ?count_cons, ?count_nil, ?Hrd, ?Hwr, ?Hpr, ?Hbc; reflexivity.
    + injection Hrecv as _ _ <-. reflexivity.
  - destruct (fin || (done <? W)%nat); [discriminate|].
    injection Hfin as _ _ <-. rewrite !count_cons, count_nil, Hbc, Hpr. reflexivity.
Qed.

(** Where the main thread of worker [i] stands, as a number. *)
Definition sent_return (s : system) (i : nat) : nat :=
  from_option (λ w, done01 (w_main w)) 0%nat (workers s !! i).

Definition entered_barrier (s : system) (i : nat) : nat :=
  from_option (λ w, joined01 (w_main w)) 0%nat (workers s !! i).

Lemma deliver_bcast_main (vs : list Z) (w : worker) :
  w_main (deliver_bcast vs w) = w_main w.
Proof. destruct w. reflexivity. Qed.

Lemma take_out_main (w w' : worker) (m : msg) :
  take_out w = Some (m, w') → w_main w' = w_main w.
Proof.
  destruct w as [pc lis ub inbox bcasts out]. simpl.
  destruct out; [discriminate|]. intros [= _ <-]. reflexivity.
Qed.

Lemma lookup_main_insert (ws : list worker) (i j : nat) (w w' : worker)
    (f : wmain → nat) :
  ws !! i = Some w → w_main w' = w_main w →
  from_option (λ w, f (w_main w)) 0%nat (<[i := w']> ws !! j)
  = from_option (λ w, f (w_main w)) 0%nat (ws !! j).
Proof.
  intros Hi Hmain. destruct (decide (i = j)) as [<-|Hij].
  - rewrite list_lookup_insert_eq by (eapply lookup_lt_Some, Hi).
    rewrite Hi. simpl. rewrite Hmain. reflexivity.
  - rewrite list_lookup_insert_ne by exact Hij. reflexivity.
Qed.

Lemma lookup_main_bcast (ws : list worker) (j : nat) (vs : list Z)
    (f : wmain → nat) :
  from_option (λ w, f (w_main w)) 0%nat ((deliver_bcast vs <$> ws) !! j)
  = from_option (λ w, f (w_main w)) 0%nat (ws !! j).
Proof.
  rewrite list_lookup_fmap. destruct (ws !! j) as [w|]; [|reflexivity].
  simpl. rewrite deliver_bcast_main. reflexivity.
Qed.

Lemma sys_step_counts (a : sched) (s s' : system) (evs : list event) (i : nat) :
  sys_step a s = Some (s', evs) →
  (count (is_return_from (S i)) evs + sent_return s i = sent_return s' i)%nat ∧
  (count (is_barrier_of (S i)) evs + entered_barrier s i = entered_barrier s' i)%nat.
Proof.
  destruct s as [c ws]. unfold sent_return, entered_barrier.
  destruct a as [j|j|j|]; simpl.
  - destruct (ws !! j) as [w|] eqn:Hj; [|discriminate]. simpl.
    destruct (main_step (S j) w) as [[w' evs']|] eqn:Hstep; [|discriminate].
    simpl. intros [= <- <-]. simpl.
    pose proof (main_step_counts (S j) (S i) w w' evs' Hstep) as Hc.
    destruct (decide (j = i)) as [->|Hji].
    + rewrite decide_True in Hc by reflexivity.
      rewrite list_lookup_insert_eq by (eapply lookup_lt_Some, Hj).
      rewrite Hj. simpl. exact Hc.
    + rewrite decide_False in Hc by congruence.
      rewrite list_lookup_insert_ne by exact Hji.
      destruct Hc as [-> ->]. split; reflexivity.
  - destruct (ws !! j) as [w|] eqn:Hj; [|discriminate]. simpl.
    destruct (listener_step (S j) w) as [[w' evs']|] eqn:Hstep; [|discriminate].
    simpl. intros [= <- <-]. simpl.
    destruct (listener_step_counts (S j) w w' evs' (is_return_from (S i))
                ltac:(reflexivity) ltac:(reflexivity) Hstep) as [Hmain ->].
    destruct (listener_step_counts (S j) w w' evs' (is_barrier_of (S i))
                ltac:(reflexivity) ltac:(reflexivity) Hstep) as [_ ->].
    rewrite (lookup_main_insert ws j i w w' done01 Hj Hmain).
    rewrite (lookup_main_insert ws j i w w' joined01 Hj Hmain).
    split; reflexivity.
  - destruct (ws !! j) as [w|] eqn:Hj; [|discriminate]. simpl.
    destruct (take_out w) as [[m w']|] eqn:Htake; [|discriminate]. simpl.
    destruct (coordinator_receive (length ws) c m) as [[[c' vs] evs']|] eqn:Hrecv;
      [|discriminate].
    simpl. intros [= <- <-]. simpl.
    rewrite (coordinator_counts _ _ _ _ _ _ (is_return_from (S i))
               ltac:(reflexivity) ltac:(reflexivity) ltac:(reflexivity)
               ltac:(reflexivity) (or_introl Hrecv)).
    rewrite (coordinator_counts _ _ _ _ _ _ (is_barrier_of (S i))
               ltac:(reflexivity) ltac:(reflexivity) ltac:(reflexivity)
               ltac:(reflexivity) (or_introl Hrecv)).
    rewrite !lookup_main_bcast.
    rewrite (lookup_main_insert ws j i w w' done01 Hj (take_out_main _ _ _ Htake)).
    rewrite (lookup_main_insert ws j i w w' joined01 Hj (take_out_main _ _ _ Htake)).
    split; reflexivity.
  - destruct (coordinator_finish (length ws) c) as [[[c' vs] evs']|] eqn:Hfin;
      [|discriminate].
    simpl. intros [= <- <-]. simpl.
    rewrite (coordinator_counts _ _ _ (Msg 0 []) _ _ (is_return_from (S i))
               ltac:(reflexivity) ltac:(reflexivity) ltac:(reflexivity)
               ltac:(reflexivity) (or_intror Hfin)).
    rewrite (coordinator_counts _ _ _ (Msg 0 []) _ _ (is_barrier_of (S i))
               ltac:(reflexivity) ltac:(reflexivity) ltac:(reflexivity)
               ltac:(reflexivity) (or_intror Hfin)).
    rewrite !lookup_main_bcast. split; reflexivity.
Qed.

Lemma exec_counts (sch : list sched) (s s' : system) (evs : list event) (i : nat) :
  exec sch s = Some (s', evs) →
  (count (is_return_from (S i)) evs + sent_return s i = sent_return s' i)%nat ∧
  (count (is_barrier_of (S i)) evs + entered_barrier s i = entered_barrier s' i)%nat.
Proof.
  revert s evs. induction sch as [|a sch IH]; intros s evs; simpl.
  - intros [= <- <-]. split; reflexivity.
  - destruct (sys_step a s) as [[s1 evs1]|] eqn:Hstep; [|discriminate]. simpl.
    destruct (exec sch s1) as [[s2 evs2]|] eqn:Hexec; [|discriminate]. simpl.
    intros [= <- <-].
    destruct (sys_step_counts a s s1 evs1 i Hstep) as [H1 H2].
    destruct (IH s1 evs2 Hexec) as [H3 H4].
    rewrite !count_app. lia.
Qed.

End Counting.

(** ** Termination messages *)

Section Returns.
Context `{NodeLaws}.

Lemma init_system_receiving (st : seed) (first : list msg) (i : nat) :
  sent_return (init_system st first) i = 0%nat ∧
  entered_barrier (init_system st first) i = 0%nat.
Proof.
  unfold sent_return, entered_barrier, init_system. simpl.
  rewrite list_lookup_fmap. destruct (first !! i); split; reflexivity.
Qed.

(** C7: in every run, whatever the schedule, and whether its initial message
    carried the tag [INITIAL_NODE] or the tag [0], a worker has sent no
    [RETURN] message while its main thread is before line 287 and exactly one
    from then on, in particular when it enters the barrier; its main thread
    can always take its next step until it has joined, and the whole run is
    bounded; when the listener of rank 0 has left its loop it has counted
    [W] terminations, one per worker. *)
Theorem every_worker_returns_once (fuel W : nat) (st : seed) (first : list msg)
    (evs0 : list event) (sch : list sched) (s : system) (evs : list event) :
  coordinator_main fuel W = Some (Dispatched first, st, evs0) →
  exec sch (init_system st first) = Some (s, evs) →
  length (workers s) = W ∧
  Forall (λ m, tag m = INITIAL_NODE ∨ tag m = 0) first ∧
  (∀ i w, workers s !! i = Some w →
     count (is_return_from (S i)) evs = done01 (w_main w) ∧
     count (is_barrier_of (S i)) evs = joined01 (w_main w) ∧
     (joined (w_main w) = false → is_Some (sys_step (RunMain i) s))) ∧
  (length sch + group_cost s ≤ group_cost (init_system st first))%nat ∧
  (c_finished (coord s) = true →
     worker_done (coord s) = W ∧
     ∀ i w, workers s !! i = Some w →
       count (is_return_from (S i)) evs = 1%nat ∧ w_out w = []).
Proof.
  intros Hmain Hexec.
  destruct (init_system_wf fuel W st first evs0 Hmain) as (Hwf0 & Hlen0 & Htags).
  destruct (exec_wf sch _ s evs Hwf0 Hexec) as (Hwf & Hcost & Hlen).
  assert (length (workers s) = W) as HW.
  { rewrite Hlen. unfold init_system. simpl. rewrite length_fmap. exact Hlen0. }
  assert (∀ i w, workers s !! i = Some w →
            count (is_return_from (S i)) evs = done01 (w_main w) ∧
            count (is_barrier_of (S i)) evs = joined01 (w_main w)) as Hcount.
  { intros i w Hi.
    destruct (exec_counts sch _ s evs i Hexec) as [Hr Hb].
    destruct (init_system_receiving st first i) as [Hr0 Hb0].
    rewrite Hr0 in Hr. rewrite Hb0 in Hb.
    unfold sent_return in Hr. unfold entered_barrier in Hb.
    rewrite Hi in Hr, Hb. simpl in Hr, Hb. lia. }
  split; [exact HW|]. split; [exact Htags|]. split; [|split; [exact Hcost|]].
  - intros i w Hi. destruct (Hcount i w Hi) as [Hr Hb].
    split; [exact Hr|]. split; [exact Hb|].
    intros Hj. simpl. rewrite Hi. simpl.
    destruct Hwf as (Hws & _).
    destruct (main_step_enabled (S i) w (proj1 (Forall_lookup _ _) Hws i w Hi) Hj)
      as [[w' evs'] ->].
    eexists; reflexivity.
  - intros Hfin. destruct Hwf as (Hws & Hdone & Hall).
    specialize (Hall Hfin). split; [congruence|].
    intros i w Hi.
    assert (returned01 w = 1%nat) as Hret.
    { assert (Forall (λ w, returned01 w = 1%nat) (workers s)) as Hone.
      { apply total_all_inv; [apply returned01_le|congruence]. }
      exact (proj1 (Forall_lookup _ _) Hone i w Hi). }
    unfold returned01, returned in Hret.
    destruct (done_main (w_main w)) eqn:Hd; [|discriminate].
    destruct (bool_decide (w_out w = [])) eqn:Ho; [|discriminate].
    apply bool_decide_eq_true_1 in Ho.
    destruct (Hcount i w Hi) as [Hr _]. rewrite Hr. unfold done01. rewrite Hd.
    split; [reflexivity|exact Ho].
Qed.

End Returns.

(** ** The branching rule, seen on the list of colours assigned so far *)

Section SearchFacts.
Variable n : nat.
Variable g : Graph.matrix.

(** The largest colour in use; [0] when no vertex is coloured. *)
Definition maxcol (a : list Z) : Z := foldr Z.max 0 a.

(** The node whose vertices [0 .. length a - 1] carry the colours [a]. *)
Definition mk_node (a : list Z) : solution :=
  {| color := a ++ replicate (n - length a) 0;
     tot_colors := maxcol a;
     next := Z.of_nat (length a) |}.

(** Colour [x] is used by an earlier neighbour of the next vertex. *)
Definition clash (a : list Z) (x : Z) : bool :=
  existsb (λ j, Graph.adj g (length a) j && (default 0 (a !! j) =? x))
          (seq 0 (length a)).

(** The lists of colours the branching rule can reach when no bound cuts a
    fresh colour: each vertex takes a colour already in use that none of its
    earlier neighbours has, or the first unused colour. *)
Inductive node_path : list Z → Prop :=
| path_nil : node_path []
| path_snoc (a : list Z) (x : Z) :
    node_path a → 1 ≤ x ≤ maxcol a + 1 → clash a x = false →
    node_path (a ++ [x]).

Lemma maxcol_nonneg (a : list Z) : 0 ≤ maxcol a.
Proof. induction a as [|x a IH]; simpl; lia. Qed.

Lemma maxcol_app (a b : list Z) : maxcol (a ++ b) = Z.max (maxcol a) (maxcol b).
Proof.
  induction a as [|x a IH]; simpl.
  - pose proof (maxcol_nonneg b). lia.
  - fold (maxcol (a ++ b)). fold (maxcol a). lia.
Qed.

Lemma maxcol_snoc (a : list Z) (x : Z) : maxcol (a ++ [x]) = Z.max (maxcol a) x.
Proof. rewrite maxcol_app. simpl. pose proof (maxcol_nonneg a). lia. Qed.

Lemma maxcol_elem (a : list Z) (x : Z) : x ∈ a → x ≤ maxcol a.
Proof.
  induction a as [|y a IH]; [intros Hx; inversion Hx|].
  rewrite elem_of_cons. simpl. fold (maxcol a). intros [->|Hx]; [lia|].
  specialize (IH Hx). lia.
Qed.

Lemma maxcol_prefix (a c : list Z) : a `prefix_of` c → maxcol a ≤ maxcol c.
Proof. intros [b ->]. rewrite maxcol_app. lia. Qed.

(** Colours on a path are in [1 .. maxcol], and there are at most as many
    colours as coloured vertices. *)
Lemma node_path_colors (a : list Z) :
  node_path a → Forall (λ x, 1 ≤ x ≤ maxcol a) a ∧ maxcol a ≤ Z.of_nat (length a).
Proof.
  induction 1 as [|a x _ [IHc IHm] Hx _]; [split; [constructor|simpl; lia]|].
  rewrite maxcol_snoc, length_app. simpl. split; [|lia].
  apply Forall_app. split.
  - eapply Forall_impl; [exact IHc|]. simpl. intros y Hy. lia.
  - repeat constructor; lia.
Qed.

Lemma clash_false (a : list Z) (x : Z) (j : nat) :
  clash a x = false → (j < length a)%nat →
  Graph.adj g (length a) j = true → a !! j ≠ Some x.
Proof.
  unfold clash. intros Hclash Hj Hadj Hx.
  assert (existsb (λ j, Graph.adj g (length a) j && (default 0 (a !! j) =? x))
            (seq 0 (length a)) = true) as Htrue; [|congruence].
  apply existsb_exists. exists j. split.
  - apply in_seq. lia.
  - rewrite Hadj, Hx. simpl. apply Z.eqb_refl.
Qed.

Lemma clash_false_intro (a : list Z) (x : Z) :
  (∀ j, (j < length a)%nat → Graph.adj g (length a) j = true → a !! j ≠ Some x) →
  clash a x = false.
Proof.
  intros Hno. unfold clash.
  destruct (existsb _ _) eqn:Hex; [|reflexivity].
  apply existsb_exists in Hex as (j & Hj & Hjx).
  apply in_seq in Hj. apply andb_true_iff in Hjx as [Hadj Heq].
  apply Z.eqb_eq in Heq.
  destruct (a !! j) as [y|] eqn:Hy.
  - simpl in Heq. subst y. exfalso. apply (Hno j); [lia|exact Hadj|exact Hy].
  - apply lookup_ge_None in Hy. lia.
Qed.

(** No vertex on a path has the colour of an earlier neighbour. *)
Lemma node_path_proper (a : list Z) :
  node_path a →
  ∀ i j x, (j < i)%nat → Graph.adj g i j = true →
    a !! i = Some x → a !! j ≠ Some x.
Proof.
  induction 1 as [|a x _ IH Hx Hclash]; intros i j y Hji Hadj Hi.
  { discriminate. }
  pose proof (lookup_lt_Some _ _ _ Hi) as Hlt.
  rewrite length_app in Hlt. simpl in Hlt.
  destruct (decide (i = length a)) as [->|Hne].
  - rewrite lookup_app_r in Hi by lia. rewrite Nat.sub_diag in Hi.
    injection Hi as <-. rewrite lookup_app_l by lia.
    apply clash_false; assumption.
  - rewrite lookup_app_l in Hi by lia. rewrite lookup_app_l by lia.
    eapply IH; eassumption.
Qed.

Lemma node_path_prefix (a b : list Z) : node_path (a ++ b) → node_path a.
Proof.
  revert a. induction b as [|x b IH] using rev_ind; intros a.
  - rewrite app_nil_r. trivial.
  - rewrite app_assoc. intros Hpath. apply IH.
    inversion Hpath as [Hnil|a' x' Ha' Hx' Hc' Heq].
    + destruct (a ++ b); discriminate.
    + apply app_inj_tail in Heq as [<- _]. exact Ha'.
Qed.

(** The first unused colour clashes with nothing. *)
Lemma clash_fresh (a : list Z) : clash a (maxcol a + 1) = false.
Proof.
  apply clash_false_intro. intros j _ _ Hj.
  apply list_elem_of_lookup_2, maxcol_elem in Hj. lia.
Qed.

(** *** The modelled operations on [mk_node] *)

Lemma existsb_ext_in {A : Type} (f h : A → bool) (l : list A) :
  (∀ x, In x l → f x = h x) → existsb f l = existsb h l.
Proof.
  induction l as [|x l IH]; intros Hfh; [reflexivity|]. simpl.
  rewrite (Hfh x (or_introl eq_refl)), IH; [reflexivity|].
  intros y Hy. apply Hfh. right. exact Hy.
Qed.

Lemma forbidden_mk (a : list Z) (x : Z) :
  Search.forbidden g (mk_node a) x = clash a x.
Proof.
  unfold Search.forbidden, clash, mk_node. simpl. rewrite Nat2Z.id.
  apply existsb_ext_in. intros j Hj. apply in_seq in Hj.
  rewrite lookup_app_l by lia. reflexivity.
Qed.

Lemma child_mk (a : list Z) (x : Z) :
  (length a < n)%nat →
  Search.child (mk_node a) x (maxcol (a ++ [x])) = mk_node (a ++ [x]).
Proof.
  intros Hlen. unfold Search.child, mk_node. simpl. rewrite Nat2Z.id.
  rewrite length_app. simpl. f_equal; [|lia].
  rewrite insert_app_r_alt by lia. rewrite Nat.sub_diag.
  replace (n - length a)%nat with (S (n - (length a + 1))) by lia.
  simpl. rewrite <- app_assoc. reflexivity.
Qed.

Lemma final_mk (a : list Z) :
  Search.final n (mk_node a) = bool_decide (length a = n).
Proof.
  unfold Search.final, mk_node. simpl.
  destruct (Z.eqb_spec (Z.of_nat (length a)) (Z.of_nat n)) as [Heq|Hne].
  - rewrite bool_decide_eq_true_2 by lia. reflexivity.
  - rewrite bool_decide_eq_false_2 by lia. reflexivity.
Qed.

(** The children of a node that is not final: one per colour in use that
    does not clash, in ascending order, then the first unused colour when it
    is below the bound. *)
Lemma expand_mk (ub : Z) (a : list Z) :
  (length a < n)%nat →
  Search.expand g ub (mk_node a)
  = ((λ x, mk_node (a ++ [x])) <$>
       filter (λ x, clash a x = false) (seqZ 1 (maxcol a)))
    ++ (if decide (maxcol a + 1 ≤ ub - 1)
        then [mk_node (a ++ [maxcol a + 1])] else []).
Proof.
  intros Hlen. unfold Search.expand.
  change (tot_colors (mk_node a)) with (maxcol a).
  f_equal.
  - rewrite (list_filter_iff _ (λ x, clash a x = false)).
    2:{ intros x. rewrite forbidden_mk. reflexivity. }
    apply list_fmap_ext. intros i x Hx.
    apply list_elem_of_lookup_2, list_elem_of_filter in Hx as [_ Hx].
    apply elem_of_seqZ in Hx.
    rewrite <- child_mk by exact Hlen. rewrite maxcol_snoc.
    f_equal. lia.
  - case_decide; [|reflexivity]. f_equal.
    rewrite <- child_mk by exact Hlen. rewrite maxcol_snoc.
    f_equal. pose proof (maxcol_nonneg a). lia.
Qed.

End SearchFacts.

(** ** The modelled search node satisfies the engine's contract *)

Section SearchLaws.
Variable n : nat.
Variable g : Graph.matrix.
Hypothesis n_fits : Z.of_nat n + 1 < UINT_MOD.

(** The nodes of the search tree: paths of at most [n] vertices. *)
Definition valid_node (s : solution) : Prop :=
  ∃ a, node_path g a ∧ (length a ≤ n)%nat ∧ s = mk_node n a.

(** The number of vertices still to colour. *)
Definition search_depth (s : solution) : nat := n - Z.to_nat (next s).

Lemma valid_node_empty : valid_node (Search.empty n).
Proof.
  exists []. split; [constructor|]. split; [simpl; lia|].
  unfold Search.empty, mk_node. simpl. rewrite Nat.sub_0_r. reflexivity.
Qed.

Lemma valid_node_shape (s : solution) : valid_node s → node_shape n s.
Proof.
  intros (a & Hpath & Hlen & ->).
  destruct (node_path_colors g a Hpath) as [Hcol Hmax].
  pose proof (maxcol_nonneg a) as Hnn.
  unfold node_shape, mk_node, is_u32. simpl.
  split; [rewrite length_app, length_replicate; lia|].
  split; [|lia].
  apply Forall_app. split.
  - eapply Forall_impl; [exact Hcol|]. simpl. intros x Hx. lia.
  - apply Forall_replicate. unfold UINT_MOD. lia.
Qed.

(** The children of the node [mk_node a], as lists of colours. *)
Lemma expand_children (ub : Z) (a : list Z) (c : solution) :
  (length a < n)%nat →
  c ∈ Search.expand g ub (mk_node n a) →
  ∃ x, c = mk_node n (a ++ [x]) ∧ 1 ≤ x ≤ maxcol a + 1 ∧ clash g a x = false.
Proof.
  intros Hlen. rewrite expand_mk by exact Hlen.
  rewrite elem_of_app, list_elem_of_fmap.
  intros [(x & -> & Hx)|Hfresh].
  - apply list_elem_of_filter in Hx as [Hclash Hx]. apply elem_of_seqZ in Hx.
    exists x. split; [reflexivity|]. split; [lia|exact Hclash].
  - case_decide; [|inversion Hfresh].
    apply list_elem_of_singleton in Hfresh as ->.
    pose proof (maxcol_nonneg a).
    exists (maxcol a + 1). split; [reflexivity|]. split; [lia|apply clash_fresh].
Qed.

Lemma valid_node_children (ub : Z) (s c : solution) :
  valid_node s → Search.final n s = false → c ∈ Search.expand g ub s →
  valid_node c ∧ (search_depth c < search_depth s)%nat.
Proof.
  intros (a & Hpath & Hlen & ->) Hfin Hc.
  rewrite final_mk in Hfin. apply bool_decide_eq_false_1 in Hfin.
  destruct (expand_children ub a c ltac:(lia) Hc) as (x & -> & Hx & Hclash).
  split.
  - exists (a ++ [x]). split; [constructor; assumption|].
    split; [rewrite length_app; simpl; lia|reflexivity].
  - unfold search_depth, mk_node. simpl. rewrite length_app. simpl. lia.
Qed.

Lemma valid_node_branching (ub : Z) (s : solution) :
  valid_node s → (length (Search.expand g ub s) ≤ S n)%nat.
Proof.
  intros (a & Hpath & Hlen & ->).
  destruct (node_path_colors g a Hpath) as [_ Hmax].
  unfold Search.expand. rewrite length_app, length_fmap.
  change (tot_colors (mk_node n a)) with (maxcol a).
  pose proof (length_filter (λ c, Search.forbidden g (mk_node n a) c = false)
                (seqZ 1 (maxcol a))) as Hf.
  rewrite length_seqZ in Hf.
  case_decide; simpl; lia.
Qed.

Definition search_laws : @NodeLaws (Search.ops n g) :=
  @Build_NodeLaws (Search.ops n g) valid_node search_depth (S n)
    valid_node_empty valid_node_shape valid_node_children valid_node_branching.

End SearchLaws.

(** ** A complete run on the edgeless graph with three vertices *)

Lemma three_fits : Z.of_nat 3 + 1 < UINT_MOD.
Proof. reflexivity. Qed.

Definition laws3 : @NodeLaws (Search.ops 3 edgeless3) :=
  search_laws 3 edgeless3 three_fits.

(** Both workers search to the end, rank 0 then receives the four messages,
    the listeners handle the two bounds, rank 0 reports, and the listeners
    receive the termination value. *)
Definition full_schedule : list sched :=
  replicate 10 (RunMain 0) ++ replicate 9 (RunMain 1) ++
  [Deliver 0; Deliver 0; Deliver 1; Deliver 1] ++
  replicate 5 (RunListener 0) ++ replicate 4 (RunListener 1) ++
  [Finish; RunListener 0; RunListener 1].

Definition launch3 : launch * seed * list event :=
  Eval vm_compute in
    default (Aborted 0, Seed [] 0 (Search.empty 3), [])
            (@coordinator_main (Search.ops 3 edgeless3) 10 2).

Definition first3 : list msg :=
  match launch3.1.1 with Dispatched first => first | Aborted _ => [] end.

Definition end3 : system * list event :=
  Eval vm_compute in
    default (@init_system (Search.ops 3 edgeless3) launch3.1.2 first3, [])
            (@exec (Search.ops 3 edgeless3) full_schedule
               (@init_system (Search.ops 3 edgeless3) launch3.1.2 first3)).

Lemma every_worker_returns_once_witness :
  length (workers end3.1) = 2%nat ∧
  Forall (λ m, tag m = INITIAL_NODE ∨ tag m = 0) first3 ∧
  (∀ i w, workers end3.1 !! i = Some w →
     count (is_return_from (S i)) end3.2 = done01 (w_main w) ∧
     count (is_barrier_of (S i)) end3.2 = joined01 (w_main w) ∧
     (joined (w_main w) = false →
      is_Some (@sys_step (Search.ops 3 edgeless3) (RunMain i) end3.1))) ∧
  (length full_schedule + @group_cost _ laws3 end3.1
   ≤ @group_cost _ laws3 (@init_system (Search.ops 3 edgeless3) launch3.1.2 first3))%nat ∧
  (c_finished (coord end3.1) = true →
     worker_done (coord end3.1) = 2%nat ∧
     ∀ i w, workers end3.1 !! i = Some w →
       count (is_return_from (S i)) end3.2 = 1%nat ∧ w_out w = []).
Proof.
  apply (@every_worker_returns_once (Search.ops 3 edgeless3) laws3 10 2
           launch3.1.2 first3 launch3.2 full_schedule end3.1 end3.2).
  - vm_compute. reflexivity.
  - vm_compute. reflexivity.
Defined.

(** ** The seeding loop terminates *)

Section SeedTermination.
Context `{NodeLaws}.

Lemma seed_body_cost (W : nat) (curr : solution) (rest : list solution)
    (ub : Z) (b : solution) :
  Forall valid (curr :: rest) →
  (seed_body W curr rest ub b).1.1 = Continue →
  (stack_cost 0 (initial_q (seed_body W curr rest ub b).1.2)
   < stack_cost 0 (curr :: rest))%nat.
Proof.
  intros Hq. apply Forall_cons in Hq as [Hcurr _].
  rewrite stack_cost_cons. pose proof (weight_min 0 (depth curr)).
  unfold seed_body.
  destruct (is_final curr) eqn:Hfin; simpl.
  - destruct (tot_colors curr <? ub); simpl; lia.
  - destruct (ub <=? tot_colors curr); simpl; [lia|].
    destruct (length rest + length (get_next ub curr) <=? W)%nat; simpl;
      [|discriminate].
    pose proof (children_cost 0 ub curr Hcurr Hfin).
    rewrite stack_cost_app. lia.
Qed.

Lemma seed_loop_fuel (W k : nat) (st : seed) :
  Forall valid (initial_q st) →
  (stack_cost 0 (initial_q st) ≤ k)%nat →
  is_Some (seed_loop (S k) W st).
Proof.
  revert st. induction k as [|k IH]; intros st Hq Hk.
  - simpl. destruct (initial_q st) as [|curr rest]; [eexists; reflexivity|].
    rewrite stack_cost_cons in Hk. pose proof (weight_min 0 (depth curr)). lia.
  - change (seed_loop (S (S k)) W st) with
      (match initial_q st with
       | [] => Some (st, [])
       | curr :: rest =>
         let '(fl, st', evs) := seed_body W curr rest (s_ub st) (best_so_far st) in
         match fl with
         | Break => Some (st', evs)
         | Continue =>
           '(st'', evs') ← seed_loop (S k) W st';
           Some (st'', evs ++ evs')
         end
       end).
    destruct (initial_q st) as [|curr rest] eqn:Hst; [eexists; reflexivity|].
    pose proof (seed_body_cost W curr rest (s_ub st) (best_so_far st) Hq) as Hcost.
    pose proof (seed_body_valid W curr rest (s_ub st) (best_so_far st) Hq) as Hval.
    destruct (seed_body W curr rest (s_ub st) (best_so_far st)) as [[fl st1] evs1].
    simpl in Hcost, Hval.
    destruct fl; [|eexists; reflexivity].
    specialize (Hcost eq_refl).
    destruct (IH st1 Hval ltac:(lia)) as [[st2 evs2] ->].
    eexists; reflexivity.
Qed.

End SeedTermination.

(** ** What the seeding loop leaves for the workers *)

Section SeedSearch.
Variable n : nat.
Variable g : Graph.matrix.
Hypothesis n_fits : Z.of_nat n + 1 < UINT_MOD.
Variable W : nat.

#[local] Instance seed_ops : NodeOps := Search.ops n g.
#[local] Instance seed_laws : NodeLaws := search_laws n g n_fits.

(** A complete path: all [n] vertices are coloured. *)
Definition complete_path (c : list Z) : Prop :=
  node_path g c ∧ length c = n.

(** Some node of [q] lies on the way to the complete colouring [c]. *)
Definition covers (q : list solution) (c : list Z) : Prop :=
  ∃ a, a `prefix_of` c ∧ mk_node n a ∈ q.

(** The best complete colouring seen so far and the bound go together. *)
Definition incumbent (ub : Z) (b : solution) : Prop :=
  ∃ a, complete_path a ∧ b = mk_node n a ∧ ub = maxcol a.

Definition untouched (ub : Z) (b : solution) : Prop :=
  ub = Z.of_nat n + 1 ∧ b = Search.empty n.

(** The queue holds nodes of one level, followed by nodes of the next. *)
Definition level_order (q : list solution) : Prop :=
  ∃ (d : nat) q1 q2,
    q = q1 ++ q2 ∧
    Forall (λ s, next s = Z.of_nat d) q1 ∧
    Forall (λ s, next s = Z.of_nat d + 1) q2.

Record seed_inv (st : seed) : Prop := SeedInv {
  si_valid : Forall (valid_node n g) (initial_q st);
  si_level : level_order (initial_q st);
  si_best :
    untouched (s_ub st) (best_so_far st) ∨
    (Forall (λ s, Search.final n s = true) (initial_q st) ∧
     incumbent (s_ub st) (best_so_far st));
  si_cover : ∀ c, complete_path c →
    covers (initial_q st) c ∨ s_ub st ≤ maxcol c;
  si_len : (length (initial_q st) ≤ W)%nat
}.

(** The seeding loop ends in one of two ways: the queue is empty, or the
    bound is untouched. *)
Definition seed_post (st : seed) : Prop :=
  Forall (valid_node n g) (initial_q st) ∧
  (length (initial_q st) ≤ W)%nat ∧
  (∀ c, complete_path c → covers (initial_q st) c ∨ s_ub st ≤ maxcol c) ∧
  (untouched (s_ub st) (best_so_far st) ∨
   (initial_q st = [] ∧ incumbent (s_ub st) (best_so_far st))).

Lemma complete_path_maxcol (c : list Z) :
  complete_path c → maxcol c ≤ Z.of_nat n.
Proof.
  intros [Hpath <-]. apply (node_path_colors g c Hpath).
Qed.

Lemma valid_node_next (s : solution) :
  valid_node n g s → 0 ≤ next s ≤ Z.of_nat n ∧ tot_colors s ≤ Z.of_nat n.
Proof.
  intros (a & Hpath & Hlen & ->). simpl.
  pose proof (proj2 (node_path_colors g a Hpath)). lia.
Qed.

(** The step from a node towards a complete colouring it is a prefix of:
    the child on the way is among the children, unless the fresh colour was
    cut by a bound that the complete colouring does not beat. *)
Lemma cover_step (ub : Z) (a c : list Z) :
  complete_path c → a `prefix_of` c → (length a < n)%nat →
  covers (Search.expand g ub (mk_node n a)) c ∨ ub ≤ maxcol c.
Proof.
  intros [Hpath Hlen] [b ->] Ha.
  destruct b as [|x b].
  { rewrite app_nil_r in Hlen. lia. }
  replace (a ++ x :: b) with ((a ++ [x]) ++ b) in *
    by (rewrite <- app_assoc; reflexivity).
  pose proof (node_path_prefix g _ _ Hpath) as Hax.
  inversion Hax as [Hnil|a' x' Ha' Hx Hclash Heq].
  { destruct a; discriminate. }
  apply app_inj_tail in Heq as [-> ->].
  assert (mk_node n (a ++ [x]) ∈ Search.expand g ub (mk_node n a) ∨
          ub ≤ maxcol (a ++ [x])) as [Hin|Hcut].
  { rewrite expand_mk by exact Ha. rewrite maxcol_snoc.
    destruct (decide (x ≤ maxcol a)) as [Hle|Hgt].
    - left. apply elem_of_app. left. apply list_elem_of_fmap.
      exists x. split; [reflexivity|].
      apply list_elem_of_filter. split; [exact Hclash|].
      apply elem_of_seqZ. lia.
    - assert (x = maxcol a + 1) as -> by lia.
      case_decide as Hub.
      + left. apply elem_of_app. right. apply list_elem_of_singleton. reflexivity.
      + right. lia. }
  - left. exists (a ++ [x]). split; [|exact Hin]. apply prefix_app_r. reflexivity.
  - right. etransitivity; [exact Hcut|]. apply maxcol_prefix.
    apply prefix_app_r. reflexivity.
Qed.

(** A final node on the way to a complete colouring is that colouring. *)
Lemma cover_final (a c : list Z) :
  complete_path c → a `prefix_of` c → Search.final n (mk_node n a) = true →
  a = c.
Proof.
  intros [_ Hlen] Hpre Hfin. rewrite final_mk in Hfin.
  apply bool_decide_eq_true_1 in Hfin.
  apply prefix_length_eq; [exact Hpre|lia].
Qed.

Lemma level_order_tail (curr : solution) (rest : list solution) :
  level_order (curr :: rest) →
  ∃ d : nat, next curr = Z.of_nat d ∧
    ∃ q1 q2, rest = q1 ++ q2 ∧
      Forall (λ s, next s = Z.of_nat d) q1 ∧
      Forall (λ s, next s = Z.of_nat d + 1) q2.
Proof.
  intros (d & q1 & q2 & Heq & H1 & H2).
  destruct q1 as [|s q1]; simpl in Heq.
  - destruct q2 as [|s q2]; [discriminate|]. injection Heq as -> ->.
    apply Forall_cons in H2 as [Hs H2].
    exists (S d). split; [lia|]. exists q2, []. rewrite app_nil_r.
    split; [reflexivity|]. split; [|constructor].
    eapply Forall_impl; [exact H2|]. simpl. intros s' Hs'. lia.
  - injection Heq as -> ->. apply Forall_cons in H1 as [Hs H1].
    exists d. split; [exact Hs|]. exists q1, q2. repeat split; assumption.
Qed.

(** Once a final node is at the head, only final nodes are queued. *)
Lemma level_order_final (curr : solution) (rest : list solution) :
  level_order (curr :: rest) → Forall (valid_node n g) rest →
  Search.final n curr = true →
  Forall (λ s, Search.final n s = true) rest.
Proof.
  intros Hlevel Hvalid Hfin.
  destruct (level_order_tail curr rest Hlevel)
    as (d & Hd & q1 & q2 & -> & H1 & H2).
  unfold Search.final in Hfin. apply Z.eqb_eq in Hfin.
  apply Forall_app in Hvalid as [Hv1 Hv2].
  apply Forall_app. split.
  - eapply Forall_impl; [exact H1|]. simpl. intros s Hs.
    unfold Search.final. apply Z.eqb_eq. lia.
  - apply Forall_forall. intros s Hs.
    rewrite Forall_forall in H2, Hv2.
    pose proof (valid_node_next s (Hv2 s Hs)). specialize (H2 s Hs). lia.
Qed.

Lemma mk_node_nil : mk_node n [] = Search.empty n.
Proof. unfold mk_node, Search.empty. simpl. rewrite Nat.sub_0_r. reflexivity. Qed.

Lemma covers_cons (curr : solution) (rest : list solution) (c : list Z) :
  covers (curr :: rest) c →
  (∃ a, a `prefix_of` c ∧ mk_node n a = curr) ∨ covers rest c.
Proof.
  intros (a & Hpre & Hin). apply elem_of_cons in Hin as [Heq|Hin].
  - left. exists a. split; assumption.
  - right. exists a. split; assumption.
Qed.

Lemma covers_app (q1 q2 : list solution) (c : list Z) :
  covers q1 c ∨ covers q2 c → covers (q1 ++ q2) c.
Proof.
  intros [(a & Hpre & Hin)|(a & Hpre & Hin)]; exists a; (split; [exact Hpre|]);
    apply elem_of_app; [left|right]; exact Hin.
Qed.

(** One pass of the loop body keeps the invariant, or stops with the bound
    untouched. *)
Lemma seed_body_inv (curr : solution) (rest : list solution) (ub : Z) (b : solution) :
  seed_inv (Seed (curr :: rest) ub b) →
  match (seed_body W curr rest ub b).1 with
  | (Continue, st') => seed_inv st'
  | (Break, st') => seed_post st'
  end.
Proof.
  intros [Hvalid Hlevel Hbest Hcover Hlen]. simpl in *.
  apply Forall_cons in Hvalid as [Hcurr Hrest].
  pose proof (valid_node_next curr Hcurr) as [Hnext Htot].
  destruct (level_order_tail curr rest Hlevel)
    as (d & Hd & q1 & q2 & Hq & H1 & H2).
  assert (level_order rest) as Hlevel' by (exists d, q1, q2; auto).
  unfold seed_body. cbn [is_final get_next seed_ops Search.ops].
  destruct (Search.final n curr) eqn:Hfin; cbn [negb].
  - (* a complete colouring *)
    assert (∀ c, complete_path c →
              (∃ a, a `prefix_of` c ∧ mk_node n a = curr) →
              tot_colors curr = maxcol c) as Hsame.
    { intros c Hc (a & Hpre & Heq). subst curr.
      rewrite (cover_final a c Hc Hpre Hfin). reflexivity. }
    destruct (tot_colors curr <? ub) eqn:Hlt; simpl.
    + apply Z.ltb_lt in Hlt. constructor; simpl.
      * exact Hrest.
      * exact Hlevel'.
      * right. split; [eapply level_order_final; eassumption|].
        destruct Hcurr as (a0 & Hpath0 & Hlen0 & ->).
        rewrite final_mk in Hfin. apply bool_decide_eq_true_1 in Hfin.
        exists a0. split; [split; assumption|]. split; reflexivity.
      * intros c Hc. destruct (Hcover c Hc) as [Hcov|Hle]; [|right; lia].
        apply covers_cons in Hcov as [Hhead|Hrest']; [|left; exact Hrest'].
        right. rewrite (Hsame c Hc Hhead). reflexivity.
      * lia.
    + apply Z.ltb_ge in Hlt. constructor; simpl.
      * exact Hrest.
      * exact Hlevel'.
      * destruct Hbest as [[-> _]|[Hall Hinc]]; [lia|].
        right. apply Forall_cons in Hall as [_ Hall]. split; assumption.
      * intros c Hc. destruct (Hcover c Hc) as [Hcov|Hle]; [|right; exact Hle].
        apply covers_cons in Hcov as [Hhead|Hrest']; [|left; exact Hrest'].
        right. rewrite <- (Hsame c Hc Hhead). exact Hlt.
      * lia.
  - (* not final: the bound is untouched *)
    assert (untouched ub b) as Hun.
    { destruct Hbest as [Hun|[Hall _]]; [exact Hun|].
      apply Forall_cons in Hall as [Hc _]. congruence. }
    destruct Hun as [-> ->].
    destruct (Z.of_nat n + 1 <=? tot_colors curr) eqn:Hle;
      [apply Z.leb_le in Hle; lia|].
    assert (∀ c, complete_path c →
              covers (rest ++ Search.expand g (Z.of_nat n + 1) curr) c) as Hstep.
    { intros c Hc. destruct (Hcover c Hc) as [Hcov|Hcut].
      2:{ pose proof (complete_path_maxcol c Hc). lia. }
      apply covers_app.
      apply covers_cons in Hcov as [(a & Hpre & Heq)|Hrest'];
        [right|left; exact Hrest'].
      subst curr.
      rewrite final_mk in Hfin. apply bool_decide_eq_false_1 in Hfin.
      pose proof (prefix_length _ _ Hpre) as Hpl.
      pose proof (complete_path_maxcol c Hc) as Hmax.
      pose proof (proj2 Hc) as Hcl.
      destruct (cover_step (Z.of_nat n + 1) a c Hc Hpre ltac:(lia))
        as [Hcov|Hcut]; [exact Hcov|lia]. }
    destruct (length rest + length (Search.expand g (Z.of_nat n + 1) curr) <=? W)%nat
      eqn:Hfit; simpl.
    + apply Nat.leb_le in Hfit. constructor; simpl.
      * apply Forall_app. split; [exact Hrest|].
        apply Forall_forall. intros c Hc.
        apply (valid_node_children n g (Z.of_nat n + 1) curr c Hcurr Hfin Hc).
      * exists d, q1, (q2 ++ Search.expand g (Z.of_nat n + 1) curr).
        split; [rewrite Hq, app_assoc; reflexivity|]. split; [exact H1|].
        apply Forall_app. split; [exact H2|].
        apply Forall_forall. intros c Hc.
        destruct Hcurr as (a0 & Hpath0 & Hlen0 & ->).
        rewrite final_mk in Hfin. apply bool_decide_eq_false_1 in Hfin.
        destruct (expand_children n g _ a0 c ltac:(lia) Hc) as (x & -> & _).
        simpl in *. rewrite length_app. simpl. lia.
      * left. split; reflexivity.
      * intros c Hc. left. apply Hstep, Hc.
      * rewrite length_app. exact Hfit.
    + unfold seed_post. simpl. split; [|split; [|split]].
      * apply Forall_app. split; [exact Hrest|]. repeat constructor. exact Hcurr.
      * rewrite length_app. simpl. lia.
      * intros c Hc. destruct (Hcover c Hc) as [Hcov|Hcut]; [|right; exact Hcut].
        left. apply covers_app.
        apply covers_cons in Hcov as [(a & Hpre & Heq)|Hrest'];
          [right|left; exact Hrest'].
        exists a. split; [exact Hpre|]. apply list_elem_of_singleton. exact Heq.
      * left. split; reflexivity.
Qed.

Lemma seed_loop_post (fuel : nat) (st st' : seed) (evs : list event) :
  seed_inv st → seed_loop fuel W st = Some (st', evs) → seed_post st'.
Proof.
  revert st st' evs. induction fuel as [|fuel IH]; intros st st' evs Hinv; simpl;
    [discriminate|].
  destruct st as [q ub b]. simpl.
  destruct q as [|curr rest].
  { intros [= <- _]. destruct Hinv as [Hv _ Hb Hc Hl]. simpl in *.
    split; [exact Hv|]. split; [exact Hl|]. split; [exact Hc|].
    destruct Hb as [Hun|[_ Hinc]]; [left; exact Hun|right; split; [reflexivity|exact Hinc]]. }
  pose proof (seed_body_inv curr rest ub b Hinv) as Hbody.
  destruct (seed_body W curr rest ub b) as [[fl st1] evs1]. simpl in Hbody.
  destruct fl.
  - destruct (seed_loop fuel W st1) as [[st2 evs2]|] eqn:Hloop; [|discriminate].
    simpl. intros [= <- _]. eapply IH; eassumption.
  - intros [= <- _]. exact Hbody.
Qed.

Lemma seed_init_inv : (1 ≤ W)%nat → seed_inv seed_init.
Proof.
  intros HW. unfold seed_init. cbn [blank initial_ub seed_ops Search.ops].
  constructor; simpl.
  - repeat constructor. apply valid_node_empty.
  - exists 0%nat, [Search.empty n], []. repeat split; repeat constructor.
  - left. split; reflexivity.
  - intros c Hc. left. exists []. split; [apply prefix_nil|].
    rewrite mk_node_nil. apply list_elem_of_here.
  - exact HW.
Qed.

End SeedSearch.

(** ** What every state of a run guarantees *)

Section GroupSearch.
Variable n : nat.
Variable g : Graph.matrix.
Hypothesis n_fits : Z.of_nat n + 1 < UINT_MOD.

#[local] Instance group_ops : NodeOps := Search.ops n g.
#[local] Instance group_laws : NodeLaws := search_laws n g n_fits.

(** The message that reports the complete colouring [a]. *)
Definition report_of (a : list Z) : msg :=
  Msg SOLUTION_FROM_WORKER
      (color (mk_node n a) ++ [tot_colors (mk_node n a); next (mk_node n a)]).

(** The nodes a worker still has to search, its initial node included while
    it has not received it. *)
Definition pending (w : worker) : list solution :=
  match w_main w with
  | WReceive =>
    match w_inbox w with
    | m :: _ =>
      if tag m =? INITIAL_NODE
      then from_option (λ s, [s]) [] (Wire.receive_solution n (payload m))
      else []
    | [] => []
    end
  | pc => pc_nodes pc
  end.

(** A complete colouring with at most [k] colours has reached rank 0 or is
    on its way there. *)
Definition bound_seen (s : system) (k : Z) : Prop :=
  c_ub (coord s) ≤ k ∨
  ∃ i w a, workers s !! i = Some w ∧ complete_path n g a ∧
           report_of a ∈ w_out w ∧ maxcol a ≤ k.

Record group_inv (s : system) : Prop := GroupInv {
  gi_wf : wf_system s;
  gi_best :
    untouched n (c_ub (coord s)) (best (coord s)) ∨
    incumbent n g (c_ub (coord s)) (best (coord s));
  gi_ub : ∀ i w, workers s !! i = Some w →
    w_ub w = Z.of_nat n + 1 ∨ bound_seen s (w_ub w);
  gi_lis : ∀ i w v, workers s !! i = Some w →
    w_lis w = LCheck v ∨ w_lis w = LStore v → c_ub (coord s) ≤ v;
  gi_bcasts : ∀ i w v, workers s !! i = Some w →
    v ∈ w_bcasts w → c_ub (coord s) ≤ v ∨ v = RETURN;
  gi_reports : ∀ i w m, workers s !! i = Some w →
    m ∈ w_out w → tag m = SOLUTION_FROM_WORKER →
    ∃ a, complete_path n g a ∧ m = report_of a;
  gi_cover : ∀ c, complete_path n g c →
    (∃ i w, workers s !! i = Some w ∧ covers n (pending w) c) ∨
    bound_seen s (maxcol c)
}.

Lemma complete_valid (a : list Z) : complete_path n g a → valid_node n g (mk_node n a).
Proof.
  intros [Hpath Hlen]. exists a. split; [exact Hpath|]. split; [lia|reflexivity].
Qed.

Lemma send_report (a : list Z) :
  complete_path n g a →
  Wire.send_solution n (mk_node n a) = Some (payload (report_of a)).
Proof.
  intros Ha. apply send_solution_shape, (valid_node_shape n g n_fits).
  apply complete_valid, Ha.
Qed.

Lemma receive_report (a : list Z) :
  complete_path n g a →
  Wire.receive_solution n (payload (report_of a)) = Some (mk_node n a).
Proof.
  intros Ha. unfold report_of. simpl payload.
  rewrite receive_solution_shape.
  - reflexivity.
  - apply (valid_node_shape n g n_fits (mk_node n a)), complete_valid, Ha.
Qed.

(** A valid final node is the node of a complete colouring. *)
Lemma valid_final (s : solution) :
  valid_node n g s → Search.final n s = true →
  ∃ a, complete_path n g a ∧ s = mk_node n a.
Proof.
  intros (a & Hpath & Hlen & ->) Hfin.
  rewrite final_mk in Hfin. apply bool_decide_eq_true_1 in Hfin.
  exists a. split; [split; assumption|reflexivity].
Qed.

(** *** The bound only goes down on rank 0, and reports are not lost *)

Lemma bound_seen_mono (s s' : system) (k k' : Z) :
  c_ub (coord s') ≤ c_ub (coord s) →
  (∀ i w a, workers s !! i = Some w → complete_path n g a →
     report_of a ∈ w_out w →
     (∃ w', workers s' !! i = Some w' ∧ report_of a ∈ w_out w') ∨
     c_ub (coord s') ≤ maxcol a) →
  k ≤ k' → bound_seen s k → bound_seen s' k'.
Proof.
  intros Hub Hkeep Hk [Hle|(i & w & a & Hi & Ha & Hin & Hmax)].
  - left. lia.
  - destruct (Hkeep i w a Hi Ha Hin) as [(w' & Hi' & Hin')|Hle].
    + right. exists i, w', a.
      split; [exact Hi'|]. split; [exact Ha|]. split; [exact Hin'|lia].
    + left. lia.
Qed.

(** *** One step of the main thread of a worker *)

Lemma main_step_search (rank : nat) (w w' : worker) (evs : list event) :
  wf_worker w → main_step rank w = Some (w', evs) →
  ∃ extra,
    w_out w' = w_out w ++ extra ∧
    w_bcasts w' = w_bcasts w ∧
    (w_lis w' = w_lis w ∨ w_lis w' = LWait) ∧
    (∀ m, m ∈ extra → tag m = SOLUTION_FROM_WORKER →
       ∃ a, complete_path n g a ∧ m = report_of a) ∧
    (w_ub w' = w_ub w ∨
     ∃ a, complete_path n g a ∧ report_of a ∈ extra ∧ w_ub w' = maxcol a) ∧
    (∀ c, complete_path n g c → covers n (pending w) c →
       covers n (pending w') c ∨
       (∃ a, complete_path n g a ∧ report_of a ∈ extra ∧ maxcol a ≤ maxcol c) ∨
       w_ub w ≤ maxcol c).
Proof.
  destruct w as [pc lis ub inbox bcasts out].
  intros (Hnodes & Hrecv & Hout & Htags & Hpc). simpl in Hnodes, Hrecv, Hpc.
  unfold pending. simpl.
  destruct pc as [|[|curr q]|curr q|curr q| | |]; simpl.
  - (* the initial receive *)
    destruct (Hrecv eq_refl) as (m & -> & Hm).
    destruct (Wire.receive_solution n (payload m)) as [sol|] eqn:Hsol;
      [|discriminate].
    simpl. intros [= <- _]. simpl.
    exists []. rewrite app_nil_r.
    split; [reflexivity|]. split; [reflexivity|]. split; [right; reflexivity|].
    split; [intros m0 Hm0; inversion Hm0|]. split; [left; reflexivity|].
    intros c Hc Hcov. left.
    destruct (tag m =? INITIAL_NODE); simpl in *; exact Hcov.
  - intros [= <- _]. simpl. exists []. rewrite app_nil_r.
    split; [reflexivity|]. split; [reflexivity|]. split; [left; reflexivity|].
    split; [intros m0 Hm0; inversion Hm0|]. split; [left; reflexivity|].
    intros c Hc Hcov. left. exact Hcov.
  - (* a node is popped and tested *)
    intros [= <- _]. simpl. exists []. rewrite app_nil_r.
    split; [reflexivity|]. split; [reflexivity|]. split; [left; reflexivity|].
    split; [intros m0 Hm0; inversion Hm0|]. split; [left; reflexivity|].
    intros c Hc Hcov.
    apply covers_cons in Hcov as [(a & Hpre & Heq)|Hrest].
    2:{ left. destruct Hrest as (a & Hpre & Hin). exists a. split; [exact Hpre|].
        destruct (negb (Search.final n curr));
          [destruct (ub <=? tot_colors curr)|destruct (tot_colors curr <? ub)];
          simpl; try exact Hin; apply list_elem_of_further, Hin. }
    assert (tot_colors curr ≤ maxcol c) as Htc.
    { subst curr. simpl. apply maxcol_prefix, Hpre. }
    destruct (Search.final n curr) eqn:Hfin; simpl.
    + destruct (tot_colors curr <? ub) eqn:Hlt; simpl.
      * left. exists a. split; [exact Hpre|]. subst curr. apply list_elem_of_here.
      * apply Z.ltb_ge in Hlt. right. right. lia.
    + destruct (ub <=? tot_colors curr) eqn:Hle; simpl.
      * apply Z.leb_le in Hle. right. right. lia.
      * left. exists a. split; [exact Hpre|]. subst curr. apply list_elem_of_here.
  - (* the node is expanded *)
    intros [= <- _]. simpl. exists []. rewrite app_nil_r.
    split; [reflexivity|]. split; [reflexivity|]. split; [left; reflexivity|].
    split; [intros m0 Hm0; inversion Hm0|]. split; [left; reflexivity|].
    intros c Hc Hcov.
    apply covers_cons in Hcov as [(a & Hpre & Heq)|Hrest].
    2:{ left. apply covers_app. right. exact Hrest. }
    subst curr. unfold pc_ok in Hpc. cbn [is_final group_ops Search.ops] in Hpc.
    rewrite final_mk in Hpc. apply bool_decide_eq_false_1 in Hpc.
    pose proof (prefix_length _ _ Hpre) as Hpl. pose proof (proj2 Hc) as Hcl.
    destruct (cover_step n g ub a c Hc Hpre ltac:(lia)) as [Hcov|Hcut].
    + left. apply covers_app. left. exact Hcov.
    + right. right. exact Hcut.
  - (* the bound is assigned and the colouring reported *)
    simpl in Hnodes. apply Forall_cons in Hnodes as [Hcurr Hq].
    unfold pc_ok in Hpc. cbn [is_final group_ops Search.ops] in Hpc.
    destruct (valid_final curr Hcurr Hpc) as (a0 & Ha0 & ->).
    cbn [dim group_ops Search.ops]. rewrite (send_report a0 Ha0). simpl.
    intros [= <- _]. simpl.
    exists [report_of a0].
    split; [reflexivity|]. split; [reflexivity|]. split; [left; reflexivity|].
    split.
    { intros m0 Hm0 _. apply list_elem_of_singleton in Hm0 as ->.
      exists a0. split; [exact Ha0|reflexivity]. }
    split.
    { right. exists a0. split; [exact Ha0|]. split; [apply list_elem_of_here|reflexivity]. }
    intros c Hc Hcov.
    apply covers_cons in Hcov as [(a & Hpre & Heq)|Hrest]; [|left; exact Hrest].
    right. left. exists a0. split; [exact Ha0|]. split; [apply list_elem_of_here|].
    change (maxcol a0) with (tot_colors (mk_node n a0)). rewrite <- Heq. simpl.
    apply maxcol_prefix, Hpre.
  - cbn [dim blank group_ops Search.ops].
    destruct (Wire.send_solution n (Search.empty n)) as [buffer|]; [|discriminate].
    simpl. intros [= <- _]. simpl.
    exists [Msg RETURN buffer].
    split; [reflexivity|]. split; [reflexivity|]. split; [left; reflexivity|].
    split.
    { intros m0 Hm0 Htag. apply list_elem_of_singleton in Hm0 as ->. discriminate Htag. }
    split; [left; reflexivity|].
    intros c Hc Hcov. left. exact Hcov.
  - intros [= <- _]. simpl. exists []. rewrite app_nil_r.
    split; [reflexivity|]. split; [reflexivity|]. split; [left; reflexivity|].
    split; [intros m0 Hm0; inversion Hm0|]. split; [left; reflexivity|].
    intros c Hc Hcov. left. exact Hcov.
  - discriminate.
Qed.

Lemma pending_ext (w w' : worker) :
  w_main w' = w_main w → w_inbox w' = w_inbox w → pending w' = pending w.
Proof. unfold pending. intros -> ->. reflexivity. Qed.

(** *** A step inside one worker *)

Lemma local_step_inv (c : coordinator) (ws : list worker) (i : nat)
    (w w' : worker) (extra : list msg) :
  group_inv (System c ws) → ws !! i = Some w →
  wf_system (System c (<[i := w']> ws)) →
  w_out w' = w_out w ++ extra →
  (∀ m, m ∈ extra → tag m = SOLUTION_FROM_WORKER →
     ∃ a, complete_path n g a ∧ m = report_of a) →
  (w_ub w' = w_ub w ∨
   (∃ a, complete_path n g a ∧ report_of a ∈ extra ∧ w_ub w' = maxcol a) ∨
   c_ub c ≤ w_ub w') →
  (∀ c0, complete_path n g c0 → covers n (pending w) c0 →
     covers n (pending w') c0 ∨
     (∃ a, complete_path n g a ∧ report_of a ∈ extra ∧ maxcol a ≤ maxcol c0) ∨
     w_ub w ≤ maxcol c0) →
  (∀ v, w_lis w' = LCheck v ∨ w_lis w' = LStore v → c_ub c ≤ v) →
  (∀ v, v ∈ w_bcasts w' → v ∈ w_bcasts w) →
  group_inv (System c (<[i := w']> ws)).
Proof.
  intros [Hwf Hbest Hub Hlis Hbc Hrep Hcov] Hi Hwf' Hout Hextra Hub' Hcov' Hlis' Hbc'.
  simpl in *.
  pose proof (lookup_lt_Some _ _ _ Hi) as Hlt.
  assert (<[i := w']> ws !! i = Some w') as Hi'
    by (apply list_lookup_insert_eq, Hlt).
  assert (∀ k k', k ≤ k' → bound_seen (System c ws) k →
                  bound_seen (System c (<[i := w']> ws)) k') as Hseen.
  { intros k k' Hk. apply bound_seen_mono; [reflexivity| |exact Hk].
    simpl. intros j w0 a Hj Ha Hin. left.
    destruct (decide (j = i)) as [->|Hne].
    - exists w'. split; [exact Hi'|]. rewrite Hout. apply elem_of_app. left.
      congruence.
    - exists w0. split; [|exact Hin]. rewrite list_lookup_insert_ne by congruence.
      exact Hj. }
  assert (∀ a k, complete_path n g a → report_of a ∈ extra → maxcol a ≤ k →
                 bound_seen (System c (<[i := w']> ws)) k) as Hnew.
  { intros a k Ha Hin Hk. right. exists i, w', a. simpl.
    split; [exact Hi'|]. split; [exact Ha|]. split; [|exact Hk].
    rewrite Hout. apply elem_of_app. right. exact Hin. }
  constructor; simpl.
  - exact Hwf'.
  - exact Hbest.
  - intros j w0 Hj. apply list_lookup_insert_Some in Hj as [(<- & <- & _)|(Hne & Hj)].
    + destruct Hub' as [Heq|[(a & Ha & Hin & Heq)|Hle]].
      * rewrite Heq. destruct (Hub i w Hi) as [Hinit|Hs]; [left; exact Hinit|].
        right. eapply Hseen; [reflexivity|exact Hs].
      * right. rewrite Heq. eapply Hnew; [exact Ha|exact Hin|reflexivity].
      * right. left. exact Hle.
    + destruct (Hub j w0 Hj) as [Hinit|Hs]; [left; exact Hinit|].
      right. eapply Hseen; [reflexivity|exact Hs].
  - intros j w0 v Hj Hv. apply list_lookup_insert_Some in Hj as [(<- & <- & _)|(Hne & Hj)].
    + apply Hlis', Hv.
    + eapply Hlis; eassumption.
  - intros j w0 v Hj Hv. apply list_lookup_insert_Some in Hj as [(<- & <- & _)|(Hne & Hj)].
    + eapply Hbc; [exact Hi|]. apply Hbc', Hv.
    + eapply Hbc; eassumption.
  - intros j w0 m Hj Hm Htag.
    apply list_lookup_insert_Some in Hj as [(<- & <- & _)|(Hne & Hj)].
    + rewrite Hout in Hm. apply elem_of_app in Hm as [Hm|Hm].
      * eapply Hrep; eassumption.
      * apply Hextra; assumption.
    + eapply Hrep; eassumption.
  - intros c0 Hc0.
    destruct (Hcov c0 Hc0) as [(j & w0 & Hj & Hcj)|Hs].
    2:{ right. eapply Hseen; [reflexivity|exact Hs]. }
    destruct (decide (j = i)) as [->|Hne].
    + assert (w0 = w) as -> by congruence.
      destruct (Hcov' c0 Hc0 Hcj) as [Hc'|[(a & Ha & Hin & Hle)|Hle]].
      * left. exists i, w'. split; assumption.
      * right. eapply Hnew; eassumption.
      * right. destruct (Hub i w Hi) as [Hinit|Hs].
        -- pose proof (complete_path_maxcol n g n_fits c0 Hc0). lia.
        -- eapply Hseen; [exact Hle|exact Hs].
    + left. exists j, w0. split; [|exact Hcj].
      rewrite list_lookup_insert_ne by congruence. exact Hj.
Qed.

(** *** A step of the listener of rank 0 *)

Lemma bcast_step_inv (c c' : coordinator) (ws l : list worker) (vs : list Z) :
  group_inv (System c ws) →
  wf_system (System c' (deliver_bcast vs <$> l)) →
  c_ub c' ≤ c_ub c →
  (untouched n (c_ub c') (best c') ∨ incumbent n g (c_ub c') (best c')) →
  (∀ v, v ∈ vs → c_ub c' ≤ v ∨ v = RETURN) →
  (∀ j w1, l !! j = Some w1 →
     ∃ w0, ws !! j = Some w0 ∧
       w_main w1 = w_main w0 ∧ w_inbox w1 = w_inbox w0 ∧
       w_ub w1 = w_ub w0 ∧ w_lis w1 = w_lis w0 ∧ w_bcasts w1 = w_bcasts w0 ∧
       (∀ x, x ∈ w_out w1 → x ∈ w_out w0) ∧
       (∀ a, complete_path n g a → report_of a ∈ w_out w0 →
          report_of a ∈ w_out w1 ∨ c_ub c' ≤ maxcol a)) →
  length l = length ws →
  group_inv (System c' (deliver_bcast vs <$> l)).
Proof.
  intros [Hwf Hbest Hub Hlis Hbc Hrep Hcov] Hwf' Hle Hbest' Hvs Hrel Hlen.
  simpl in *.
  assert (∀ j w0, ws !! j = Some w0 →
            ∃ w1, l !! j = Some w1 ∧
                  (deliver_bcast vs <$> l) !! j = Some (deliver_bcast vs w1)) as Hfwd.
  { intros j w0 Hj.
    destruct (lookup_lt_is_Some_2 l j) as [w1 Hw1].
    { rewrite Hlen. eapply lookup_lt_Some, Hj. }
    exists w1. split; [exact Hw1|]. rewrite list_lookup_fmap, Hw1. reflexivity. }
  assert (∀ k k', k ≤ k' → bound_seen (System c ws) k →
                  bound_seen (System c' (deliver_bcast vs <$> l)) k') as Hseen.
  { intros k k' Hk. apply bound_seen_mono; [exact Hle| |exact Hk].
    simpl. intros j w0 a Hj Ha Hin.
    destruct (Hfwd j w0 Hj) as (w1 & Hw1 & Hw1').
    destruct (Hrel j w1 Hw1) as (w0' & Hj' & _ & _ & _ & _ & _ & _ & Hkeep).
    assert (w0' = w0) as -> by congruence.
    destruct (Hkeep a Ha Hin) as [Hin1|Hcut]; [|right; exact Hcut].
    left. exists (deliver_bcast vs w1). split; [exact Hw1'|].
    destruct w1; exact Hin1. }
  constructor; simpl.
  - exact Hwf'.
  - exact Hbest'.
  - intros j w2 Hj. apply list_lookup_fmap_Some in Hj as (w1 & -> & Hw1).
    destruct (Hrel j w1 Hw1) as (w0 & Hj0 & _ & _ & Hub1 & _).
    replace (w_ub (deliver_bcast vs w1)) with (w_ub w0) by (destruct w1; exact (eq_sym Hub1)).
    destruct (Hub j w0 Hj0) as [Hinit|Hs]; [left; exact Hinit|].
    right. eapply Hseen; [reflexivity|exact Hs].
  - intros j w2 v Hj Hv. apply list_lookup_fmap_Some in Hj as (w1 & -> & Hw1).
    destruct (Hrel j w1 Hw1) as (w0 & Hj0 & _ & _ & _ & Hlis1 & _).
    assert (c_ub c ≤ v); [|lia].
    apply (Hlis j w0 v Hj0). rewrite <- Hlis1. destruct w1; exact Hv.
  - intros j w2 v Hj Hv. apply list_lookup_fmap_Some in Hj as (w1 & -> & Hw1).
    destruct (Hrel j w1 Hw1) as (w0 & Hj0 & _ & _ & _ & _ & Hbc1 & _).
    assert (v ∈ w_bcasts w0 ++ vs) as Hin.
    { rewrite <- Hbc1. destruct w1; exact Hv. }
    apply elem_of_app in Hin as [Hin|Hin]; [|apply Hvs, Hin].
    destruct (Hbc j w0 v Hj0 Hin) as [Hold|Hret]; [left; lia|right; exact Hret].
  - intros j w2 m Hj Hm Htag. apply list_lookup_fmap_Some in Hj as (w1 & -> & Hw1).
    destruct (Hrel j w1 Hw1) as (w0 & Hj0 & _ & _ & _ & _ & _ & Hsub & _).
    apply (Hrep j w0 m Hj0); [|exact Htag]. apply Hsub. destruct w1; exact Hm.
  - intros c0 Hc0.
    destruct (Hcov c0 Hc0) as [(j & w0 & Hj & Hcj)|Hs].
    2:{ right. eapply Hseen; [reflexivity|exact Hs]. }
    left. destruct (Hfwd j w0 Hj) as (w1 & Hw1 & Hw1').
    destruct (Hrel j w1 Hw1) as (w0' & Hj' & Hmain & Hinbox & _).
    assert (w0' = w0) as -> by congruence.
    exists j, (deliver_bcast vs w1). split; [exact Hw1'|].
    rewrite (pending_ext w0 (deliver_bcast vs w1)); [exact Hcj| |];
      destruct w1; simpl in *; congruence.
Qed.

(** *** The steps, one kind at a time *)

Lemma listener_step_search (rank : nat) (w w' : worker) (evs : list event) :
  listener_step rank w = Some (w', evs) →
  w_main w' = w_main w ∧ w_inbox w' = w_inbox w ∧ w_out w' = w_out w ∧
  (∀ v, v ∈ w_bcasts w' → v ∈ w_bcasts w) ∧
  (∀ v, w_lis w' = LCheck v → v ∈ w_bcasts w ∧ v ≠ RETURN) ∧
  (∀ v, w_lis w' = LStore v → w_lis w = LCheck v) ∧
  (w_ub w' = w_ub w ∨ w_lis w = LStore (w_ub w')).
Proof.
  destruct w as [pc lis ub inbox bcasts out]. simpl.
  destruct lis as [| |v0|v0|]; simpl; try discriminate.
  - destruct bcasts as [|v0 bcasts']; [discriminate|].
    intros [= <- _]. simpl.
    split; [reflexivity|]. split; [reflexivity|]. split; [reflexivity|].
    split; [intros v Hv; apply list_elem_of_further, Hv|].
    split; [|split; [|left; reflexivity]].
    + intros v. destruct (Z.eqb_spec v0 RETURN) as [Heq|Hne]; [discriminate|].
      intros [= <-]. split; [apply list_elem_of_here|exact Hne].
    + intros v. destruct (v0 =? RETURN); discriminate.
  - intros [= <- _]. simpl.
    split; [reflexivity|]. split; [reflexivity|]. split; [reflexivity|].
    split; [intros v Hv; exact Hv|].
    split; [|split; [|left; reflexivity]].
    + intros v. destruct (v0 <? ub); discriminate.
    + intros v. destruct (v0 <? ub); [|discriminate]. intros [= <-]. reflexivity.
  - intros [= <- _]. simpl.
    split; [reflexivity|]. split; [reflexivity|]. split; [reflexivity|].
    split; [intros v Hv; exact Hv|].
    split; [discriminate|]. split; [discriminate|]. right. reflexivity.
Qed.

Lemma coordinator_receive_search (W : nat) (c c' : coordinator) (m : msg)
    (vs : list Z) (evs : list event) :
  coordinator_receive W c m = Some (c', vs, evs) →
  c_ub c' ≤ c_ub c ∧
  (∀ v, v ∈ vs → v = c_ub c') ∧
  ((c_ub c' = c_ub c ∧ best c' = best c) ∨
   (tag m = SOLUTION_FROM_WORKER ∧
    ∃ nb, Wire.receive_solution n (payload m) = Some nb ∧
          c_ub c' = tot_colors nb ∧ best c' = nb)) ∧
  (tag m = SOLUTION_FROM_WORKER →
   ∀ nb, Wire.receive_solution n (payload m) = Some nb →
         c_ub c' ≤ tot_colors nb).
Proof.
  destruct c as [ub done b fin]. simpl.
  destruct (fin || negb (done <? W)%nat); [discriminate|].
  cbn [dim group_ops Search.ops].
  destruct (Wire.receive_solution n (payload m)) as [nb|]; [|discriminate].
  simpl.
  destruct (Z.eqb_spec (tag m) SOLUTION_FROM_WORKER) as [Htag|Htag]; simpl.
  - destruct (tot_colors nb <? ub) eqn:Hlt; intros [= <- <- _]; simpl.
    + apply Z.ltb_lt in Hlt. split; [lia|].
      split; [intros v Hv; apply list_elem_of_singleton in Hv; exact Hv|].
      split; [right; split; [exact Htag|]; exists nb; repeat split|].
      intros _ nb' [= <-]. reflexivity.
    + apply Z.ltb_ge in Hlt. split; [reflexivity|].
      split; [intros v Hv; inversion Hv|].
      split; [left; split; reflexivity|].
      intros _ nb' [= <-]. exact Hlt.
  - intros [= <- <- _]. simpl. split; [reflexivity|].
    split; [intros v Hv; inversion Hv|].
    split; [left; split; reflexivity|].
    intros Heq. contradiction.
Qed.

Lemma take_out_search (w w1 : worker) (m : msg) :
  take_out w = Some (m, w1) →
  w_out w = m :: w_out w1 ∧ w_main w1 = w_main w ∧ w_inbox w1 = w_inbox w ∧
  w_ub w1 = w_ub w ∧ w_lis w1 = w_lis w ∧ w_bcasts w1 = w_bcasts w.
Proof.
  destruct w as [pc lis ub inbox bcasts out]. simpl.
  destruct out as [|m0 out']; [discriminate|]. intros [= <- <-]. simpl.
  repeat split.
Qed.

(** Every step of the group keeps the invariant. *)
Lemma group_step_inv (a : sched) (s s' : system) (evs : list event) :
  group_inv s → sys_step a s = Some (s', evs) → group_inv s'.
Proof.
  intros Hinv Hstep.
  pose proof (sys_step_wf a s s' evs (gi_wf s Hinv) Hstep) as (Hwf' & _ & _).
  destruct s as [c ws]. destruct a as [i|i|i|]; simpl in Hstep.
  - destruct (ws !! i) as [w|] eqn:Hi; [|discriminate]. simpl in Hstep.
    destruct (main_step (S i) w) as [[w' evs']|] eqn:Hmain; [|discriminate].
    injection Hstep as <- _.
    pose proof (gi_wf _ Hinv) as (Hws & _). simpl in Hws.
    destruct (main_step_search (S i) w w' evs'
                (proj1 (Forall_lookup _ _) Hws i w Hi) Hmain)
      as (extra & Hout & Hbc & Hlis & Hextra & Hub & Hcov).
    apply (local_step_inv c ws i w w' extra Hinv Hi Hwf' Hout Hextra).
    + destruct Hub as [Heq|Hnew]; [left; exact Heq|right; left; exact Hnew].
    + exact Hcov.
    + intros v Hv. destruct Hlis as [Heq|Heq]; rewrite Heq in Hv.
      * apply (gi_lis _ Hinv i w v Hi Hv).
      * destruct Hv; discriminate.
    + intros v Hv. rewrite Hbc in Hv. exact Hv.
  - destruct (ws !! i) as [w|] eqn:Hi; [|discriminate]. simpl in Hstep.
    destruct (listener_step (S i) w) as [[w' evs']|] eqn:Hlisten; [|discriminate].
    injection Hstep as <- _.
    destruct (listener_step_search (S i) w w' evs' Hlisten)
      as (Hmain & Hinbox & Hout & Hbc & Hcheck & Hstore & Hub).
    apply (local_step_inv c ws i w w' [] Hinv Hi Hwf').
    + rewrite app_nil_r. exact Hout.
    + intros m Hm. inversion Hm.
    + destruct Hub as [Heq|Heq]; [left; exact Heq|right; right].
      apply (gi_lis _ Hinv i w (w_ub w') Hi). right. exact Heq.
    + intros c0 Hc0 Hcov. left. rewrite (pending_ext w w' Hmain Hinbox). exact Hcov.
    + intros v [Hv|Hv].
      * destruct (Hcheck v Hv) as [Hin Hne].
        destruct (gi_bcasts _ Hinv i w v Hi Hin) as [Hle|Hret];
          [exact Hle|contradiction].
      * apply (gi_lis _ Hinv i w v Hi). left. apply Hstore, Hv.
    + exact Hbc.
  - destruct (ws !! i) as [w|] eqn:Hi; [|discriminate]. simpl in Hstep.
    destruct (take_out w) as [[m w1]|] eqn:Htake; [|discriminate].
    simpl in Hstep.
    destruct (coordinator_receive (length ws) c m) as [[[c' vs] evs']|] eqn:Hrecv;
      [|discriminate].
    injection Hstep as <- _.
    destruct (take_out_search w w1 m Htake)
      as (Hout & Hmain & Hinbox & Hub1 & Hlis1 & Hbc1).
    destruct (coordinator_receive_search _ _ _ _ _ _ Hrecv)
      as (Hle & Hvs & Hbest & Hcut).
    assert (tag m = SOLUTION_FROM_WORKER →
            ∃ a, complete_path n g a ∧ m = report_of a) as Hrep.
    { apply (gi_reports _ Hinv i w m Hi). rewrite Hout. apply list_elem_of_here. }
    apply (bcast_step_inv c c' ws (<[i := w1]> ws) vs Hinv Hwf' Hle).
    + destruct Hbest as [[-> ->]|(Htag & nb & Hnb & -> & ->)];
        [exact (gi_best _ Hinv)|].
      destruct (Hrep Htag) as (a & Ha & ->).
      rewrite (receive_report a Ha) in Hnb. injection Hnb as <-.
      right. exists a. split; [exact Ha|]. split; reflexivity.
    + intros v Hv. left. rewrite (Hvs v Hv). reflexivity.
    + intros j w2 Hj.
      apply list_lookup_insert_Some in Hj as [(<- & <- & _)|(Hne & Hj)].
      * exists w. split; [exact Hi|]. repeat (split; [assumption|]).
        split.
        -- intros x Hx. rewrite Hout. apply list_elem_of_further, Hx.
        -- intros a Ha Hin. rewrite Hout in Hin.
           apply elem_of_cons in Hin as [Heq|Hin]; [|left; exact Hin].
           right. subst m.
           apply (Hcut eq_refl (mk_node n a) (receive_report a Ha)).
      * exists w2. split; [exact Hj|]. repeat (split; [reflexivity|]).
        split; [intros x Hx; exact Hx|]. intros a Ha Hin. left. exact Hin.
    + apply length_insert.
  - destruct (coordinator_finish (length ws) c) as [[[c' vs] evs']|] eqn:Hfin;
      [|discriminate].
    injection Hstep as <- _.
    pose proof (coordinator_finish_bcast _ _ _ _ _ Hfin) as ->.
    destruct (coordinator_finish_facts _ _ _ _ _ Hfin)
      as (_ & _ & _ & _ & _ & Hub & Hb).
    apply (bcast_step_inv c c' ws ws [RETURN] Hinv Hwf').
    + rewrite Hub. reflexivity.
    + rewrite Hub, Hb. exact (gi_best _ Hinv).
    + intros v Hv. right. apply list_elem_of_singleton in Hv. exact Hv.
    + intros j w2 Hj. exists w2. split; [exact Hj|].
      repeat (split; [reflexivity|]).
      split; [intros x Hx; exact Hx|]. intros a Ha Hin. left. exact Hin.
    + reflexivity.
Qed.

Lemma group_exec_inv (sch : list sched) (s s' : system) (evs : list event) :
  group_inv s → exec sch s = Some (s', evs) → group_inv s'.
Proof.
  revert s evs. induction sch as [|a sch IH]; intros s evs Hinv; simpl.
  - intros [= <- _]. exact Hinv.
  - destruct (sys_step a s) as [[s1 evs1]|] eqn:Hstep; [|discriminate]. simpl.
    destruct (exec sch s1) as [[s2 evs2]|] eqn:Hexec; [|discriminate]. simpl.
    intros [= <- _]. eapply IH; [|exact Hexec].
    eapply group_step_inv; eassumption.
Qed.

(** *** The first and the last state of a run *)

Lemma dispatch_lookup (W : nat) (q : list solution) (first : list msg)
    (j : nat) (s : solution) :
  dispatch W q = Some first → q !! j = Some s →
  ∃ buffer, Wire.send_solution n s = Some buffer ∧
            first !! j = Some (Msg INITIAL_NODE buffer).
Proof.
  unfold dispatch. cbn [dim blank group_ops Search.ops].
  destruct (mapM (Wire.send_solution n) q) as [nodes|] eqn:Hnodes; [|discriminate].
  simpl. destruct (Wire.send_solution n (Search.empty n)); [|discriminate].
  simpl. destruct (decide (length nodes ≤ W)%nat); [|discriminate].
  intros [= <-] Hj. apply mapM_Some in Hnodes.
  destruct (Forall2_lookup_l _ _ _ _ _ Hnodes Hj) as (buffer & Hb & Hsend).
  exists buffer. split; [exact Hsend|].
  rewrite lookup_app_l.
  - rewrite list_lookup_fmap, Hb. reflexivity.
  - rewrite length_fmap. eapply lookup_lt_Some, Hb.
Qed.

(** Right after the dispatch, every node the seeding loop left is the
    initial node of a worker, and every bound is untouched. *)
Lemma init_group_inv (W : nat) (st : seed) (first : list msg) :
  seed_post n g W st → initial_q st ≠ [] →
  dispatch W (initial_q st) = Some first →
  wf_system (init_system st first) →
  group_inv (init_system st first).
Proof.
  intros (Hvalid & Hlen & Hcover & Hbest) Hne Hdisp Hwf.
  destruct Hbest as [[Hub Hb]|[Hnil _]]; [|contradiction].
  assert (∀ j w, workers (init_system st first) !! j = Some w →
            ∃ m, first !! j = Some m ∧
                 w = Worker WReceive LNone (Z.of_nat n + 1) [m] [] []) as Hw.
  { intros j w Hj. unfold init_system in Hj. simpl in Hj.
    apply list_lookup_fmap_Some in Hj as (m & -> & Hm).
    exists m. split; [exact Hm|reflexivity]. }
  constructor.
  - exact Hwf.
  - left. split; [exact Hub|reflexivity].
  - intros j w Hj. destruct (Hw j w Hj) as (m & _ & ->). left. reflexivity.
  - intros j w v Hj [Hv|Hv]; destruct (Hw j w Hj) as (m & _ & ->); discriminate.
  - intros j w v Hj Hv. destruct (Hw j w Hj) as (m & _ & ->). inversion Hv.
  - intros j w m0 Hj Hm0. destruct (Hw j w Hj) as (m & _ & ->). inversion Hm0.
  - intros c Hc. left.
    destruct (Hcover c Hc) as [(a & Hpre & Hin)|Hcut].
    2:{ pose proof (complete_path_maxcol n g n_fits c Hc). lia. }
    apply list_elem_of_lookup_1 in Hin as [j Hj].
    destruct (dispatch_lookup W _ first j _ Hdisp Hj) as (buffer & Hsend & Hfirst).
    exists j, (Worker WReceive LNone initial_ub [Msg INITIAL_NODE buffer] [] []).
    split.
    + unfold init_system. simpl. rewrite list_lookup_fmap, Hfirst. reflexivity.
    + exists a. split; [exact Hpre|]. unfold pending. simpl.
      assert (valid_node n g (mk_node n a)) as Hva
        by (exact (proj1 (Forall_lookup _ _) Hvalid j _ Hj)).
      rewrite (send_solution_shape n _ (valid_node_shape n g n_fits _ Hva)) in Hsend.
      injection Hsend as <-.
      rewrite receive_solution_shape
        by apply (valid_node_shape n g n_fits _ Hva).
      simpl. apply list_elem_of_here.
Qed.

(** When rank 0 has reported, nothing is pending and no message is on its
    way: the bound on rank 0 is at most the number of colours of any
    complete colouring of the tree, and [best] realises it. *)
Lemma finished_best (s : system) :
  group_inv s → c_finished (coord s) = true →
  (∃ c, complete_path n g c) →
  ∃ a, complete_path n g a ∧ best (coord s) = mk_node n a ∧
       ∀ c, complete_path n g c → maxcol a ≤ maxcol c.
Proof.
  intros Hinv Hfin [c1 Hc1].
  destruct (gi_wf s Hinv) as (Hws & Hdone & Hall).
  assert (Forall (λ w, returned01 w = 1%nat) (workers s)) as Hret.
  { apply total_all_inv; [apply returned01_le|]. rewrite <- Hdone. apply Hall, Hfin. }
  assert (∀ j w, workers s !! j = Some w → pending w = [] ∧ w_out w = []) as Hidle.
  { intros j w Hj.
    pose proof (proj1 (Forall_lookup _ _) Hret j w Hj) as Hw.
    unfold returned01, returned in Hw.
    destruct (done_main (w_main w)) eqn:Hd; [|discriminate].
    destruct (bool_decide (w_out w = [])) eqn:Ho; [|discriminate].
    apply bool_decide_eq_true_1 in Ho. split; [|exact Ho].
    unfold pending. destruct (w_main w); try discriminate; reflexivity. }
  assert (∀ c, complete_path n g c → c_ub (coord s) ≤ maxcol c) as Hmin.
  { intros c Hc.
    destruct (gi_cover s Hinv c Hc) as [(j & w & Hj & a & _ & Hin)|Hseen].
    - rewrite (proj1 (Hidle j w Hj)) in Hin. inversion Hin.
    - destruct Hseen as [Hle|(j & w & a & Hj & _ & Hin & _)]; [exact Hle|].
      rewrite (proj2 (Hidle j w Hj)) in Hin. inversion Hin. }
  destruct (gi_best s Hinv) as [[Hun _]|(a & Ha & Hb & Hub)].
  - pose proof (Hmin c1 Hc1). pose proof (complete_path_maxcol n g n_fits c1 Hc1). lia.
  - exists a. split; [exact Ha|]. split; [exact Hb|].
    intros c Hc. rewrite <- Hub. apply Hmin, Hc.
Qed.

End GroupSearch.

(** ** Every colouring has a canonical relabelling in the search tree

    Colours are renamed in order of first use.  The renamed colouring is a
    path of the tree, and it uses exactly as many colours as the original
    has distinct ones. *)

Section Canonical.
Variable g : Graph.matrix.

(** No vertex has the colour of an earlier neighbour. *)
Definition proper_below (p : list Z) : Prop :=
  ∀ i j x, (j < i)%nat → Graph.adj g i j = true →
    p !! i = Some x → p !! j ≠ Some x.

(** Two vertices have the same colour in [c] exactly when they have in [p]. *)
Definition same_pattern (p c : list Z) : Prop :=
  ∀ i j x y x' y',
    p !! i = Some x → p !! j = Some y →
    c !! i = Some x' → c !! j = Some y' →
    (x = y ↔ x' = y').

Lemma proper_below_prefix (p : list Z) (x : Z) :
  proper_below (p ++ [x]) → proper_below p.
Proof.
  intros Hp i j y Hji Hadj Hi Hj.
  pose proof (lookup_lt_Some _ _ _ Hi) as Hlt.
  apply (Hp i j y Hji Hadj).
  - rewrite lookup_app_l by lia. exact Hi.
  - rewrite lookup_app_l by lia. exact Hj.
Qed.

Lemma canonical_exists (p : list Z) :
  proper_below p →
  ∃ c reps,
    node_path g c ∧ length c = length p ∧ same_pattern p c ∧
    NoDup reps ∧ (∀ x, x ∈ reps → x ∈ p) ∧
    maxcol c = Z.of_nat (length reps).
Proof.
  induction p as [|x p IH] using rev_ind; intros Hp.
  { exists [], []. split; [constructor|]. split; [reflexivity|].
    split; [intros i j x y x' y' Hi; discriminate|].
    split; [constructor|]. split; [intros x Hx; inversion Hx|reflexivity]. }
  destruct (IH (proper_below_prefix p x Hp))
    as (c & reps & Hpath & Hlen & Hpat & Hnd & Hsub & Hmax).
  destruct (node_path_colors g c Hpath) as [Hcol _].
  (* the colour [y] given to the new vertex agrees with the pattern *)
  assert (∀ y,
    (∀ j z z', p !! j = Some z → c !! j = Some z' → (z = x ↔ z' = y)) →
    same_pattern (p ++ [x]) (c ++ [y])) as Hext.
  { intros y Hy i j a b a' b' Hi Hj Hi' Hj'.
    pose proof (lookup_lt_Some _ _ _ Hi) as Hil.
    pose proof (lookup_lt_Some _ _ _ Hj) as Hjl.
    rewrite length_app in Hil, Hjl. simpl in Hil, Hjl.
    destruct (decide (i = length p)) as [->|Hin], (decide (j = length p)) as [->|Hjn].
    - rewrite Hi in Hj. rewrite Hi' in Hj'. split; congruence.
    - rewrite lookup_app_r, Nat.sub_diag in Hi by lia.
      rewrite <- Hlen, lookup_app_r, Nat.sub_diag in Hi' by lia.
      rewrite lookup_app_l in Hj by lia. rewrite lookup_app_l in Hj' by lia.
      injection Hi as <-. injection Hi' as <-.
      specialize (Hy j b b' Hj Hj'). split; intros Heq; symmetry; apply Hy;
        symmetry; exact Heq.
    - rewrite lookup_app_r, Nat.sub_diag in Hj by lia.
      rewrite <- Hlen, lookup_app_r, Nat.sub_diag in Hj' by lia.
      rewrite lookup_app_l in Hi by lia. rewrite lookup_app_l in Hi' by lia.
      injection Hj as <-. injection Hj' as <-.
      exact (Hy i a a' Hi Hi').
    - rewrite lookup_app_l in Hi, Hj by lia.
      rewrite lookup_app_l in Hi', Hj' by lia.
      exact (Hpat i j a b a' b' Hi Hj Hi' Hj'). }
  destruct (decide (x ∈ p)) as [Hin|Hnew].
  - (* a colour already seen: reuse its new name *)
    apply list_elem_of_lookup_1 in Hin as [j0 Hj0].
    destruct (lookup_lt_is_Some_2 c j0) as [y Hy0].
    { rewrite Hlen. eapply lookup_lt_Some, Hj0. }
    assert (∀ j z z', p !! j = Some z → c !! j = Some z' → (z = x ↔ z' = y))
      as Hyx.
    { intros j z z' Hj Hj'. exact (Hpat j j0 z x z' y Hj Hj0 Hj' Hy0). }
    exists (c ++ [y]), reps.
    split.
    { constructor; [exact Hpath| |].
      - pose proof (proj1 (Forall_lookup _ _) Hcol j0 y Hy0). simpl in *. lia.
      - apply clash_false_intro. intros j Hjl Hadj Hcj.
        destruct (lookup_lt_is_Some_2 p j) as [z Hz]; [lia|].
        assert (z = x) as -> by (apply (Hyx j z y Hz Hcj); reflexivity).
        apply (Hp (length p) j x); [lia|rewrite <- Hlen; exact Hadj| |].
        + rewrite lookup_app_r, Nat.sub_diag by lia. reflexivity.
        + rewrite lookup_app_l by lia. exact Hz. }
    split; [rewrite !length_app, Hlen; reflexivity|].
    split; [apply Hext, Hyx|].
    split; [exact Hnd|]. split.
    { intros z Hz. apply elem_of_app. left. apply Hsub, Hz. }
    rewrite maxcol_snoc.
    pose proof (proj1 (Forall_lookup _ _) Hcol j0 y Hy0). simpl in *. lia.
  - (* a new colour: the first unused name *)
    assert (∀ j z z', p !! j = Some z → c !! j = Some z' →
                      (z = x ↔ z' = maxcol c + 1)) as Hyx.
    { intros j z z' Hj Hj'. split.
      - intros ->. exfalso. apply Hnew. eapply list_elem_of_lookup_2, Hj.
      - intros ->. apply list_elem_of_lookup_2, maxcol_elem in Hj'. lia. }
    exists (c ++ [maxcol c + 1]), (x :: reps).
    pose proof (maxcol_nonneg c) as Hnn.
    split; [constructor; [exact Hpath|lia|apply clash_fresh]|].
    split; [rewrite !length_app, Hlen; reflexivity|].
    split; [apply Hext, Hyx|].
    split; [constructor; [intros Hx; apply Hnew, Hsub, Hx|exact Hnd]|].
    split.
    { intros z Hz. apply elem_of_cons in Hz as [->|Hz].
      - apply elem_of_app. right. apply list_elem_of_here.
      - apply elem_of_app. left. apply Hsub, Hz. }
    rewrite maxcol_snoc. simpl length. lia.
Qed.

(** A colouring with colours in [1 .. k] has a canonical relabelling with at
    most [k] colours. *)
Lemma canonical_colors (n : nat) (k : Z) (p : list Z) :
  0 ≤ k → proper_coloring n g k p →
  ∃ c, complete_path n g c ∧ maxcol c ≤ k.
Proof.
  intros Hk (Hlen & Hcol & Hproper).
  assert (proper_below p) as Hbelow.
  { intros i j x Hji Hadj Hi Hj.
    pose proof (lookup_lt_Some _ _ _ Hi) as Hil.
    apply (Hproper i j); [lia|lia|exact Hadj|congruence]. }
  destruct (canonical_exists p Hbelow)
    as (c & reps & Hpath & Hlenc & _ & Hnd & Hsub & Hmax).
  exists c. split.
  { split; [exact Hpath|congruence]. }
  rewrite Hmax.
  assert (length reps ≤ length (seqZ 1 k))%nat as Hle.
  { apply submseteq_length, NoDup_submseteq; [exact Hnd|].
    intros x Hx. apply elem_of_seqZ.
    pose proof (proj1 (Forall_forall _ _) Hcol x (Hsub x Hx)). simpl in *. lia. }
  rewrite length_seqZ in Hle. lia.
Qed.

End Canonical.

(** ** The reported colouring is optimal *)

(** [b] is a complete proper colouring of the graph with as few colours as
    the graph allows. *)
Definition optimal_coloring (n : nat) (g : Graph.matrix) (b : solution) : Prop :=
  next b = Z.of_nat n ∧
  proper_coloring n g (tot_colors b) (color b) ∧
  chromatic_number n g (tot_colors b).

(** One colour per vertex. *)
Fixpoint rainbow (k : nat) : list Z :=
  match k with
  | O => []
  | S k' => rainbow k' ++ [Z.of_nat (S k')]
  end.

Section Optimal.
Variable n : nat.
Variable g : Graph.matrix.

Lemma rainbow_path (k : nat) :
  node_path g (rainbow k) ∧ length (rainbow k) = k ∧
  maxcol (rainbow k) = Z.of_nat k.
Proof.
  induction k as [|k (Hpath & Hlen & Hmax)]; [repeat split; constructor|].
  simpl rainbow. split; [|split].
  - replace (Z.of_nat (S k)) with (maxcol (rainbow k) + 1) by lia.
    constructor; [exact Hpath| |apply clash_fresh].
    pose proof (maxcol_nonneg (rainbow k)). lia.
  - rewrite length_app, Hlen. simpl. lia.
  - rewrite maxcol_snoc, Hmax. lia.
Qed.

Lemma complete_path_exists : ∃ c, complete_path n g c.
Proof.
  exists (rainbow n). destruct (rainbow_path n) as (Hpath & Hlen & _).
  split; assumption.
Qed.

Lemma mk_node_complete (a : list Z) :
  length a = n →
  color (mk_node n a) = a ∧ tot_colors (mk_node n a) = maxcol a ∧
  next (mk_node n a) = Z.of_nat n.
Proof.
  intros Hlen. unfold mk_node. simpl.
  rewrite Hlen, Nat.sub_diag, app_nil_r. repeat split.
Qed.

Hypothesis g_symmetric : Graph.symmetric n g.
Hypothesis g_irreflexive : Graph.irreflexive n g.

(** A complete path of the tree is a proper colouring of the graph. *)
Lemma complete_path_proper (a : list Z) :
  complete_path n g a → proper_coloring n g (maxcol a) a.
Proof.
  intros [Hpath Hlen].
  split; [exact Hlen|]. split; [apply (node_path_colors g a Hpath)|].
  intros i j Hi Hj Hadj Heq.
  destruct (lookup_lt_is_Some_2 a i) as [x Hx]; [lia|].
  rewrite Hx in Heq. symmetry in Heq.
  destruct (Nat.lt_trichotomy i j) as [Hlt|[->|Hgt]].
  - rewrite (g_symmetric i j Hi Hj) in Hadj.
    exact (node_path_proper g a Hpath j i x Hlt Hadj Heq Hx).
  - rewrite (g_irreflexive j Hj) in Hadj. discriminate.
  - exact (node_path_proper g a Hpath i j x Hgt Hadj Hx Heq).
Qed.

(** The node of a complete path with the fewest colours among the complete
    paths is an optimal colouring. *)
Lemma least_path_optimal (a : list Z) :
  complete_path n g a →
  (∀ c, complete_path n g c → maxcol a ≤ maxcol c) →
  optimal_coloring n g (mk_node n a).
Proof.
  intros Ha Hmin. unfold optimal_coloring.
  destruct (mk_node_complete a (proj2 Ha)) as (-> & -> & ->).
  split; [reflexivity|].
  pose proof (complete_path_proper a Ha) as Hproper.
  split; [exact Hproper|]. split.
  - split; [apply maxcol_nonneg|]. exists a. exact Hproper.
  - intros k (Hk & p & Hp).
    destruct (canonical_colors g n k p Hk Hp) as (c & Hc & Hle).
    specialize (Hmin c Hc). lia.
Qed.

End Optimal.

Section DispatchSucceeds.
Context `{NodeLaws}.

Lemma dispatch_Some (W : nat) (q : list solution) :
  Forall valid q → (length q ≤ W)%nat → is_Some (dispatch W q).
Proof.
  intros Hq Hlen. unfold dispatch.
  assert (∃ nodes, mapM (Wire.send_solution dim) q = Some nodes ∧
                   length nodes = length q) as (nodes & -> & Hn).
  { induction Hq as [|s q Hs _ IH]; [exists []; split; reflexivity|].
    destruct (IH ltac:(simpl in Hlen; lia)) as (nodes & Hnodes & Hn).
    exists ((color s ++ [tot_colors s; next s]) :: nodes).
    split; [|simpl; congruence].
    apply mapM_Some. constructor; [apply valid_send, Hs|].
    apply mapM_Some, Hnodes. }
  simpl. rewrite (valid_send blank valid_blank). simpl.
  rewrite decide_True by lia. eexists; reflexivity.
Qed.

End DispatchSucceeds.

(** ** The final report in the trace *)

Definition is_print (e : event) : Prop :=
  match e with EvPrint _ _ => True | _ => False end.

Section Report.
Context `{NodeOps}.

Lemma worker_step_no_print (rank : nat) (w w' : worker) (evs : list event) :
  main_step rank w = Some (w', evs) ∨ listener_step rank w = Some (w', evs) →
  Forall (λ e, ¬ is_print e) evs.
Proof.
  destruct w as [pc lis ub inbox bcasts out]. intros [Hstep|Hstep]; simpl in Hstep.
  - destruct pc as [|[|curr q]|curr q|curr q| | |]; simpl in Hstep.
    + destruct inbox; [discriminate|].
      destruct (Wire.receive_solution dim (payload m)); [|discriminate].
      injection Hstep as _ <-. repeat constructor; simpl; tauto.
    + injection Hstep as _ <-. constructor.
    + injection Hstep as _ <-. repeat constructor; simpl; tauto.
    + injection Hstep as _ <-. repeat constructor; simpl; tauto.
    + destruct (Wire.send_solution dim curr); [|discriminate].
      injection Hstep as _ <-. repeat constructor; simpl; tauto.
    + destruct (Wire.send_solution dim blank); [|discriminate].
      injection Hstep as _ <-. repeat constructor; simpl; tauto.
    + injection Hstep as _ <-. repeat constructor; simpl; tauto.
    + discriminate.
  - destruct lis as [| |v|v|]; simpl in Hstep; try discriminate.
    + destruct bcasts; [discriminate|]. injection Hstep as _ <-. constructor.
    + injection Hstep as _ <-. repeat constructor; simpl; tauto.
    + injection Hstep as _ <-. repeat constructor; simpl; tauto.
Qed.

(** A step either leaves rank 0 as it is and prints nothing, or is a step of
    the listener of rank 0; the step that sets [c_finished] prints [best]. *)
Lemma sys_step_report (a : sched) (s s' : system) (evs : list event) :
  sys_step a s = Some (s', evs) →
  (coord s' = coord s ∧ Forall (λ e, ¬ is_print e) evs) ∨
  (c_finished (coord s) = false ∧
   (c_finished (coord s') = false ∨
    evs = [EvBcast RETURN; EvPrint 0 (best (coord s'))])).
Proof.
  destruct s as [c ws]. destruct a as [i|i|i|]; simpl.
  - destruct (ws !! i) as [w|]; [|discriminate]. simpl.
    destruct (main_step (S i) w) as [[w' evs']|] eqn:Hstep; [|discriminate].
    simpl. intros [= <- <-]. left. split; [reflexivity|].
    eapply worker_step_no_print. left. exact Hstep.
  - destruct (ws !! i) as [w|]; [|discriminate]. simpl.
    destruct (listener_step (S i) w) as [[w' evs']|] eqn:Hstep; [|discriminate].
    simpl. intros [= <- <-]. left. split; [reflexivity|].
    eapply worker_step_no_print. right. exact Hstep.
  - destruct (ws !! i) as [w|]; [|discriminate]. simpl.
    destruct (take_out w) as [[m w']|]; [|discriminate]. simpl.
    destruct (coordinator_receive (length ws) c m) as [[[c' vs] evs']|] eqn:Hrecv;
      [|discriminate].
    simpl. intros [= <- <-]. right.
    destruct (coordinator_receive_facts _ _ _ _ _ _ Hrecv) as (Hf & Hf' & _).
    split; [exact Hf|left; exact Hf'].
  - destruct (coordinator_finish (length ws) c) as [[[c' vs] evs']|] eqn:Hfin;
      [|discriminate].
    simpl. intros [= <- <-]. right.
    destruct (coordinator_finish_facts _ _ _ _ _ Hfin) as (Hf & _).
    split; [exact Hf|right].
    destruct c as [ub done b fin]. simpl in Hfin.
    destruct (fin || (done <? length ws)%nat); [discriminate|].
    injection Hfin as <- _ <-. reflexivity.
Qed.

Lemma exec_after_report (sch : list sched) (s s' : system) (evs : list event) :
  exec sch s = Some (s', evs) → c_finished (coord s) = true →
  coord s' = coord s ∧ Forall (λ e, ¬ is_print e) evs.
Proof.
  revert s evs. induction sch as [|a sch IH]; intros s evs; simpl.
  - intros [= <- <-] _. split; [reflexivity|constructor].
  - destruct (sys_step a s) as [[s1 evs1]|] eqn:Hstep; [|discriminate]. simpl.
    destruct (exec sch s1) as [[s2 evs2]|] eqn:Hexec; [|discriminate]. simpl.
    intros [= <- <-] Hfin.
    destruct (sys_step_report a s s1 evs1 Hstep) as [[Hc Hnp]|[Hf _]];
      [|congruence].
    destruct (IH s1 evs2 Hexec ltac:(congruence)) as [Hc2 Hnp2].
    split; [congruence|]. apply Forall_app. split; assumption.
Qed.

(** In a run that reaches the report, the last colouring printed is
    [best], right after the termination broadcast. *)
Lemma exec_report (sch : list sched) (s s' : system) (evs : list event) :
  exec sch s = Some (s', evs) →
  c_finished (coord s) = false → c_finished (coord s') = true →
  ∃ pre post,
    evs = pre ++ [EvBcast RETURN; EvPrint 0 (best (coord s'))] ++ post ∧
    Forall (λ e, ¬ is_print e) post.
Proof.
  revert s evs. induction sch as [|a sch IH]; intros s evs; simpl.
  - intros [= <- <-] Hf Hf'. congruence.
  - destruct (sys_step a s) as [[s1 evs1]|] eqn:Hstep; [|discriminate]. simpl.
    destruct (exec sch s1) as [[s2 evs2]|] eqn:Hexec; [|discriminate]. simpl.
    intros [= <- <-] Hf Hf'.
    destruct (c_finished (coord s1)) eqn:Hf1.
    + destruct (exec_after_report sch s1 s2 evs2 Hexec Hf1) as [Hc Hnp].
      destruct (sys_step_report a s s1 evs1 Hstep) as [[Hc1 _]|[_ [Hno|Hev]]];
        [congruence|congruence|].
      exists [], evs2. split; [|exact Hnp]. rewrite Hev, Hc. reflexivity.
    + destruct (IH s1 evs2 Hexec Hf1 Hf') as (pre & post & -> & Hnp).
      exists (evs1 ++ pre), post. split; [|exact Hnp].
      rewrite <- app_assoc. reflexivity.
Qed.

End Report.

(** ** The reported colouring *)

(** The engine on one table: when rank 0 and every worker search the same
    symmetric, irreflexive graph of [n] vertices, with at least one worker,
    rank 0 completes its seed phase and the colouring the coordinator
    reports is optimal: either the seed phase drains the queue and the
    colouring printed before the abort is a proper colouring of all vertices
    whose [tot_colors] is the chromatic number, or the queue is dispatched
    and then, under every schedule of the workers and listeners, the run is
    bounded, some step is enabled until the coordinator listener has
    finished (broadcast values being queued for each worker), and once it
    has finished the colouring [best] printed after the termination
    broadcast (the last colouring printed) is a proper colouring of all
    vertices whose [tot_colors] is the chromatic number. *)
Lemma engine_report_optimal (n : nat) (g : Graph.matrix) (W : nat) :
  Graph.symmetric n g → Graph.irreflexive n g → (1 ≤ W)%nat →
  Z.of_nat n + 1 < UINT_MOD →
  ∃ fuel l st evs0 bound,
    @coordinator_main (Search.ops n g) fuel W = Some (l, st, evs0) ∧
    match l with
    | Aborted _ =>
      optimal_coloring n g (best_so_far st) ∧
      ∃ pre, evs0 = pre ++ [EvPrint 0 (best_so_far st); EvAbort 0 69]
    | Dispatched first =>
      ∀ sch s evs,
        @exec (Search.ops n g) sch (@init_system (Search.ops n g) st first)
          = Some (s, evs) →
        (length sch ≤ bound)%nat ∧
        (c_finished (coord s) = false →
         ∃ a, is_Some (@sys_step (Search.ops n g) a s)) ∧
        (c_finished (coord s) = true →
         optimal_coloring n g (best (coord s)) ∧
         ∃ pre post,
           evs = pre ++ [EvBcast RETURN; EvPrint 0 (best (coord s))] ++ post ∧
           Forall (λ e, ¬ is_print e) post)
    end.
Proof.
  intros Hsym Hirr HW Hfits.
  pose (laws := search_laws n g Hfits).
  assert (Hvalid0 : Forall (@valid _ laws)
                      (initial_q (@seed_init (Search.ops n g)))).
  { repeat constructor. apply valid_node_empty. }
  destruct (@seed_loop_fuel _ laws W _ _ Hvalid0 (le_n _)) as [[st evs1] Hloop].
  destruct (seed_loop_post n g Hfits W _ _ st evs1 (seed_init_inv n g W HW) Hloop)
    as (Hval & Hlen & Hcov & Hbest).
  destruct (complete_path_exists n g) as [c0 Hc0].
  destruct (initial_q st) as [|x q] eqn:Hq.
  - eexists _, (Aborted 69), st, _, 0%nat. split.
    { unfold coordinator_main. rewrite Hloop. simpl. rewrite Hq. reflexivity. }
    split; [|eexists; reflexivity].
    assert (Hlow : ∀ c, complete_path n g c → s_ub st ≤ maxcol c).
    { intros c Hc. destruct (Hcov c Hc) as [(a & _ & Hin)|Hle]; [|exact Hle].
      inversion Hin. }
    destruct Hbest as [[Hub _]|[_ (a & Ha & -> & Hub)]].
    + pose proof (Hlow c0 Hc0). pose proof (complete_path_maxcol n g Hfits c0 Hc0).
      lia.
    + apply least_path_optimal; [exact Hsym|exact Hirr|exact Ha|].
      intros c Hc. rewrite <- Hub. apply Hlow, Hc.
  - destruct (@dispatch_Some _ laws W (x :: q)) as [first Hfirst].
    { exact Hval. }
    { exact Hlen. }
    assert (Hmain : @coordinator_main (Search.ops n g)
                      (S (@stack_cost _ laws 0
                            (initial_q (@seed_init (Search.ops n g))))) W
                    = Some (Dispatched first, st,
                            evs1 ++ send_events first ++ [EvSpawn 0; EvBarrier 0])).
    { unfold coordinator_main. rewrite Hloop. simpl. rewrite Hq. simpl.
      rewrite Hfirst. reflexivity. }
    destruct (@init_system_wf _ laws _ _ _ _ _ Hmain) as (Hwf & _).
    assert (Hinv : group_inv n g Hfits (@init_system (Search.ops n g) st first)).
    { apply (init_group_inv n g Hfits W).
      - unfold seed_post. rewrite Hq. split; [|split; [|split]]; assumption.
      - rewrite Hq. discriminate.
      - rewrite Hq. exact Hfirst.
      - exact Hwf. }
    eexists _, (Dispatched first), st, _,
      (@group_cost _ laws (@init_system (Search.ops n g) st first)).
    split; [exact Hmain|].
    intros sch s evs Hexec.
    destruct (@exec_wf _ laws sch _ s evs Hwf Hexec) as (Hwf' & Hcost & _).
    split; [lia|]. split.
    + intros Hfin. exact (@group_progress _ laws s Hwf' Hfin).
    + intros Hfin. split.
      * destruct (finished_best n g Hfits s
                    (group_exec_inv n g Hfits sch _ s evs Hinv Hexec) Hfin
                    (ex_intro _ c0 Hc0)) as (a & Ha & -> & Hmin).
        apply least_path_optimal; assumption.
      * exact (exec_report sch _ s evs Hexec eq_refl Hfin).
Qed.

(** The complete run on the edgeless graph with three vertices ends with the
    report of a colouring with one colour. *)
Example edgeless3_report :
  @exec (Search.ops 3 edgeless3) full_schedule
    (@init_system (Search.ops 3 edgeless3) launch3.1.2 first3) = Some end3 ∧
  c_finished (coord end3.1) = true ∧
  best (coord end3.1) = {| color := [1; 1; 1]; tot_colors := 1; next := 3 |}.
Proof. vm_compute. repeat split; reflexivity. Qed.

(** With three workers the seed phase of the graph with one edge drains the
    queue, and the colouring printed before the abort has two colours. *)
Example edge2_report :
  ∃ st evs,
    @coordinator_main (Search.ops 2 edge2) 10 3 = Some (Aborted 69, st, evs) ∧
    best_so_far st = {| color := [1; 2]; tot_colors := 2; next := 2 |}.
Proof. eexists _, _. vm_compute. split; reflexivity. Qed.

(** * Further properties of the sources *)

(** ** The constructor from a file: which files are accepted, and what
    graph they give ([graph.tpp], lines 2-34) *)

(** Some line of the file is read as ["e u v"]. *)
Definition edge_line (ls : list string) (u v : Z) : Prop :=
  ∃ l, l ∈ ls ∧ Graph.parse_line l = Graph.LEdge (Some (u, v)).

(** The line passes the reading loop of a graph with [dim] vertices: a
    problem line announces the format ["edge"] and [dim] nodes, an edge line
    names two vertices in [1 .. dim]. *)
Definition acceptable (dim : nat) (l : string) : Prop :=
  match Graph.parse_line l with
  | Graph.LProblem format nodes =>
    format = "edge"%string ∧ nodes = Some (Z.of_nat dim)
  | Graph.LEdge (Some (u, v)) =>
    1 ≤ u ≤ Z.of_nat dim ∧ 1 ≤ v ≤ Z.of_nat dim
  | _ => True
  end.

Section FileGraph.
Import Graph.
Variable dim : nat.
Hypothesis dim_fits : Z.of_nat dim < UINT_MOD.

(** Two square tables with the same entries are the same table. *)
Lemma square_ext (m1 m2 : matrix) :
  square dim m1 → square dim m2 →
  (∀ i j : nat, (i < dim)%nat → (j < dim)%nat → adj m1 i j = adj m2 i j) →
  m1 = m2.
Proof.
  intros [Hl1 Hr1] [Hl2 Hr2] Hadj.
  apply list_eq_same_length with dim; [exact Hl2|exact Hl1|].
  intros i r1 r2 Hi H1 H2.
  rewrite Forall_lookup in Hr1, Hr2.
  apply list_eq_same_length with dim; [exact (Hr2 i r2 H2)|exact (Hr1 i r1 H1)|].
  intros j b1 b2 Hj Hb1 Hb2.
  specialize (Hadj i j Hi Hj). unfold adj in Hadj.
  rewrite H1, H2 in Hadj. simpl in Hadj. rewrite Hb1, Hb2 in Hadj.
  exact Hadj.
Qed.

Lemma decrement_in_range (x : Z) (i : nat) :
  is_u32 x → (i < dim)%nat → Z.of_nat i = u32 (x - 1) → x = Z.of_nat i + 1.
Proof.
  intros [Hx0 Hx1] Hi. unfold u32.
  destruct (decide (x = 0)) as [->|Hx].
  - change ((0 - 1) mod UINT_MOD) with (UINT_MOD - 1). lia.
  - rewrite Z.mod_small by lia. lia.
Qed.

(** The loop runs to its end exactly when it passes every line. *)
Lemma read_lines_acceptable (ls : list string) (m : matrix) :
  (∃ m', read_lines dim ls m = Built m') ↔ Forall (acceptable dim) ls.
Proof.
  revert m. induction ls as [|l ls IH]; intros m; simpl.
  - split; [constructor|eexists; reflexivity].
  - rewrite Forall_cons. unfold acceptable at 1.
    destruct (parse_line l) as [|format nodes|[[u v]|]|] eqn:Hparse;
      try (rewrite IH; tauto).
    + destruct (String.eqb_spec format "edge") as [->|Hf]; simpl.
      * destruct nodes as [k|]; simpl.
        -- destruct (Z.eqb_spec k (Z.of_nat dim)) as [->|Hk]; simpl.
           ++ rewrite IH. tauto.
           ++ split; [intros [? [=]]|]. intros [[_ [= ?]] _]. contradiction.
        -- split; [intros [? [=]]|]. intros [[_ [=]] _].
      * split; [intros [? [=]]|]. intros [[? _] _]. contradiction.
    + apply parse_edge_range in Hparse as [Hu Hv].
      pose proof (add_edge_in_bounds dim m u v dim_fits Hu Hv) as Hin.
      destruct (add_edge dim m u v) as [m1|].
      * rewrite IH.
        split; [intros ?; split; [apply Hin; eexists; reflexivity|assumption]|tauto].
      * split; [intros [? [=]]|]. intros [Hr _]. apply Hin in Hr as [? [=]].
Qed.

(** The entries set when the loop ends: those set before, and both
    orientations of every edge line. *)
Lemma read_lines_adj (ls : list string) (m m' : matrix) :
  square dim m → read_lines dim ls m = Built m' →
  square dim m' ∧
  ∀ i j : nat,
    adj m' i j = true ↔
    adj m i j = true ∨
    ∃ u v, edge_line ls u v ∧
           ((u = Z.of_nat i + 1 ∧ v = Z.of_nat j + 1) ∨
            (u = Z.of_nat j + 1 ∧ v = Z.of_nat i + 1)).
Proof.
  revert m. induction ls as [|l ls IH]; intros m Hsq; simpl.
  - intros [= <-]. split; [exact Hsq|]. intros i j. split; [tauto|].
    intros [?|(u & v & (l & Hl & _) & _)]; [assumption|]. inversion Hl.
  - assert (Hskip : ∀ u v, (∀ u v, parse_line l ≠ LEdge (Some (u, v))) →
              (edge_line (l :: ls) u v ↔ edge_line ls u v)).
    { intros u v Hne. split.
      - intros (l0 & Hin & Hp). apply elem_of_cons in Hin as [->|Hin].
        + destruct (Hne _ _ Hp).
        + exists l0. split; assumption.
      - intros (l0 & Hin & Hp). exists l0. split; [right; exact Hin|exact Hp]. }
    assert (Hsame : (∀ u v, parse_line l ≠ LEdge (Some (u, v))) →
              read_lines dim ls m = Built m' →
              square dim m' ∧
              ∀ i j : nat,
                adj m' i j = true ↔
                adj m i j = true ∨
                ∃ u v, edge_line (l :: ls) u v ∧
                       ((u = Z.of_nat i + 1 ∧ v = Z.of_nat j + 1) ∨
                        (u = Z.of_nat j + 1 ∧ v = Z.of_nat i + 1))).
    { intros Hne Hrest. destruct (IH m Hsq Hrest) as [Hsq' Hadj].
      split; [exact Hsq'|]. intros i j. rewrite (Hadj i j).
      split; (intros [?|(u & v & He & Huv)]; [left; assumption|right]);
        exists u, v; (split; [apply (Hskip u v Hne); exact He|exact Huv]). }
    destruct (parse_line l) as [|format nodes|[[u v]|]|] eqn:Hparse;
      try (apply Hsame; intros ? ?; discriminate).
    + destruct (negb (String.eqb format "edge")); [discriminate|].
      destruct nodes as [k|]; [|discriminate].
      destruct (negb (k =? Z.of_nat dim)); [discriminate|].
      apply Hsame; intros ? ?; discriminate.
    + destruct (add_edge dim m u v) as [m1|] eqn:Hadd; [|discriminate].
      apply add_edge_Some in Hadd as (a & c & Ha & Hc & Hau & Hcv & ->).
      pose proof (parse_edge_range l u v Hparse) as [Hu Hv].
      apply (decrement_in_range u a Hu Ha) in Hau.
      apply (decrement_in_range v c Hv Hc) in Hcv.
      intros Hrest.
      destruct (IH _ (square_pair dim m a c true Hsq) Hrest) as [Hsq' Hadj].
      split; [exact Hsq'|]. intros i j. rewrite (Hadj i j).
      rewrite (adj_pair dim) by assumption.
      split.
      * intros [Hnew|(u0 & v0 & (l0 & Hin & Hp) & Huv)].
        -- case_decide as Hd.
           ++ right. exists u, v. split; [exists l; split; [left|exact Hparse]|].
              lia.
           ++ left. exact Hnew.
        -- right. exists u0, v0. split; [|exact Huv].
           exists l0. split; [right; exact Hin|exact Hp].
      * intros [Hold|(u0 & v0 & (l0 & Hin & Hp) & Huv)].
        -- left. case_decide; [reflexivity|exact Hold].
        -- apply elem_of_cons in Hin as [->|Hin].
           ++ left. rewrite Hparse in Hp. injection Hp as <- <-.
              rewrite decide_True by lia. reflexivity.
           ++ right. exists u0, v0. split; [|exact Huv].
              exists l0. split; assumption.
Qed.

End FileGraph.

(** A file that is read to its end gives the graph of its edge lines: the
    table is [dim] x [dim], and [adj(i, j)] holds exactly when some line
    reads ["e u v"] with [{u, v} = {i + 1, j + 1}].  Comment lines, the
    problem line and every other line leave no trace. *)
Theorem file_graph_edges (dim : nat) (ls : list string) (m : Graph.matrix) :
  Z.of_nat dim < UINT_MOD →
  Graph.graph_from_file dim (Some ls) = Graph.Built m →
  Graph.square dim m ∧
  ∀ i j : nat,
    Graph.adj m i j = true ↔
    ∃ u v, edge_line ls u v ∧
           ((u = Z.of_nat i + 1 ∧ v = Z.of_nat j + 1) ∨
            (u = Z.of_nat j + 1 ∧ v = Z.of_nat i + 1)).
Proof.
  intros Hdim Hbuilt. simpl in Hbuilt.
  destruct (read_lines_adj dim Hdim ls _ m (square_zero dim) Hbuilt) as [Hsq Hadj].
  split; [exact Hsq|]. intros i j. rewrite (Hadj i j), adj_zero.
  split; [intros [?|?]; [discriminate|assumption]|intros ?; right; assumption].
Qed.

Lemma file_graph_edges_witness :
  Graph.square 3 [[false; true; false]; [true; false; true]; [false; true; false]] ∧
  ∀ i j : nat,
    Graph.adj [[false; true; false]; [true; false; true]; [false; true; false]] i j
      = true ↔
    ∃ u v, edge_line ["c two edges"; "p edge 3 2"; "e 1 2"; "e 3 2"]%string u v ∧
           ((u = Z.of_nat i + 1 ∧ v = Z.of_nat j + 1) ∨
            (u = Z.of_nat j + 1 ∧ v = Z.of_nat i + 1)).
Proof.
  apply (file_graph_edges 3 ["c two edges"; "p edge 3 2"; "e 1 2"; "e 3 2"]%string);
    reflexivity.
Defined.

(** The constructor reads a file to its end, without an exception and
    without a write outside the table, exactly when every problem line
    announces the format ["edge"] and [dim] nodes and every edge line names
    two vertices in [1 .. dim].  Nothing else is checked: a file without a
    problem line is accepted, and the number of edges announced is never
    compared with the edge lines. *)
Theorem file_graph_accepted (dim : nat) (ls : list string) :
  Z.of_nat dim < UINT_MOD →
  (∃ m, Graph.graph_from_file dim (Some ls) = Graph.Built m)
  ↔ Forall (acceptable dim) ls.
Proof. intros Hdim. apply read_lines_acceptable, Hdim. Qed.

Lemma file_graph_accepted_witness :
  (∃ m, Graph.graph_from_file 3 (Some ["e 1 2"; "p edge 3 7"; "e 2 3"]%string)
        = Graph.Built m)
  ↔ Forall (acceptable 3) ["e 1 2"; "p edge 3 7"; "e 2 3"]%string.
Proof.
  apply (file_graph_accepted 3 ["e 1 2"; "p edge 3 7"; "e 2 3"]%string).
  reflexivity.
Defined.

(** The graph depends on the set of lines only: two files with the same
    lines, in any order and with any repetition, that are read to the end
    give the same table. *)
Theorem file_graph_lines_as_set (dim : nat) (ls1 ls2 : list string)
    (m : Graph.matrix) :
  Z.of_nat dim < UINT_MOD →
  (∀ l, l ∈ ls1 ↔ l ∈ ls2) →
  Graph.graph_from_file dim (Some ls1) = Graph.Built m →
  Graph.graph_from_file dim (Some ls2) = Graph.Built m.
Proof.
  intros Hdim Hset H1.
  assert (Hacc : Forall (acceptable dim) ls2).
  { apply Forall_forall. intros l Hl. apply Hset in Hl.
    assert (Forall (acceptable dim) ls1) as Hall.
    { apply (read_lines_acceptable dim Hdim ls1 (Graph.zero_matrix dim)).
      eexists. exact H1. }
    rewrite Forall_forall in Hall. apply Hall, Hl. }
  apply (read_lines_acceptable dim Hdim ls2 (Graph.zero_matrix dim)) in Hacc
    as [m2 H2].
  change (Graph.graph_from_file dim (Some ls2) = Graph.Built m2) in H2.
  rewrite H2. f_equal. simpl in H1, H2.
  destruct (read_lines_adj dim Hdim ls1 _ m (square_zero dim) H1) as [Hsq1 Hadj1].
  destruct (read_lines_adj dim Hdim ls2 _ m2 (square_zero dim) H2) as [Hsq2 Hadj2].
  apply (square_ext dim); [exact Hsq2|exact Hsq1|].
  intros i j _ _.
  apply eq_true_iff_eq. rewrite (Hadj1 i j), (Hadj2 i j).
  assert (∀ u v, edge_line ls1 u v ↔ edge_line ls2 u v) as He.
  { intros u v. split; intros (l & Hl & Hp); exists l; (split; [apply Hset, Hl|exact Hp]). }
  split; (intros [?|(u & v & Huv & ?)]; [left; assumption|right]);
    exists u, v; (split; [apply He, Huv|assumption]).
Qed.

Lemma file_graph_lines_as_set_witness :
  Graph.graph_from_file 3 (Some ["e 2 3"; "e 1 2"; "e 2 3"; "p edge 3 2"]%string)
  = Graph.Built [[false; true; false]; [true; false; true]; [false; true; false]].
Proof.
  apply (file_graph_lines_as_set 3
           ["p edge 3 2"; "e 1 2"; "e 2 3"]%string
           ["e 2 3"; "e 1 2"; "e 2 3"; "p edge 3 2"]%string).
  - reflexivity.
  - intros l. rewrite !elem_of_cons, !elem_of_nil. 
    split; intros H; repeat destruct H as [H|H]; subst; tauto.
  - reflexivity.
Defined.

(** ** The random constructor: which draw decides which edge
    ([graph.tpp], lines 36-49) *)

(** The number of draws made before row [i] starts. *)
Fixpoint row_offset (dim i : nat) : nat :=
  match i with
  | O => 0
  | S i' => row_offset dim i' + (dim - S i')
  end.

(** The number of the call [dist(gen)] made for the pair [i < j]. *)
Definition draw_index (dim i j : nat) : nat :=
  (row_offset dim i + (j - S i))%nat.

Section RandomDraws.
Import Graph.
Variable dim : nat.
Variable draws : nat → bool.

Lemma row_offset_closed (i : nat) :
  (i ≤ dim)%nat → (2 * row_offset dim i + i * (i + 1) = 2 * i * dim)%nat.
Proof.
  induction i as [|i IH]; intros Hi; simpl; [lia|].
  specialize (IH ltac:(lia)). nia.
Qed.

Lemma row_offset_mono (i i' : nat) :
  (i ≤ i')%nat → (row_offset dim i ≤ row_offset dim i')%nat.
Proof. induction 1; simpl; lia. Qed.

(** The draws of row [i] are numbered from [row_offset dim i] up to, and
    not including, [row_offset dim (S i)]. *)
Lemma draw_index_row (i j : nat) :
  (i < j)%nat → (j < dim)%nat →
  (row_offset dim i ≤ draw_index dim i j < row_offset dim (S i))%nat.
Proof. intros Hij Hj. unfold draw_index. simpl. lia. Qed.

Lemma draw_index_injective (i j i' j' : nat) :
  (i < j)%nat → (j < dim)%nat → (i' < j')%nat → (j' < dim)%nat →
  draw_index dim i j = draw_index dim i' j' → i = i' ∧ j = j'.
Proof.
  intros Hij Hj Hij' Hj' Heq.
  pose proof (draw_index_row i j Hij Hj) as Hr.
  pose proof (draw_index_row i' j' Hij' Hj') as Hr'.
  assert (i = i') as <-.
  { destruct (Nat.lt_trichotomy i i') as [Hlt|[?|Hlt]]; [|assumption|].
    - pose proof (row_offset_mono (S i) i' ltac:(lia)). lia.
    - pose proof (row_offset_mono (S i') i ltac:(lia)). lia. }
  split; [reflexivity|]. unfold draw_index in Heq. lia.
Qed.

Lemma draw_index_bound (i j : nat) :
  (i < j)%nat → (j < dim)%nat → (2 * draw_index dim i j < dim * (dim - 1))%nat.
Proof.
  intros Hij Hj.
  pose proof (draw_index_row i j Hij Hj) as Hr.
  pose proof (row_offset_mono (S i) dim ltac:(lia)).
  pose proof (row_offset_closed dim ltac:(lia)). nia.
Qed.

(** The inner loop: the entries of row and column [i] from [j] on receive
    the draws numbered from [k]; everything else is left as it was. *)
Lemma fill_row_adj (i j todo k : nat) (m : matrix) :
  square dim m → (i < j)%nat → (j + todo ≤ dim)%nat →
  square dim (fill_row draws i j todo k m).1 ∧
  (fill_row draws i j todo k m).2 = (k + todo)%nat ∧
  ∀ a c : nat,
    adj (fill_row draws i j todo k m).1 a c
    = if decide ((a = i ∧ j ≤ c < j + todo) ∨ (c = i ∧ j ≤ a < j + todo))%nat
      then draws (k + (Nat.max a c - j))%nat
      else adj m a c.
Proof.
  revert j k m. induction todo as [|todo IH]; intros j k m Hsq Hij Hj; simpl.
  - split; [exact Hsq|]. split; [lia|]. intros a c.
    rewrite decide_False by lia. reflexivity.
  - destruct (IH (S j) (S k) _ (square_pair dim m i j (draws k) Hsq)
                ltac:(lia) ltac:(lia)) as (Hsq' & Hk & Hadj).
    split; [exact Hsq'|]. split; [lia|]. intros a c.
    rewrite (Hadj a c), (adj_pair dim) by (assumption || lia).
    repeat case_decide; try reflexivity; try (exfalso; lia).
    all: f_equal; lia.
Qed.

(** The outer loop, above the diagonal. *)
Lemma fill_rows_adj (i todo : nat) (m : matrix) (a c : nat) :
  square dim m → (i + todo ≤ dim)%nat → (a < c)%nat → (c < dim)%nat →
  adj (fill_rows draws dim i todo (row_offset dim i) m) a c
  = if decide (i ≤ a < i + todo)%nat then draws (draw_index dim a c)
    else adj m a c.
Proof.
  revert i m. induction todo as [|todo IH]; intros i m Hsq Hi Hac Hc; simpl.
  - rewrite decide_False by lia. reflexivity.
  - destruct (fill_row_adj i (S i) (dim - S i) (row_offset dim i) m Hsq
                ltac:(lia) ltac:(lia)) as (Hsq1 & Hk1 & Hadj1).
    destruct (fill_row draws i (S i) (dim - S i) (row_offset dim i) m)
      as [m1 k1].
    simpl in Hsq1, Hk1, Hadj1. subst k1.
    change (row_offset dim i + (dim - S i))%nat with (row_offset dim (S i)).
    rewrite IH by (try apply square_alter; assumption || lia).
    rewrite (adj_alter dim) by (assumption || lia).
    rewrite (decide_False (P := a = i ∧ c = i)) by lia.
    rewrite (Hadj1 a c). unfold draw_index.
    repeat case_decide; try reflexivity; try (exfalso; lia).
    assert (a = i) as -> by lia. f_equal. lia.
Qed.

End RandomDraws.

(** Every pair of vertices [i < j] gets a draw of its own: the edge is
    the result of call number [draw_index dim i j] of the generator, stored
    in both orientations; two different pairs never share a call, and
    [dim * (dim - 1) / 2] calls are made in all. *)
Theorem random_graph_draws (dim : nat) (draws : nat → bool) (i j : nat) :
  (i < j)%nat → (j < dim)%nat →
  Graph.adj (Graph.graph_random dim draws) i j = draws (draw_index dim i j) ∧
  Graph.adj (Graph.graph_random dim draws) j i = draws (draw_index dim i j) ∧
  (2 * draw_index dim i j < dim * (dim - 1))%nat ∧
  ∀ i' j' : nat, (i' < j')%nat → (j' < dim)%nat →
    draw_index dim i j = draw_index dim i' j' → i = i' ∧ j = j'.
Proof.
  intros Hij Hj.
  assert (Graph.adj (Graph.graph_random dim draws) i j
          = draws (draw_index dim i j)) as Hadj.
  { pose proof (fill_rows_adj dim draws 0 dim _ i j (square_zero dim)
                  ltac:(lia) Hij Hj) as Hf.
    rewrite decide_True in Hf by lia. exact Hf. }
  split; [exact Hadj|].
  split.
  { destruct (graph_random_undirected dim draws) as (_ & Hsym & _).
    rewrite <- (Hsym i j) by lia. exact Hadj. }
  split; [apply draw_index_bound; assumption|].
  intros i' j' Hij' Hj'. apply draw_index_injective; assumption.
Qed.

Lemma random_graph_draws_witness :
  Graph.adj (Graph.graph_random 4 Nat.even) 1 3 = Nat.even (draw_index 4 1 3) ∧
  Graph.adj (Graph.graph_random 4 Nat.even) 3 1 = Nat.even (draw_index 4 1 3) ∧
  (2 * draw_index 4 1 3 < 4 * (4 - 1))%nat ∧
  ∀ i' j' : nat, (i' < j')%nat → (j' < 4)%nat →
    draw_index 4 1 3 = draw_index 4 i' j' → 1%nat = i' ∧ 3%nat = j'.
Proof. apply (random_graph_draws 4 Nat.even 1 3); lia. Defined.

(** When every draw gives the same answer (a density of [0] or of [1]), the
    constructor builds the graph without an edge, respectively the complete
    graph: [adj(i, j)] is the common answer off the diagonal. *)
Theorem random_graph_constant (dim : nat) (draws : nat → bool) (b : bool)
    (i j : nat) :
  (∀ k, draws k = b) → (i < dim)%nat → (j < dim)%nat →
  Graph.adj (Graph.graph_random dim draws) i j
  = if decide (i = j) then false else b.
Proof.
  intros Hb Hi Hj.
  destruct (graph_random_undirected dim draws) as (_ & Hsym & Hirr).
  case_decide as Hij.
  - subst j. apply Hirr, Hi.
  - assert (∀ a c, (a < c)%nat → (c < dim)%nat →
              Graph.adj (Graph.graph_random dim draws) a c = b) as Hup.
    { intros a c Hac Hc.
      pose proof (fill_rows_adj dim draws 0 dim _ a c (square_zero dim)
                    ltac:(lia) Hac Hc) as Hf.
      rewrite decide_True in Hf by lia. rewrite <- (Hb (draw_index dim a c)).
      exact Hf. }
    destruct (Nat.lt_trichotomy i j) as [Hlt|[?|Hlt]]; [|contradiction|].
    + apply Hup; assumption.
    + rewrite (Hsym i j Hi Hj). apply Hup; assumption.
Qed.

Lemma random_graph_constant_witness :
  Graph.adj (Graph.graph_random 3 (λ _, true)) 2 0
  = if decide (2%nat = 0%nat) then false else true.
Proof. apply (random_graph_constant 3 (λ _, true) true 2 0); [reflexivity|lia..]. Defined.

(** ** Sending the graph to the workers ([main.cpp], [broadcast_graph],
    lines 47-87) *)

Module Bcast.

(** Conversion of a [size_t] to the [int] parameter [count] of [MPI_Bcast]. *)
Definition to_int (z : Z) : Z := (z + 2 ^ 31) mod 2 ^ 32 - 2 ^ 31.

(** [g.m[i][j] ? 1 : 0] and [buffer[...] != 0]. *)
Definition char_of_bool (b : bool) : Z := if b then 1 else 0.
Definition bool_of_char (x : Z) : bool := negb (x =? 0).

(** Step 3 on the root, inner loop [for (j = 0; j < dim; ++j)], started at
    [j] with [todo] iterations left.  Reading an entry that the table does
    not have is reported as [None]. *)
Fixpoint pack_row (dim : nat) (m : Graph.matrix) (i j todo : nat)
    (buffer : list Z) : option (list Z) :=
  match todo with
  | O => Some buffer
  | S todo' =>
    row ← m !! i;
    b ← row !! j;
    pack_row dim m i (S j) todo' (<[(i * dim + j)%nat := char_of_bool b]> buffer)
  end.

(** Outer loop [for (i = 0; i < dim; ++i)], started at [i]. *)
Fixpoint pack_rows (dim : nat) (m : Graph.matrix) (i todo : nat)
    (buffer : list Z) : option (list Z) :=
  match todo with
  | O => Some buffer
  | S todo' =>
    buffer' ← pack_row dim m i 0 dim buffer;
    pack_rows dim m (S i) todo' buffer'
  end.

(** The buffer the root hands to [MPI_Bcast]:
    [std::vector<char> buffer(dim * dim)], then the two loops. *)
Definition root_buffer (dim : nat) (m : Graph.matrix) : option (list Z) :=
  pack_rows dim m 0 dim (replicate (dim * dim) 0).

(** [MPI_Bcast(buffer.data(), count, MPI_CHAR, root, comm)] on a rank other
    than the root: the first [count] elements of the local buffer are
    replaced by those of the root.  A negative count, counts that differ
    between the root and the receiver, or a count above the size of a
    buffer make the call erroneous. *)
Definition mpi_bcast (root_count count : Z) (sent local : list Z)
  : option (list Z) :=
  if decide (0 ≤ root_count ∧ root_count = count ∧
             count ≤ Z.of_nat (length sent) ∧ count ≤ Z.of_nat (length local))
  then Some (take (Z.to_nat count) sent ++ drop (Z.to_nat count) local)
  else None.

(** Step 2: [g.m.resize(dim, std::vector<bool>(dim))] keeps the rows the
    table has, up to [dim] of them, and appends rows of [dim] entries. *)
Definition resize (dim : nat) (m : Graph.matrix) : Graph.matrix :=
  take dim m ++ replicate (dim - length m) (replicate dim false).

(** [g.m[i][j] = b] on the receiver; a write outside a row is reported as
    [None]. *)
Definition set_entry (m : Graph.matrix) (i j : nat) (b : bool)
  : option Graph.matrix :=
  row ← m !! i;
  if decide (j < length row)%nat then Some (alter (<[j := b]>) i m) else None.

(** Step 5, inner and outer loop. *)
Fixpoint unpack_row (dim : nat) (buffer : list Z) (i j todo : nat)
    (m : Graph.matrix) : option Graph.matrix :=
  match todo with
  | O => Some m
  | S todo' =>
    x ← buffer !! (i * dim + j)%nat;
    m' ← set_entry m i j (bool_of_char x);
    unpack_row dim buffer i (S j) todo' m'
  end.

Fixpoint unpack_rows (dim : nat) (buffer : list Z) (i todo : nat)
    (m : Graph.matrix) : option Graph.matrix :=
  match todo with
  | O => Some m
  | S todo' =>
    m' ← unpack_row dim buffer i 0 dim m;
    unpack_rows dim buffer (S i) todo' m'
  end.

(** The table a rank other than the root holds when [broadcast_graph]
    returns: [dim] and [root_m] are the dimension and the table of the
    root, [m0] the table of the receiver before the call. *)
Definition broadcast_graph (dim : nat) (root_m m0 : Graph.matrix)
  : option Graph.matrix :=
  (* step 1: the dimension travels as an [unsigned int] *)
  let dim' := Z.to_nat (u32 (Z.of_nat dim)) in
  (* step 2 *)
  let m1 := resize dim' m0 in
  (* step 3 *)
  sent ← root_buffer dim root_m;
  let local := replicate (dim' * dim') 0 in
  (* step 4 *)
  received ← mpi_bcast (to_int (Z.of_nat (length sent)))
                       (to_int (Z.of_nat (length local))) sent local;
  (* step 5 *)
  unpack_rows dim' received 0 dim' m1.

End Bcast.

Section BcastFacts.
Import Graph Bcast.
Variable dim : nat.

(** The position of entry [(a, c)] in the buffer determines the entry. *)
Lemma row_major_injective (a c i j : nat) :
  (c < dim)%nat → (j < dim)%nat →
  (a * dim + c = i * dim + j)%nat → a = i ∧ c = j.
Proof. intros Hc Hj Heq. assert (a = i) by nia. subst. lia. Qed.

Lemma row_major_bound (a c : nat) :
  (a < dim)%nat → (c < dim)%nat → (a * dim + c < dim * dim)%nat.
Proof. nia. Qed.

Lemma square_lookup (m : matrix) (i j : nat) :
  square dim m → (i < dim)%nat → (j < dim)%nat →
  ∃ row, m !! i = Some row ∧ length row = dim ∧ row !! j = Some (adj m i j).
Proof.
  intros [Hlen Hrows] Hi Hj.
  destruct (lookup_lt_is_Some_2 m i) as [row Hrow]; [lia|].
  rewrite Forall_lookup in Hrows. pose proof (Hrows i row Hrow) as Hr.
  destruct (lookup_lt_is_Some_2 row j) as [b Hb]; [lia|].
  exists row. split; [exact Hrow|]. split; [exact Hr|].
  unfold adj. rewrite Hrow. simpl. rewrite Hb. reflexivity.
Qed.

Lemma pack_row_spec (m : matrix) (i j todo : nat) (buffer : list Z) :
  square dim m → (i < dim)%nat → (j + todo ≤ dim)%nat →
  length buffer = (dim * dim)%nat →
  ∃ buffer',
    pack_row dim m i j todo buffer = Some buffer' ∧
    length buffer' = (dim * dim)%nat ∧
    ∀ a c : nat, (c < dim)%nat →
      buffer' !! (a * dim + c)%nat
      = if decide (a = i ∧ j ≤ c < j + todo)%nat
        then Some (char_of_bool (adj m i c))
        else buffer !! (a * dim + c)%nat.
Proof.
  intros Hsq Hi. revert j buffer.
  induction todo as [|todo IH]; intros j buffer Hj Hlen; simpl.
  - exists buffer. split; [reflexivity|]. split; [exact Hlen|].
    intros a c Hc. rewrite decide_False by lia. reflexivity.
  - destruct (square_lookup m i j Hsq Hi ltac:(lia)) as (row & Hrow & _ & Hb).
    rewrite Hrow. simpl. rewrite Hb. simpl.
    destruct (IH (S j) (<[(i * dim + j)%nat := char_of_bool (adj m i j)]> buffer)
                ltac:(lia) ltac:(rewrite length_insert; exact Hlen))
      as (buffer' & -> & Hlen' & Hget).
    exists buffer'. split; [reflexivity|]. split; [exact Hlen'|].
    intros a c Hc. rewrite (Hget a c Hc).
    destruct (decide (a = i ∧ c = j)) as [[-> ->]|Hne].
    + rewrite decide_False by lia. rewrite decide_True by lia.
      apply list_lookup_insert_eq. rewrite Hlen.
      apply row_major_bound; lia.
    + rewrite list_lookup_insert_ne.
      * repeat case_decide; try reflexivity; exfalso; lia.
      * intros Heq. apply Hne. symmetry in Heq.
        apply row_major_injective in Heq; [tauto|lia..].
Qed.

Lemma pack_rows_spec (m : matrix) (i todo : nat) (buffer : list Z) :
  square dim m → (i + todo ≤ dim)%nat →
  length buffer = (dim * dim)%nat →
  ∃ buffer',
    pack_rows dim m i todo buffer = Some buffer' ∧
    length buffer' = (dim * dim)%nat ∧
    ∀ a c : nat, (c < dim)%nat →
      buffer' !! (a * dim + c)%nat
      = if decide (i ≤ a < i + todo)%nat
        then Some (char_of_bool (adj m a c))
        else buffer !! (a * dim + c)%nat.
Proof.
  intros Hsq. revert i buffer.
  induction todo as [|todo IH]; intros i buffer Hi Hlen; simpl.
  - exists buffer. split; [reflexivity|]. split; [exact Hlen|].
    intros a c Hc. rewrite decide_False by lia. reflexivity.
  - destruct (pack_row_spec m i 0 dim buffer Hsq ltac:(lia) ltac:(lia) Hlen)
      as (b1 & -> & Hlen1 & Hget1).
    simpl.
    destruct (IH (S i) b1 ltac:(lia) Hlen1) as (b2 & -> & Hlen2 & Hget2).
    exists b2. split; [reflexivity|]. split; [exact Hlen2|].
    intros a c Hc. rewrite (Hget2 a c Hc), (Hget1 a c Hc).
    repeat case_decide; try reflexivity; try (exfalso; lia).
    assert (a = i) as -> by lia. reflexivity.
Qed.

Lemma set_entry_square (m : matrix) (i j : nat) (b : bool) :
  square dim m → (i < dim)%nat → (j < dim)%nat →
  set_entry m i j b = Some (alter (<[j := b]>) i m).
Proof.
  intros Hsq Hi Hj. unfold set_entry.
  destruct (square_lookup m i j Hsq Hi Hj) as (row & -> & Hrow & _).
  simpl. rewrite decide_True by lia. reflexivity.
Qed.

Lemma unpack_row_spec (buffer : list Z) (i j todo : nat) (m : matrix) :
  square dim m → (i < dim)%nat → (j + todo ≤ dim)%nat →
  length buffer = (dim * dim)%nat →
  ∃ m',
    unpack_row dim buffer i j todo m = Some m' ∧ square dim m' ∧
    ∀ a c : nat,
      adj m' a c
      = if decide (a = i ∧ j ≤ c < j + todo)%nat
        then bool_of_char (default 0 (buffer !! (a * dim + c)%nat))
        else adj m a c.
Proof.
  intros Hsq Hi. revert j m Hsq.
  induction todo as [|todo IH]; intros j m Hsq Hj Hlen; simpl.
  - exists m. split; [reflexivity|]. split; [exact Hsq|].
    intros a c. rewrite decide_False by lia. reflexivity.
  - destruct (lookup_lt_is_Some_2 buffer (i * dim + j)) as [x Hx].
    { rewrite Hlen. apply row_major_bound; lia. }
    rewrite Hx. simpl.
    rewrite (set_entry_square m i j _ Hsq Hi) by lia. simpl.
    destruct (IH (S j) _ (square_alter dim m i j (bool_of_char x) Hsq)
                ltac:(lia) Hlen) as (m' & -> & Hsq' & Hadj).
    exists m'. split; [reflexivity|]. split; [exact Hsq'|].
    intros a c. rewrite (Hadj a c), (adj_alter dim) by (assumption || lia).
    destruct (decide (a = i ∧ c = j)) as [[-> ->]|Hne].
    + rewrite decide_False by lia. rewrite decide_True by lia.
      rewrite Hx. reflexivity.
    + repeat case_decide; try reflexivity; exfalso; lia.
Qed.

Lemma unpack_rows_spec (buffer : list Z) (i todo : nat) (m : matrix) :
  square dim m → (i + todo ≤ dim)%nat →
  length buffer = (dim * dim)%nat →
  ∃ m',
    unpack_rows dim buffer i todo m = Some m' ∧ square dim m' ∧
    ∀ a c : nat, (c < dim)%nat →
      adj m' a c
      = if decide (i ≤ a < i + todo)%nat
        then bool_of_char (default 0 (buffer !! (a * dim + c)%nat))
        else adj m a c.
Proof.
  revert i m. induction todo as [|todo IH]; intros i m Hsq Hi Hlen; simpl.
  - exists m. split; [reflexivity|]. split; [exact Hsq|].
    intros a c Hc. rewrite decide_False by lia. reflexivity.
  - destruct (unpack_row_spec buffer i 0 dim m Hsq ltac:(lia) ltac:(lia) Hlen)
      as (m1 & -> & Hsq1 & Hadj1).
    simpl.
    destruct (IH (S i) m1 Hsq1 ltac:(lia) Hlen) as (m2 & -> & Hsq2 & Hadj2).
    exists m2. split; [reflexivity|]. split; [exact Hsq2|].
    intros a c Hc. rewrite (Hadj2 a c Hc), (Hadj1 a c).
    repeat case_decide; try reflexivity; try (exfalso; lia).
Qed.

Lemma resize_square (m0 : matrix) :
  Forall (λ row, length row = dim) (take dim m0) → square dim (resize dim m0).
Proof.
  intros Hrows. unfold resize. split.
  - rewrite length_app, length_take, length_replicate. lia.
  - apply Forall_app. split; [exact Hrows|].
    apply Forall_replicate, length_replicate.
Qed.

Lemma bool_of_char_of_bool (b : bool) : bool_of_char (char_of_bool b) = b.
Proof. destruct b; reflexivity. Qed.

Lemma to_int_small (z : Z) : 0 ≤ z < 2 ^ 31 → to_int z = z.
Proof. intros Hz. unfold to_int. rewrite Z.mod_small by lia. lia. Qed.

Lemma pack_row_length (m : matrix) (i j todo : nat) (buffer buffer' : list Z) :
  pack_row dim m i j todo buffer = Some buffer' → length buffer' = length buffer.
Proof.
  revert j buffer. induction todo as [|todo IH]; intros j buffer; simpl.
  - intros [= <-]. reflexivity.
  - destruct (m !! i) as [row|]; [|discriminate]. simpl.
    destruct (row !! j) as [b|]; [|discriminate]. simpl.
    intros Hrest. rewrite (IH _ _ Hrest). apply length_insert.
Qed.

Lemma pack_rows_length (m : matrix) (i todo : nat) (buffer buffer' : list Z) :
  pack_rows dim m i todo buffer = Some buffer' → length buffer' = length buffer.
Proof.
  revert i buffer. induction todo as [|todo IH]; intros i buffer; simpl.
  - intros [= <-]. reflexivity.
  - destruct (pack_row dim m i 0 dim buffer) as [b1|] eqn:Hrow; [|discriminate].
    simpl. intros Hrest. rewrite (IH _ _ Hrest).
    eapply pack_row_length, Hrow.
Qed.

End BcastFacts.

(** The buffer the root broadcasts holds the table row by row: it has
    [dim * dim] entries, and entry [i * dim + j] is [1] when [adj(i, j)]
    holds and [0] otherwise. *)
Theorem root_buffer_row_major (dim : nat) (m : Graph.matrix) :
  Graph.square dim m →
  ∃ buffer,
    Bcast.root_buffer dim m = Some buffer ∧
    length buffer = (dim * dim)%nat ∧
    ∀ i j : nat, (i < dim)%nat → (j < dim)%nat →
      buffer !! (i * dim + j)%nat = Some (Bcast.char_of_bool (Graph.adj m i j)).
Proof.
  intros Hsq.
  destruct (pack_rows_spec dim m 0 dim (replicate (dim * dim) 0) Hsq
              ltac:(lia) ltac:(apply length_replicate))
    as (buffer & Hpack & Hlen & Hget).
  exists buffer. split; [exact Hpack|]. split; [exact Hlen|].
  intros i j Hi Hj. rewrite (Hget i j Hj).
  rewrite decide_True by lia. reflexivity.
Qed.

Lemma root_buffer_row_major_witness :
  ∃ buffer,
    Bcast.root_buffer 2 edge2 = Some buffer ∧
    length buffer = (2 * 2)%nat ∧
    ∀ i j : nat, (i < 2)%nat → (j < 2)%nat →
      buffer !! (i * 2 + j)%nat = Some (Bcast.char_of_bool (Graph.adj edge2 i j)).
Proof.
  apply (root_buffer_row_major 2 edge2).
  split; [reflexivity|]. repeat constructor.
Defined.

(** A rank other than the root ends [broadcast_graph] with the table of the
    root, entry for entry, when the table has fewer than [2^31] entries
    (so that its size fits the [int] count of [MPI_Bcast]) and the rows the
    receiver already holds have [dim] entries. *)
Theorem broadcast_graph_roundtrip (dim : nat) (m m0 : Graph.matrix) :
  Z.of_nat dim * Z.of_nat dim < 2 ^ 31 →
  Graph.square dim m →
  Forall (λ row, length row = dim) (take dim m0) →
  Bcast.broadcast_graph dim m m0 = Some m.
Proof.
  intros Hsmall Hsq Hrows. unfold Bcast.broadcast_graph.
  assert (Z.to_nat (u32 (Z.of_nat dim)) = dim) as ->.
  { unfold u32, UINT_MOD. rewrite Z.mod_small by nia. apply Nat2Z.id. }
  destruct (pack_rows_spec dim m 0 dim (replicate (dim * dim) 0) Hsq
              ltac:(lia) ltac:(apply length_replicate))
    as (sent & Hpack & Hlen & Hget).
  unfold Bcast.root_buffer. rewrite Hpack. simpl.
  rewrite Hlen, length_replicate.
  rewrite Nat2Z.inj_mul, to_int_small by lia.
  unfold Bcast.mpi_bcast. rewrite Hlen, length_replicate, Nat2Z.inj_mul.
  rewrite decide_True by lia. simpl.
  rewrite <- Nat2Z.inj_mul, Nat2Z.id.
  rewrite take_ge, drop_ge, app_nil_r by (rewrite ?length_replicate; lia).
  destruct (unpack_rows_spec dim sent 0 dim (Bcast.resize dim m0)
              (resize_square dim m0 Hrows) ltac:(lia) Hlen)
    as (m' & -> & Hsq' & Hadj).
  f_equal. apply (square_ext dim); [exact Hsq'|exact Hsq|].
  intros i j Hi Hj. rewrite (Hadj i j Hj), decide_True by lia.
  rewrite (Hget i j Hj), decide_True by lia. simpl.
  apply bool_of_char_of_bool.
Qed.

Lemma broadcast_graph_roundtrip_witness :
  Bcast.broadcast_graph 5 cycle5 [] = Some cycle5.
Proof.
  apply (broadcast_graph_roundtrip 5 cycle5 []).
  - reflexivity.
  - split; [reflexivity|]. repeat constructor.
  - constructor.
Defined.

(** The size of the buffer is passed to [MPI_Bcast] as an [int]: for a graph
    whose [dim * dim] entries number [2^31] or more (and fewer than [2^32]),
    that is from [46341] vertices on, the count is negative and the
    broadcast of the table fails, whatever the tables are. *)
Theorem broadcast_graph_count_overflow (dim : nat) (m m0 : Graph.matrix) :
  2 ^ 31 ≤ Z.of_nat dim * Z.of_nat dim < 2 ^ 32 →
  Bcast.to_int (Z.of_nat (dim * dim)) < 0 ∧
  Bcast.broadcast_graph dim m m0 = None.
Proof.
  intros Hbig.
  assert (Bcast.to_int (Z.of_nat (dim * dim)) < 0) as Hneg.
  { unfold Bcast.to_int. rewrite Nat2Z.inj_mul.
    replace (Z.of_nat dim * Z.of_nat dim + 2 ^ 31)
      with (Z.of_nat dim * Z.of_nat dim - 2 ^ 31 + 1 * 2 ^ 32) by lia.
    rewrite Z.mod_add by lia. rewrite Z.mod_small by lia. lia. }
  split; [exact Hneg|].
  unfold Bcast.broadcast_graph.
  destruct (Bcast.root_buffer dim m) as [sent|] eqn:Hsent; [|reflexivity].
  simpl. unfold Bcast.root_buffer in Hsent.
  apply pack_rows_length in Hsent. rewrite length_replicate in Hsent.
  rewrite Hsent. unfold Bcast.mpi_bcast.
  rewrite decide_False by lia. reflexivity.
Qed.

Lemma broadcast_graph_count_overflow_witness :
  Bcast.to_int (Z.of_nat (Z.to_nat 46341 * Z.to_nat 46341)) < 0 ∧
  Bcast.broadcast_graph (Z.to_nat 46341) [] [] = None.
Proof.
  apply (broadcast_graph_count_overflow (Z.to_nat 46341) [] []).
  split; vm_compute; [discriminate|reflexivity].
Defined.

(** ** The wire format of a search node, without assumptions on the node
    ([main.cpp], [send_solution] and [receive_solution], lines 21-45) *)

(** The node cut or padded to [dim] colours, its members as
    [unsigned int]s. *)
Definition on_wire (dim : nat) (sol : solution) : solution :=
  {| color := take dim ((u32 <$> color sol) ++ replicate dim 0);
     tot_colors := u32 (tot_colors sol);
     next := u32 (next sol) |}.

Section WireGeneral.
Variable dim : nat.

Lemma send_solution_buffer (sol : solution) (buffer : list Z) :
  Wire.send_solution dim sol = Some buffer →
  (length (color sol) ≤ dim + 2)%nat ∧
  buffer = <[(dim + 1)%nat := u32 (next sol)]>
             (<[dim := u32 (tot_colors sol)]>
                ((u32 <$> color sol)
                 ++ replicate (dim + 2 - length (color sol)) 0)).
Proof.
  unfold Wire.send_solution, Wire.copy_into, Wire.fresh_buffer.
  rewrite length_replicate.
  case_decide as Hlen; [|discriminate]. simpl.
  rewrite drop_replicate. unfold Wire.store.
  rewrite decide_True
    by (rewrite length_app, length_fmap, length_replicate; lia).
  simpl.
  rewrite decide_True
    by (rewrite length_insert, length_app, length_fmap, length_replicate; lia).
  intros [= <-]. split; [exact Hlen|reflexivity].
Qed.

Lemma send_solution_overflow (sol : solution) :
  Wire.send_solution dim sol = None ↔ (dim + 2 < length (color sol))%nat.
Proof.
  split.
  - intros Hnone.
    destruct (decide (length (color sol) ≤ dim + 2)%nat) as [Hle|]; [|lia].
    exfalso. revert Hnone.
    unfold Wire.send_solution, Wire.copy_into, Wire.fresh_buffer.
    rewrite length_replicate, decide_True by exact Hle. simpl.
    rewrite drop_replicate. unfold Wire.store.
    rewrite decide_True
      by (rewrite length_app, length_fmap, length_replicate; lia).
    simpl.
    rewrite decide_True
      by (rewrite length_insert, length_app, length_fmap, length_replicate; lia).
    discriminate.
  - intros Hlong.
    destruct (Wire.send_solution dim sol) as [buffer|] eqn:Hsend; [|reflexivity].
    apply send_solution_buffer in Hsend as [Hle _]. lia.
Qed.

End WireGeneral.

(** [send_solution] writes past its buffer exactly when the colour vector
    has more than [dim + 2] entries.  Otherwise the payload has [dim + 2]
    unsigned integers, and [receive_solution] unpacks from it the node with
    its colour vector cut or zero-padded to [dim] entries. *)
Theorem send_receive_on_wire (dim : nat) (sol : solution) :
  (Wire.send_solution dim sol = None ↔ (dim + 2 < length (color sol))%nat) ∧
  ∀ buffer,
    Wire.send_solution dim sol = Some buffer →
    length buffer = (dim + 2)%nat ∧ Forall is_u32 buffer ∧
    Wire.receive_solution dim buffer = Some (on_wire dim sol).
Proof.
  split; [apply send_solution_overflow|].
  intros buffer Hsend.
  apply send_solution_buffer in Hsend as [Hle ->].
  set (b0 := (u32 <$> color sol) ++ replicate (dim + 2 - length (color sol)) 0).
  assert (length b0 = (dim + 2)%nat) as Hb0.
  { unfold b0. rewrite length_app, length_fmap, length_replicate. lia. }
  split; [rewrite !length_insert; exact Hb0|].
  split.
  { apply Forall_insert; [|apply u32_range].
    apply Forall_insert; [|apply u32_range].
    unfold b0. apply Forall_app. split.
    - apply Forall_fmap, Forall_forall. intros x _. apply u32_range.
    - apply Forall_replicate. unfold is_u32, UINT_MOD. lia. }
  unfold Wire.receive_solution, Wire.recv_into, Wire.fresh_buffer.
  rewrite length_replicate, !length_insert, Hb0.
  rewrite decide_True by lia. simpl.
  rewrite drop_replicate, Nat.sub_diag. simpl. rewrite app_nil_r.
  unfold on_wire. f_equal. f_equal.
  - rewrite !take_insert, !decide_False by lia. unfold b0.
    rewrite !take_app, length_fmap, !take_replicate.
    f_equal. f_equal. lia.
  - rewrite list_lookup_insert_ne by lia.
    rewrite list_lookup_insert_eq by lia. reflexivity.
  - rewrite list_lookup_insert_eq by (rewrite length_insert; lia). reflexivity.
Qed.

(** Unpacking a payload of [dim + 2] unsigned integers and packing the node
    again gives the payload back. *)
Theorem receive_send_roundtrip (dim : nat) (payload : list Z) :
  length payload = (dim + 2)%nat → Forall is_u32 payload →
  ∃ sol,
    Wire.receive_solution dim payload = Some sol ∧
    node_shape dim sol ∧
    Wire.send_solution dim sol = Some payload.
Proof.
  intros Hlen Hall.
  assert (∃ cs t x, payload = cs ++ [t; x] ∧ length cs = dim)
    as (cs & t & x & -> & Hcs).
  { exists (take dim payload).
    destruct (drop dim payload) as [|t [|x [|y rest]]] eqn:Hdrop;
      pose proof (f_equal length Hdrop) as Hl;
      rewrite length_drop, Hlen in Hl; simpl in Hl; try lia.
    exists t, x. split; [|rewrite length_take; lia].
    rewrite <- Hdrop. symmetry. apply take_drop. }
  apply Forall_app in Hall as [Hc Htx].
  apply Forall_cons in Htx as [Ht Hx]. apply Forall_cons in Hx as [Hx _].
  exists {| color := cs; tot_colors := t; next := x |}.
  split; [apply receive_solution_shape, Hcs|].
  assert (node_shape dim {| color := cs; tot_colors := t; next := x |}) as Hshape.
  { split; [exact Hcs|]. split; [exact Hc|]. split; assumption. }
  split; [exact Hshape|].
  rewrite (send_solution_shape dim _ Hshape). reflexivity.
Qed.

Lemma receive_send_roundtrip_witness :
  ∃ sol,
    Wire.receive_solution 3 [1; 2; 1; 2; 3] = Some sol ∧
    node_shape 3 sol ∧
    Wire.send_solution 3 sol = Some [1; 2; 1; 2; 3].
Proof.
  apply (receive_send_roundtrip 3 [1; 2; 1; 2; 3]); [reflexivity|].
  repeat constructor; unfold UINT_MOD; lia.
Defined.

(** ** The engine, for every implementation of the search node ([main.cpp]) *)

(** The process an event belongs to. *)
Definition event_rank (e : event) : nat :=
  match e with
  | EvRead r _ _ | EvWrite r _ _ _ | EvSpawn r | EvBarrier r
  | EvPrint r _ | EvAbort r _ => r
  | EvSend src _ _ => src
  | EvBcast _ => 0
  end.

(** An access to the bound, or a message, of the main thread of [rank]. *)
Definition main_thread_event (rank : nat) (e : event) : Prop :=
  match e with
  | EvRead r MainThread _ | EvWrite r MainThread _ _ => r = rank
  | EvSend src _ _ => src = rank
  | _ => False
  end.

(** The values rank 0 broadcasts, in order. *)
Definition bcast_values (evs : list event) : list Z :=
  omap (λ e, match e with EvBcast v => Some v | _ => None end) evs.

(** Each value is below the one before it, starting below [v]. *)
Fixpoint decreasing_from (v : Z) (l : list Z) : Prop :=
  match l with
  | [] => True
  | x :: l' => x < v ∧ decreasing_from x l'
  end.

Section EngineFacts.
Context `{NodeOps}.

(** *** The queue of the seeding loop never outgrows the workers *)

Lemma seed_body_length (W : nat) (curr : solution) (rest : list solution)
    (ub : Z) (b : solution) :
  (S (length rest) ≤ W)%nat →
  (length (initial_q (seed_body W curr rest ub b).1.2) ≤ W)%nat.
Proof.
  intros Hlen. unfold seed_body.
  destruct (is_final curr); simpl.
  - destruct (tot_colors curr <? ub); simpl; lia.
  - destruct (ub <=? tot_colors curr); simpl; [lia|].
    destruct (length rest + length (get_next ub curr) <=? W)%nat eqn:Hfit; simpl.
    + apply Nat.leb_le in Hfit. rewrite length_app. lia.
    + rewrite length_app. simpl. lia.
Qed.

Lemma seed_loop_length (fuel W : nat) (st st' : seed) (evs : list event) :
  seed_loop fuel W st = Some (st', evs) →
  (length (initial_q st) ≤ W)%nat → (length (initial_q st') ≤ W)%nat.
Proof.
  revert st st' evs. induction fuel as [|fuel IH]; intros st st' evs; simpl;
    [discriminate|].
  destruct (initial_q st) as [|curr rest] eqn:Hq.
  { intros [= <- _] _. rewrite Hq. simpl. lia. }
  intros Hloop Hlen. simpl in Hlen.
  pose proof (seed_body_length W curr rest (s_ub st) (best_so_far st) Hlen) as Hb.
  destruct (seed_body W curr rest (s_ub st) (best_so_far st)) as [[fl st1] evs1].
  simpl in Hb. destruct fl.
  - destruct (seed_loop fuel W st1) as [[st2 evs2]|] eqn:Hrest; [|discriminate].
    injection Hloop as <- _. eapply IH; eassumption.
  - injection Hloop as <- _. exact Hb.
Qed.

(** *** The bound and the incumbent of the seeding loop *)

Lemma seed_body_incumbent (W : nat) (curr : solution) (rest : list solution)
    (ub : Z) (b : solution) :
  let '(_, st', evs) := seed_body W curr rest ub b in
  (s_ub st' = ub ∧ best_so_far st' = b) ∨
  (s_ub st' < ub ∧ is_final (best_so_far st') = true ∧
   tot_colors (best_so_far st') = s_ub st' ∧
   EvPrint 0 (best_so_far st') ∈ evs).
Proof.
  unfold seed_body. destruct (is_final curr) eqn:Hfin; simpl.
  - destruct (tot_colors curr <? ub) eqn:Hlt; simpl; [|left; tauto].
    apply Z.ltb_lt in Hlt. right. split; [exact Hlt|]. split; [exact Hfin|].
    split; [reflexivity|]. apply list_elem_of_further, list_elem_of_further, list_elem_of_here.
  - destruct (ub <=? tot_colors curr); simpl; [left; tauto|].
    destruct (length rest + length (get_next ub curr) <=? W)%nat; simpl;
      left; tauto.
Qed.

Lemma dispatch_shape (W : nat) (q : list solution) (first : list msg) :
  dispatch W q = Some first →
  (length q ≤ W)%nat ∧ length first = W ∧
  (∀ i s, q !! i = Some s →
     ∃ p, Wire.send_solution dim s = Some p ∧
          first !! i = Some (Msg INITIAL_NODE p)) ∧
  (∀ i, (length q ≤ i < W)%nat →
     ∃ p, Wire.send_solution dim blank = Some p ∧ first !! i = Some (Msg 0 p)).
Proof.
  unfold dispatch.
  destruct (mapM (Wire.send_solution dim) q) as [nodes|] eqn:Hnodes;
    [|discriminate].
  simpl. destruct (Wire.send_solution dim blank) as [dummy|]; [|discriminate].
  simpl. case_decide as Hle; [|discriminate]. intros [= <-].
  apply mapM_Some in Hnodes. pose proof (Forall2_length _ _ _ Hnodes) as Hlen.
  split; [lia|]. split.
  { rewrite length_app, length_fmap, length_replicate. lia. }
  split.
  - intros i s Hs.
    destruct (Forall2_lookup_l _ _ _ _ _ Hnodes Hs) as (p & Hp & Hsend).
    exists p. split; [exact Hsend|].
    rewrite lookup_app_l
      by (rewrite length_fmap; eapply lookup_lt_Some, Hp).
    rewrite list_lookup_fmap, Hp. reflexivity.
  - intros i Hi. exists dummy. split; [reflexivity|].
    rewrite lookup_app_r by (rewrite length_fmap; lia).
    apply lookup_replicate_2. rewrite length_fmap. lia.
Qed.

(** The queue of the seeding loop never outgrows the workers: with at least
    one worker, the loop ends with at most [size - 1] queued nodes, so that
    the dispatch has a rank for each of them. *)
Theorem seed_queue_fits (fuel W : nat) (st : seed) (evs : list event) :
  (1 ≤ W)%nat →
  seed_loop fuel W seed_init = Some (st, evs) →
  (length (initial_q st) ≤ W)%nat.
Proof.
  intros HW Hloop. eapply seed_loop_length; [exact Hloop|]. simpl. exact HW.
Qed.

(** When rank 0 dispatches, it sends exactly one message to every worker:
    the queued nodes, in queue order, to the ranks from [1] on with the tag
    [INITIAL_NODE], and the default node with the tag [0] to every
    remaining rank.  Nothing is sent before. *)
Theorem dispatch_one_message_per_rank (fuel W : nat) (first : list msg)
    (st : seed) (evs : list event) :
  coordinator_main fuel W = Some (Dispatched first, st, evs) →
  (1 ≤ length (initial_q st) ≤ W)%nat ∧
  length first = W ∧
  (∀ i s, initial_q st !! i = Some s →
     ∃ p, Wire.send_solution dim s = Some p ∧
          first !! i = Some (Msg INITIAL_NODE p)) ∧
  (∀ i, (length (initial_q st) ≤ i < W)%nat →
     ∃ p, Wire.send_solution dim blank = Some p ∧ first !! i = Some (Msg 0 p)) ∧
  ∃ pre,
    evs = pre ++ send_events first ++ [EvSpawn 0; EvBarrier 0] ∧
    Forall (λ e, ¬ is_send e) pre.
Proof.
  unfold coordinator_main.
  destruct (seed_loop fuel W seed_init) as [[st0 evs0]|] eqn:Hloop;
    [|discriminate].
  simpl.
  destruct (initial_q st0) as [|x q] eqn:Hq; [discriminate|].
  destruct (dispatch W (x :: q)) as [first0|] eqn:Hdisp; [|discriminate].
  simpl. intros [= <- <- <-].
  rewrite Hq.
  destruct (dispatch_shape W (x :: q) first0 Hdisp) as (Hle & Hlen & Hq1 & Hq2).
  split; [simpl in *; lia|]. split; [exact Hlen|].
  split; [exact Hq1|]. split; [exact Hq2|].
  exists evs0. split; [reflexivity|]. eapply seed_loop_no_send, Hloop.
Qed.

(** Whenever the seeding loop has lowered the bound, the bound is the
    number of colours of [best_so_far], which is a final node and has been
    printed; otherwise the bound and [best_so_far] are those the loop
    started with. *)
Theorem seed_incumbent (fuel W : nat) (st st' : seed) (evs : list event) :
  seed_loop fuel W st = Some (st', evs) →
  (s_ub st' = s_ub st ∧ best_so_far st' = best_so_far st) ∨
  (s_ub st' < s_ub st ∧ is_final (best_so_far st') = true ∧
   tot_colors (best_so_far st') = s_ub st' ∧
   EvPrint 0 (best_so_far st') ∈ evs).
Proof.
  revert st st' evs. induction fuel as [|fuel IH]; intros st st' evs; simpl;
    [discriminate|].
  destruct (initial_q st) as [|curr rest].
  { intros [= <- _]. left. tauto. }
  pose proof (seed_body_incumbent W curr rest (s_ub st) (best_so_far st)) as Hb.
  destruct (seed_body W curr rest (s_ub st) (best_so_far st)) as [[fl st1] evs1].
  destruct fl.
  - destruct (seed_loop fuel W st1) as [[st2 evs2]|] eqn:Hrest; [|discriminate].
    simpl. intros [= <- <-].
    destruct (IH _ _ _ Hrest) as [[Hu2 Hb2]|(Hu2 & Hf2 & Ht2 & Hp2)].
    + destruct Hb as [[Hu1 Hb1]|(Hu1 & Hf1 & Ht1 & Hp1)].
      * left. split; congruence.
      * right. rewrite Hu2, Hb2. split; [exact Hu1|]. split; [exact Hf1|].
        split; [exact Ht1|]. apply elem_of_app. left. exact Hp1.
    + right. split; [destruct Hb as [[Hu1 _]|(Hu1 & _)]; lia|].
      split; [exact Hf2|]. split; [exact Ht2|].
      apply elem_of_app. right. exact Hp2.
  - intros [= <- <-]. exact Hb.
Qed.

End EngineFacts.

Lemma dispatch_one_message_per_rank_witness :
  (1 ≤ length (initial_q launch3.1.2) ≤ 2)%nat ∧
  length first3 = 2%nat ∧
  (∀ i s, initial_q launch3.1.2 !! i = Some s →
     ∃ p, Wire.send_solution 3 s = Some p ∧
          first3 !! i = Some (Msg INITIAL_NODE p)) ∧
  (∀ i, (length (initial_q launch3.1.2) ≤ i < 2)%nat →
     ∃ p, Wire.send_solution 3 (Search.empty 3) = Some p ∧
          first3 !! i = Some (Msg 0 p)) ∧
  ∃ pre,
    launch3.2 = pre ++ @send_events first3 ++ [EvSpawn 0; EvBarrier 0] ∧
    Forall (λ e, ¬ is_send e) pre.
Proof.
  apply (@dispatch_one_message_per_rank (Search.ops 3 edgeless3) 10 2
           first3 launch3.1.2 launch3.2).
  vm_compute. reflexivity.
Defined.

(** The seeding loop on the graph with one edge, with three workers. *)
Definition seed_edge2 : seed * list event :=
  Eval vm_compute in
    default (@seed_init (Search.ops 2 edge2), [])
            (@seed_loop (Search.ops 2 edge2) 10 3 (@seed_init (Search.ops 2 edge2))).

Lemma seed_incumbent_witness :
  (s_ub seed_edge2.1 = 3 ∧ best_so_far seed_edge2.1 = Search.empty 2) ∨
  (s_ub seed_edge2.1 < 3 ∧
   Search.final 2 (best_so_far seed_edge2.1) = true ∧
   tot_colors (best_so_far seed_edge2.1) = s_ub seed_edge2.1 ∧
   EvPrint 0 (best_so_far seed_edge2.1) ∈ seed_edge2.2).
Proof.
  apply (@seed_incumbent (Search.ops 2 edge2) 10 3
           (@seed_init (Search.ops 2 edge2)) seed_edge2.1 seed_edge2.2).
  vm_compute. reflexivity.
Defined.

(** ** The process group, for every implementation of the search node *)

Section GroupTraces.
Context `{NodeOps}.

(** *** What one step touches *)

Lemma main_step_rank (rank : nat) (w w' : worker) (evs : list event) :
  main_step rank w = Some (w', evs) → Forall (λ e, event_rank e = rank) evs.
Proof.
  destruct w as [pc lis ub inbox bcasts out]. simpl.
  destruct pc as [|[|curr q]|curr q|curr q| | |]; simpl.
  - destruct inbox as [|m inbox']; [discriminate|].
    destruct (Wire.receive_solution dim (payload m)); [|discriminate]. simpl.
    intros [= _ <-]. repeat constructor.
  - intros [= _ <-]. constructor.
  - intros [= _ <-]. repeat constructor.
  - intros [= _ <-]. repeat constructor.
  - destruct (Wire.send_solution dim curr); [|discriminate]. simpl.
    intros [= _ <-]. repeat constructor.
  - destruct (Wire.send_solution dim blank); [|discriminate]. simpl.
    intros [= _ <-]. repeat constructor.
  - intros [= _ <-]. repeat constructor.
  - discriminate.
Qed.

(** A step of the listener of a worker leaves the main thread, the inbox
    and the messages on their way as they are; its events are accesses to
    the bound by the listener. *)
Lemma listener_step_frame (rank : nat) (w w' : worker) (evs : list event) :
  listener_step rank w = Some (w', evs) →
  w_main w' = w_main w ∧ w_inbox w' = w_inbox w ∧ w_out w' = w_out w ∧
  Forall (λ e, event_rank e = rank ∧ ¬ is_send e ∧
               ∀ r, ¬ main_thread_event r e) evs.
Proof.
  destruct w as [pc lis ub inbox bcasts out]. simpl.
  destruct lis as [| |v|v|]; simpl; try discriminate.
  - destruct bcasts; [discriminate|]. intros [= <- <-].
    repeat split. constructor.
  - intros [= <- <-]. repeat split. repeat constructor; simpl; tauto.
  - intros [= <- <-]. repeat split. repeat constructor; simpl; tauto.
Qed.

Lemma coordinator_events (W : nat) (c c' : coordinator) (m : msg)
    (vs : list Z) (evs : list event) :
  coordinator_receive W c m = Some (c', vs, evs) ∨
  coordinator_finish W c = Some (c', vs, evs) →
  Forall (λ e, event_rank e = 0%nat ∧ ¬ is_send e) evs ∧ bcast_values evs = vs.
Proof.
  destruct c as [ub done b fin]. simpl. intros [Hrecv|Hfin].
  - destruct (fin || negb (done <? W)%nat); [discriminate|].
    destruct (Wire.receive_solution dim (payload m)) as [nb|]; [|discriminate].
    simpl in Hrecv.
    destruct (tag m =? SOLUTION_FROM_WORKER); simpl in Hrecv.
    + destruct (tot_colors nb <? ub); injection Hrecv as _ <- <-;
        (split; [repeat constructor; simpl; tauto|reflexivity]).
    + injection Hrecv as _ <- <-. split; [constructor|reflexivity].
  - destruct (fin || (done <? W)%nat); [discriminate|].
    injection Hfin as _ <- <-. split; [repeat constructor; simpl; tauto|reflexivity].
Qed.

Lemma take_out_frame (w w' : worker) (m : msg) :
  take_out w = Some (m, w') →
  w_main w' = w_main w ∧ w_lis w' = w_lis w ∧ w_ub w' = w_ub w ∧
  w_inbox w' = w_inbox w ∧ w_bcasts w' = w_bcasts w ∧ w_out w = m :: w_out w'.
Proof.
  destruct w as [pc lis ub inbox bcasts out]. simpl.
  destruct out; [discriminate|]. intros [= <- <-]. repeat split.
Qed.

Lemma deliver_bcast_frame (vs : list Z) (w : worker) :
  w_main (deliver_bcast vs w) = w_main w ∧
  w_lis (deliver_bcast vs w) = w_lis w ∧
  w_ub (deliver_bcast vs w) = w_ub w ∧
  w_inbox (deliver_bcast vs w) = w_inbox w ∧
  w_bcasts (deliver_bcast vs w) = w_bcasts w ++ vs ∧
  w_out (deliver_bcast vs w) = w_out w.
Proof. destruct w. repeat split. Qed.

(** What a step of the group means for the worker at index [i]: a step of
    its main thread, a step of its listener, or a step of someone else,
    which leaves its threads, its bound and its inbox alone and has no
    event of rank [i + 1]. *)
Lemma sys_step_local (a : sched) (s s' : system) (evs : list event)
    (i : nat) (w : worker) :
  sys_step a s = Some (s', evs) → workers s !! i = Some w →
  ∃ w', workers s' !! i = Some w' ∧
    (main_step (S i) w = Some (w', evs) ∨
     listener_step (S i) w = Some (w', evs) ∨
     (Forall (λ e, event_rank e ≠ S i) evs ∧
      w_main w' = w_main w ∧ w_lis w' = w_lis w ∧ w_ub w' = w_ub w ∧
      w_inbox w' = w_inbox w)).
Proof.
  intros Hstep Hw. pose proof (lookup_lt_Some _ _ _ Hw) as Hlt.
  destruct s as [c ws]. simpl in *. destruct a as [j|j|j|]; simpl in Hstep.
  - destruct (ws !! j) as [wj|] eqn:Hj; [|discriminate]. simpl in Hstep.
    destruct (main_step (S j) wj) as [[wj' evs']|] eqn:Hm; [|discriminate].
    injection Hstep as <- <-. simpl.
    destruct (decide (j = i)) as [->|Hne].
    + exists wj'. rewrite list_lookup_insert_eq by exact Hlt.
      split; [reflexivity|]. left. congruence.
    + exists w. rewrite list_lookup_insert_ne by exact Hne.
      split; [exact Hw|]. right. right. split; [|tauto].
      eapply Forall_impl; [eapply main_step_rank, Hm|].
      simpl. intros e He. lia.
  - destruct (ws !! j) as [wj|] eqn:Hj; [|discriminate]. simpl in Hstep.
    destruct (listener_step (S j) wj) as [[wj' evs']|] eqn:Hl; [|discriminate].
    injection Hstep as <- <-. simpl.
    destruct (decide (j = i)) as [->|Hne].
    + exists wj'. rewrite list_lookup_insert_eq by exact Hlt.
      split; [reflexivity|]. right. left. congruence.
    + exists w. rewrite list_lookup_insert_ne by exact Hne.
      split; [exact Hw|]. right. right. split; [|tauto].
      destruct (listener_step_frame _ _ _ _ Hl) as (_ & _ & _ & Hev).
      eapply Forall_impl; [exact Hev|].
      simpl. intros e [He _]. lia.
  - destruct (ws !! j) as [wj|] eqn:Hj; [|discriminate]. simpl in Hstep.
    destruct (take_out wj) as [[m wj']|] eqn:Ht; [|discriminate].
    simpl in Hstep.
    destruct (coordinator_receive (length ws) c m) as [[[c' vs] evs']|] eqn:Hr;
      [|discriminate].
    injection Hstep as <- <-. simpl.
    destruct (coordinator_events _ _ _ m _ _ (or_introl Hr)) as [Hev _].
    assert (Forall (λ e, event_rank e ≠ S i) evs') as Hev'.
    { eapply Forall_impl; [exact Hev|]. simpl. intros e [He Hs]. lia. }
    rewrite list_lookup_fmap.
    destruct (take_out_frame _ _ _ Ht) as (Hm1 & Hm2 & Hm3 & Hm4 & _).
    destruct (decide (j = i)) as [->|Hne].
    + rewrite list_lookup_insert_eq by exact Hlt. simpl.
      eexists. split; [reflexivity|]. right. right. split; [exact Hev'|].
      destruct (deliver_bcast_frame vs wj') as (-> & -> & -> & -> & _).
      assert (wj = w) by congruence. subst wj. tauto.
    + rewrite list_lookup_insert_ne by exact Hne. rewrite Hw. simpl.
      eexists. split; [reflexivity|]. right. right. split; [exact Hev'|].
      destruct (deliver_bcast_frame vs w) as (-> & -> & -> & -> & _). tauto.
  - destruct (coordinator_finish (length ws) c) as [[[c' vs] evs']|] eqn:Hf;
      [|discriminate].
    injection Hstep as <- <-. simpl.
    destruct (coordinator_events _ _ _ (Msg 0 []) _ _ (or_intror Hf)) as [Hev _].
    rewrite list_lookup_fmap, Hw. simpl.
    eexists. split; [reflexivity|]. right. right. split.
    + eapply Forall_impl; [exact Hev|]. simpl. intros e [He Hs]. lia.
    + destruct (deliver_bcast_frame vs w) as (-> & -> & -> & -> & _). tauto.
Qed.

End GroupTraces.

Section GroupRuns.
Context `{NodeOps}.

(** *** A worker that receives no node *)

(** The main thread has not received a node to search, and will not. *)
Definition idle (w : worker) : Prop :=
  match w_main w with
  | WReceive => ∀ m, head (w_inbox w) = Some m → tag m ≠ INITIAL_NODE
  | WLoop _ | WExpand _ _ | WStore _ _ => False
  | WSendDone | WBarrier | WJoin => True
  end.

(** The only access to the bound or message of the main thread is the
    [RETURN] message. *)
Definition only_return (rank : nat) (e : event) : Prop :=
  main_thread_event rank e →
  ∃ p, Wire.send_solution dim blank = Some p ∧ e = EvSend rank 0 (Msg RETURN p).

Lemma main_thread_event_rank (rank : nat) (e : event) :
  main_thread_event rank e → event_rank e = rank.
Proof. destruct e as [r [|] v|r [|] o n|src dst m|v|r|r|r s|r c]; simpl; tauto. Qed.

Lemma main_step_idle (rank : nat) (w w' : worker) (evs : list event) :
  idle w → main_step rank w = Some (w', evs) →
  idle w' ∧ Forall (only_return rank) evs.
Proof.
  destruct w as [pc lis ub inbox bcasts out]. unfold idle. simpl.
  destruct pc as [|q|curr q|curr q| | |]; simpl; try tauto.
  - intros Hidle. destruct inbox as [|m inbox']; [discriminate|].
    destruct (Wire.receive_solution dim (payload m)); [|discriminate]. simpl.
    specialize (Hidle m eq_refl).
    destruct (Z.eqb_spec (tag m) INITIAL_NODE) as [?|_]; [contradiction|].
    intros [= <- <-]. simpl. split; [exact I|].
    repeat constructor. intros [].
  - intros _. destruct (Wire.send_solution dim blank) as [p|] eqn:Hp; [|discriminate].
    simpl. intros [= <- <-]. simpl. split; [exact I|].
    repeat constructor. intros _. exists p. split; [exact Hp|reflexivity].
  - intros _ [= <- <-]. simpl. split; [exact I|].
    repeat constructor. intros [].
  - discriminate.
Qed.

Lemma exec_idle (sch : list sched) (s s' : system) (evs : list event)
    (i : nat) (w : worker) :
  exec sch s = Some (s', evs) → workers s !! i = Some w → idle w →
  (∃ w', workers s' !! i = Some w' ∧ idle w') ∧
  Forall (only_return (S i)) evs.
Proof.
  revert s evs w. induction sch as [|a sch IH]; intros s evs w; simpl.
  - intros [= <- <-] Hw Hidle. split; [exists w; tauto|constructor].
  - destruct (sys_step a s) as [[s1 evs1]|] eqn:Hstep; [|discriminate]. simpl.
    destruct (exec sch s1) as [[s2 evs2]|] eqn:Hexec; [|discriminate]. simpl.
    intros [= <- <-] Hw Hidle.
    destruct (sys_step_local a s s1 evs1 i w Hstep Hw) as (w1 & Hw1 & Hcase).
    assert (idle w1 ∧ Forall (only_return (S i)) evs1) as [Hidle1 Hev1].
    { destruct Hcase as [Hm|[Hl|(Hev & Hmain & _ & _ & Hinbox)]].
      - eapply main_step_idle; eassumption.
      - destruct (listener_step_frame _ _ _ _ Hl) as (Hmain & Hinbox & _ & Hev).
        split; [unfold idle; rewrite Hmain, Hinbox; exact Hidle|].
        eapply Forall_impl; [exact Hev|]. simpl. intros e (_ & _ & Hno) Hme.
        destruct (Hno _ Hme).
      - split; [unfold idle; rewrite Hmain, Hinbox; exact Hidle|].
        eapply Forall_impl; [exact Hev|]. simpl. intros e Hne Hme.
        apply main_thread_event_rank in Hme. contradiction. }
    destruct (IH s1 evs2 w1 Hexec Hw1 Hidle1) as [Hw2 Hev2].
    split; [exact Hw2|]. apply Forall_app. split; assumption.
Qed.

(** A worker to which rank 0 sends a message with a tag other than
    [INITIAL_NODE] never searches: under every schedule its main thread
    never reads or assigns the bound, and the only message it sends is the
    [RETURN] message with the default node. *)
Theorem idle_worker_only_returns (st : seed) (first : list msg)
    (sch : list sched) (s : system) (evs : list event) (i : nat) (m : msg) :
  first !! i = Some m → tag m ≠ INITIAL_NODE →
  exec sch (init_system st first) = Some (s, evs) →
  (∃ w, workers s !! i = Some w ∧ idle w) ∧
  Forall (only_return (S i)) evs.
Proof.
  intros Hm Htag Hexec.
  eapply (exec_idle sch _ s evs i); [exact Hexec| |].
  - simpl. rewrite list_lookup_fmap, Hm. reflexivity.
  - unfold idle. simpl. intros m' [= <-]. exact Htag.
Qed.

(** *** What the workers report *)

(** Line 266 is reached with a final node only. *)
Definition store_final (w : worker) : Prop :=
  match w_main w with WStore curr _ => is_final curr = true | _ => True end.

(** A message tagged [SOLUTION_FROM_WORKER] goes to rank 0 and carries a
    final node. *)
Definition report_final (e : event) : Prop :=
  match e with
  | EvSend src dst m =>
    tag m = SOLUTION_FROM_WORKER →
    src ≠ 0%nat ∧ dst = 0%nat ∧
    ∃ curr, is_final curr = true ∧ Wire.send_solution dim curr = Some (payload m)
  | _ => True
  end.

Lemma main_step_report (rank : nat) (w w' : worker) (evs : list event) :
  rank ≠ 0%nat → store_final w → main_step rank w = Some (w', evs) →
  store_final w' ∧ Forall report_final evs.
Proof.
  intros Hrank. destruct w as [pc lis ub inbox bcasts out].
  unfold store_final. simpl.
  destruct pc as [|[|curr q]|curr q|curr q| | |]; simpl.
  - intros _. destruct inbox as [|m inbox']; [discriminate|].
    destruct (Wire.receive_solution dim (payload m)); [|discriminate]. simpl.
    intros [= <- <-]. simpl.
    split; [destruct (tag m =? INITIAL_NODE); exact I|repeat constructor].
  - intros _ [= <- <-]. split; [exact I|constructor].
  - intros _ [= <- <-]. simpl. split; [|repeat constructor].
    destruct (is_final curr) eqn:Hfin; simpl.
    + destruct (tot_colors curr <? ub); [exact Hfin|exact I].
    + destruct (ub <=? tot_colors curr); exact I.
  - intros _ [= <- <-]. split; [exact I|repeat constructor].
  - intros Hfin. destruct (Wire.send_solution dim curr) as [p|] eqn:Hp;
      [|discriminate].
    simpl. intros [= <- <-]. split; [exact I|].
    constructor; [exact I|]. constructor; [|constructor].
    simpl. intros _. split; [exact Hrank|].
    split; [reflexivity|]. exists curr. split; [exact Hfin|exact Hp].
  - intros _. destruct (Wire.send_solution dim blank); [|discriminate]. simpl.
    intros [= <- <-]. split; [exact I|].
    constructor; [|constructor]. simpl. intros [=].
  - intros _ [= <- <-]. split; [exact I|repeat constructor].
  - discriminate.
Qed.

Lemma sys_step_report_final (a : sched) (s s' : system) (evs : list event) :
  sys_step a s = Some (s', evs) → Forall store_final (workers s) →
  Forall store_final (workers s') ∧ Forall report_final evs.
Proof.
  intros Hstep Hall.
  assert (Hframe : ∀ w w' : worker, w_main w' = w_main w →
                     store_final w → store_final w').
  { intros w w' Hmain. unfold store_final. rewrite Hmain. tauto. }
  assert (Hbcast : ∀ vs ws, Forall store_final ws →
                     Forall store_final (deliver_bcast vs <$> ws)).
  { intros vs ws Hws. apply Forall_fmap. eapply Forall_impl; [exact Hws|].
    intros w Hw. simpl. eapply Hframe; [|exact Hw].
    apply deliver_bcast_frame. }
  assert (Hsilent : ∀ evs0, Forall (λ e, event_rank e = 0%nat ∧ ¬ is_send e) evs0 →
                      Forall report_final evs0).
  { intros evs0 Hev. eapply Forall_impl; [exact Hev|]. simpl.
    intros [] [_ Hs]; simpl in *; tauto. }
  destruct s as [c ws]. simpl in *. destruct a as [j|j|j|]; simpl in Hstep.
  - destruct (ws !! j) as [wj|] eqn:Hj; [|discriminate]. simpl in Hstep.
    destruct (main_step (S j) wj) as [[wj' evs']|] eqn:Hm; [|discriminate].
    injection Hstep as <- <-. simpl.
    destruct (main_step_report (S j) wj wj' evs' ltac:(lia)
                (proj1 (Forall_lookup _ _) Hall j wj Hj) Hm) as [Hw' Hev].
    split; [apply Forall_insert; assumption|exact Hev].
  - destruct (ws !! j) as [wj|] eqn:Hj; [|discriminate]. simpl in Hstep.
    destruct (listener_step (S j) wj) as [[wj' evs']|] eqn:Hl; [|discriminate].
    injection Hstep as <- <-. simpl.
    destruct (listener_step_frame _ _ _ _ Hl) as (Hmain & _ & _ & Hev).
    split.
    + apply Forall_insert; [exact Hall|].
      eapply Hframe; [exact Hmain|].
      exact (proj1 (Forall_lookup _ _) Hall j wj Hj).
    + eapply Forall_impl; [exact Hev|]. simpl.
      intros [] (_ & Hs & _); simpl in *; tauto.
  - destruct (ws !! j) as [wj|] eqn:Hj; [|discriminate]. simpl in Hstep.
    destruct (take_out wj) as [[m wj']|] eqn:Ht; [|discriminate].
    simpl in Hstep.
    destruct (coordinator_receive (length ws) c m) as [[[c' vs] evs']|] eqn:Hr;
      [|discriminate].
    injection Hstep as <- <-. simpl.
    destruct (coordinator_events _ _ _ m _ _ (or_introl Hr)) as [Hev _].
    split; [|apply Hsilent, Hev].
    apply Hbcast, Forall_insert; [exact Hall|].
    eapply Hframe; [apply (take_out_frame _ _ _ Ht)|].
    exact (proj1 (Forall_lookup _ _) Hall j wj Hj).
  - destruct (coordinator_finish (length ws) c) as [[[c' vs] evs']|] eqn:Hf;
      [|discriminate].
    injection Hstep as <- <-. simpl.
    destruct (coordinator_events _ _ _ (Msg 0 []) _ _ (or_intror Hf)) as [Hev _].
    split; [apply Hbcast, Hall|apply Hsilent, Hev].
Qed.

Lemma exec_report_final (sch : list sched) (s s' : system) (evs : list event) :
  exec sch s = Some (s', evs) → Forall store_final (workers s) →
  Forall store_final (workers s') ∧ Forall report_final evs.
Proof.
  revert s evs. induction sch as [|a sch IH]; intros s evs; simpl.
  - intros [= <- <-] Hall. split; [exact Hall|constructor].
  - destruct (sys_step a s) as [[s1 evs1]|] eqn:Hstep; [|discriminate]. simpl.
    destruct (exec sch s1) as [[s2 evs2]|] eqn:Hexec; [|discriminate]. simpl.
    intros [= <- <-] Hall.
    destruct (sys_step_report_final a s s1 evs1 Hstep Hall) as [Hall1 Hev1].
    destruct (IH s1 evs2 Hexec Hall1) as [Hall2 Hev2].
    split; [exact Hall2|]. apply Forall_app. split; assumption.
Qed.

Lemma Forall_imap {A B : Type} (P : A → Prop) (Q : B → Prop)
    (f : nat → A → B) (l : list A) :
  Forall P l → (∀ i x, P x → Q (f i x)) → Forall Q (imap f l).
Proof.
  intros Hl. revert f. induction Hl as [|x l Hx _ IH]; intros f Hf; simpl.
  - constructor.
  - constructor; [apply Hf, Hx|]. apply IH. intros i y. apply Hf.
Qed.

Lemma dispatch_tags (W : nat) (q : list solution) (first : list msg) :
  dispatch W q = Some first →
  Forall (λ m, tag m = INITIAL_NODE ∨ tag m = 0) first.
Proof.
  unfold dispatch.
  destruct (mapM (Wire.send_solution dim) q) as [nodes|]; [|discriminate].
  simpl. destruct (Wire.send_solution dim blank) as [dummy|]; [|discriminate].
  simpl. case_decide; [|discriminate]. intros [= <-].
  apply Forall_app. split.
  - apply Forall_fmap, Forall_forall. intros p _. left. reflexivity.
  - apply Forall_replicate. right. reflexivity.
Qed.

(** In a whole run, every message tagged [SOLUTION_FROM_WORKER] is sent by
    a worker to rank 0 and carries a node for which [is_final] holds: a
    worker never reports a partial colouring, and rank 0 never sends such a
    message. *)
Theorem reports_are_final (fuel W : nat) (sch : list sched) (s : system)
    (tr : list event) :
  run fuel W sch = Some (s, tr) → Forall report_final tr.
Proof.
  unfold run.
  destruct (coordinator_main fuel W) as [[[l st] evs]|] eqn:Hmain;
    [|discriminate].
  simpl. destruct l as [code|first]; [discriminate|].
  destruct (exec sch (init_system st first)) as [[s' evs']|] eqn:Hexec;
    [|discriminate].
  simpl. intros [= <- <-]. apply Forall_app. split.
  - unfold coordinator_main in Hmain.
    destruct (seed_loop fuel W seed_init) as [[st0 evs0]|] eqn:Hloop;
      [|discriminate].
    simpl in Hmain. destruct (initial_q st0) as [|x q]; [discriminate|].
    destruct (dispatch W (x :: q)) as [first0|] eqn:Hdisp; [|discriminate].
    simpl in Hmain. injection Hmain as <- <- <-.
    apply Forall_app. split.
    + eapply Forall_impl; [eapply seed_loop_no_send, Hloop|].
      intros [] Hs; simpl in *; tauto.
    + apply Forall_app. split; [|repeat constructor].
      eapply Forall_imap; [eapply dispatch_tags, Hdisp|].
      simpl. intros i m [Ht|Ht] Ht'; rewrite Ht in Ht'; discriminate.
  - eapply exec_report_final; [exact Hexec|].
    simpl. apply Forall_fmap, Forall_forall. intros m _. exact I.
Qed.

End GroupRuns.

Section Broadcasts.
Context `{NodeOps}.

(** *** The values rank 0 broadcasts *)

Lemma bcast_values_app (evs1 evs2 : list event) :
  bcast_values (evs1 ++ evs2) = bcast_values evs1 ++ bcast_values evs2.
Proof. apply omap_app. Qed.

Lemma bcast_values_cons (e : event) (evs : list event) :
  bcast_values (e :: evs)
  = match e with
    | EvBcast v => v :: bcast_values evs
    | _ => bcast_values evs
    end.
Proof. destruct e; reflexivity. Qed.

Lemma bcast_values_workers (evs : list event) :
  Forall (λ e, event_rank e ≠ 0%nat) evs → bcast_values evs = [].
Proof.
  induction 1 as [|e evs He _ IH]; [reflexivity|].
  rewrite bcast_values_cons, IH.
  destruct e; simpl in *; try reflexivity. contradiction.
Qed.

(** One pass of the receiving loop either leaves the bound and [best] as
    they are and broadcasts nothing, or stores the node received from a
    worker, lowers the bound to its number of colours and broadcasts it. *)
Lemma coordinator_receive_bound (W : nat) (c c' : coordinator) (m : msg)
    (vs : list Z) (evs : list event) :
  coordinator_receive W c m = Some (c', vs, evs) →
  (vs = [] ∧ c_ub c' = c_ub c ∧ best c' = best c) ∨
  (vs = [c_ub c'] ∧ c_ub c' < c_ub c ∧ tot_colors (best c') = c_ub c' ∧
   tag m = SOLUTION_FROM_WORKER ∧
   Wire.receive_solution dim (payload m) = Some (best c')).
Proof.
  destruct c as [ub done b fin]. simpl.
  destruct (fin || negb (done <? W)%nat); [discriminate|].
  destruct (Wire.receive_solution dim (payload m)) as [nb|]; [|discriminate].
  simpl.
  destruct (Z.eqb_spec (tag m) SOLUTION_FROM_WORKER) as [Htag|_]; simpl.
  - destruct (tot_colors nb <? ub) eqn:Hlt; intros [= <- <- _]; simpl.
    + apply Z.ltb_lt in Hlt. right. repeat split; assumption || reflexivity.
    + left. repeat split.
  - intros [= <- <- _]. left. repeat split.
Qed.

Lemma sys_step_bcasts (a : sched) (s s' : system) (evs : list event) :
  sys_step a s = Some (s', evs) →
  (coord s' = coord s ∧ bcast_values evs = []) ∨
  (c_finished (coord s) = false ∧ c_finished (coord s') = false ∧
   ((bcast_values evs = [] ∧ c_ub (coord s') = c_ub (coord s) ∧
     best (coord s') = best (coord s)) ∨
    (bcast_values evs = [c_ub (coord s')] ∧ c_ub (coord s') < c_ub (coord s) ∧
     tot_colors (best (coord s')) = c_ub (coord s')))) ∨
  (c_finished (coord s) = false ∧ c_finished (coord s') = true ∧
   bcast_values evs = [RETURN] ∧ c_ub (coord s') = c_ub (coord s) ∧
   best (coord s') = best (coord s)).
Proof.
  destruct s as [c ws]. destruct a as [i|i|i|]; simpl.
  - destruct (ws !! i) as [w|]; [|discriminate]. simpl.
    destruct (main_step (S i) w) as [[w' evs']|] eqn:Hstep; [|discriminate].
    simpl. intros [= <- <-]. left. split; [reflexivity|].
    apply bcast_values_workers.
    eapply Forall_impl; [eapply main_step_rank, Hstep|]. simpl. lia.
  - destruct (ws !! i) as [w|]; [|discriminate]. simpl.
    destruct (listener_step (S i) w) as [[w' evs']|] eqn:Hstep; [|discriminate].
    simpl. intros [= <- <-]. left. split; [reflexivity|].
    apply bcast_values_workers.
    destruct (listener_step_frame _ _ _ _ Hstep) as (_ & _ & _ & Hev).
    eapply Forall_impl; [exact Hev|]. simpl. intros e [He _]. lia.
  - destruct (ws !! i) as [w|]; [|discriminate]. simpl.
    destruct (take_out w) as [[m w']|]; [|discriminate]. simpl.
    destruct (coordinator_receive (length ws) c m) as [[[c' vs] evs']|] eqn:Hrecv;
      [|discriminate].
    simpl. intros [= <- <-]. right. left.
    destruct (coordinator_receive_facts _ _ _ _ _ _ Hrecv) as (Hf & Hf' & _).
    destruct (coordinator_events _ _ _ m _ _ (or_introl Hrecv)) as [_ Hvs].
    split; [exact Hf|]. split; [exact Hf'|]. rewrite Hvs.
    destruct (coordinator_receive_bound _ _ _ _ _ _ Hrecv)
      as [(-> & Hub & Hb)|(-> & Hub & Hb & _)]; [left|right]; tauto.
  - destruct (coordinator_finish (length ws) c) as [[[c' vs] evs']|] eqn:Hfin;
      [|discriminate].
    simpl. intros [= <- <-]. right. right.
    destruct (coordinator_finish_facts _ _ _ _ _ Hfin)
      as (Hf & Hf' & _ & _ & _ & Hub & Hb).
    destruct (coordinator_events _ _ _ (Msg 0 []) _ _ (or_intror Hfin)) as [_ Hvs].
    rewrite Hvs, (coordinator_finish_bcast _ _ _ _ _ Hfin). tauto.
Qed.

Lemma exec_finished_bcasts (sch : list sched) (s s' : system) (evs : list event) :
  exec sch s = Some (s', evs) → c_finished (coord s) = true →
  coord s' = coord s ∧ bcast_values evs = [].
Proof.
  revert s evs. induction sch as [|a sch IH]; intros s evs; simpl.
  - intros [= <- <-] _. split; reflexivity.
  - destruct (sys_step a s) as [[s1 evs1]|] eqn:Hstep; [|discriminate]. simpl.
    destruct (exec sch s1) as [[s2 evs2]|] eqn:Hexec; [|discriminate]. simpl.
    intros [= <- <-] Hfin.
    destruct (sys_step_bcasts a s s1 evs1 Hstep)
      as [[Hc Hb]|[(Hf & _)|(Hf & _)]]; [|congruence..].
    destruct (IH s1 evs2 Hexec ltac:(congruence)) as [Hc2 Hb2].
    split; [congruence|]. rewrite bcast_values_app, Hb, Hb2. reflexivity.
Qed.

(** Under every schedule, the bounds rank 0 broadcasts are strictly
    decreasing, each below the bound rank 0 held at the dispatch; the bound
    of rank 0 is the last of them, and is then the number of colours of
    [best]; without any, the bound and [best] are those of the dispatch.
    The value [RETURN] is broadcast after all of them, when the listener
    leaves its loop, and nothing is broadcast after it. *)
Theorem coordinator_broadcasts (sch : list sched) (s s' : system) (evs : list event) :
  exec sch s = Some (s', evs) → c_finished (coord s) = false →
  ∃ ups,
    bcast_values evs = ups ++ (if c_finished (coord s') then [RETURN] else []) ∧
    decreasing_from (c_ub (coord s)) ups ∧
    c_ub (coord s') = default (c_ub (coord s)) (last ups) ∧
    (ups = [] → best (coord s') = best (coord s)) ∧
    (ups ≠ [] → tot_colors (best (coord s')) = c_ub (coord s')).
Proof.
  revert s evs. induction sch as [|a sch IH]; intros s evs; simpl.
  - intros [= <- <-] Hfin. exists []. rewrite Hfin. simpl. tauto.
  - destruct (sys_step a s) as [[s1 evs1]|] eqn:Hstep; [|discriminate]. simpl.
    destruct (exec sch s1) as [[s2 evs2]|] eqn:Hexec; [|discriminate]. simpl.
    intros [= <- <-] Hfin. rewrite bcast_values_app.
    destruct (sys_step_bcasts a s s1 evs1 Hstep)
      as [[Hc Hb]|[(_ & Hf1 & Hcase)|(_ & Hf1 & Hb & Hub & Hbest)]].
    + destruct (IH s1 evs2 Hexec ltac:(congruence))
        as (ups & Hvs & Hdec & Hlast & Hsame & Hnew).
      exists ups. rewrite Hb, Hvs. simpl. rewrite <- Hc. tauto.
    + destruct (IH s1 evs2 Hexec Hf1)
        as (ups & Hvs & Hdec & Hlast & Hsame & Hnew).
      destruct Hcase as [(Hb & Hub & Hbest)|(Hb & Hub & Hbest)].
      * exists ups. rewrite Hb, Hvs. simpl. rewrite <- Hub, <- Hbest. tauto.
      * exists (c_ub (coord s1) :: ups). rewrite Hb, Hvs. simpl.
        split; [reflexivity|]. split; [tauto|]. split.
        { rewrite Hlast. destruct ups as [|u ups]; [reflexivity|].
          change (last (c_ub (coord s1) :: u :: ups)) with (last (u :: ups)).
          destruct (last (u :: ups)) eqn:Hl; [reflexivity|].
          apply last_None in Hl. discriminate. }
        split; [discriminate|]. intros _.
        destruct ups as [|u ups]; [|apply Hnew; discriminate].
        rewrite (Hsame eq_refl), Hlast. exact Hbest.
    + destruct (exec_finished_bcasts sch s1 s2 evs2 Hexec Hf1) as [Hc Hb2].
      exists []. rewrite Hb, Hb2, Hc, Hf1. simpl.
      rewrite Hub, Hbest. tauto.
Qed.

(** *** The termination value reaches every listener *)

(** The listener exists exactly when the main thread has received its
    message; once rank 0 has finished, the listener has left its loop or
    the termination value is waiting for it. *)
Definition listener_served (fin : bool) (w : worker) : Prop :=
  (w_main w = WReceive ↔ w_lis w = LNone) ∧
  (fin = true → w_lis w = LExit ∨ RETURN ∈ w_bcasts w).

Lemma main_step_served (rank : nat) (fin : bool) (w w' : worker)
    (evs : list event) :
  main_step rank w = Some (w', evs) → listener_served fin w →
  listener_served fin w'.
Proof.
  destruct w as [pc lis ub inbox bcasts out]. unfold listener_served. simpl.
  destruct pc as [|[|curr q]|curr q|curr q| | |]; simpl.
  - destruct inbox as [|m inbox']; [discriminate|].
    destruct (Wire.receive_solution dim (payload m)); [|discriminate]. simpl.
    intros [= <- _] [Hiff Hfin]. simpl.
    assert (lis = LNone) as -> by (apply Hiff; reflexivity).
    split.
    + destruct (tag m =? INITIAL_NODE); split; discriminate.
    + intros Hf. destruct (Hfin Hf) as [[=]|Hin]. right. exact Hin.
  - intros [= <- _] [Hiff Hfin]. simpl. split; [|exact Hfin].
    split; [discriminate|]. intros Hl. apply Hiff in Hl. discriminate.
  - intros [= <- _] [Hiff Hfin]. simpl. split; [|exact Hfin].
    split.
    + intros Hpc. exfalso. revert Hpc.
      destruct (is_final curr); simpl;
        [destruct (tot_colors curr <? ub)|destruct (ub <=? tot_colors curr)];
        discriminate.
    + intros Hl. apply Hiff in Hl. discriminate.
  - intros [= <- _] [Hiff Hfin]. simpl. split; [|exact Hfin].
    split; [discriminate|]. intros Hl. apply Hiff in Hl. discriminate.
  - destruct (Wire.send_solution dim curr); [|discriminate]. simpl.
    intros [= <- _] [Hiff Hfin]. simpl. split; [|exact Hfin].
    split; [discriminate|]. intros Hl. apply Hiff in Hl. discriminate.
  - destruct (Wire.send_solution dim blank); [|discriminate]. simpl.
    intros [= <- _] [Hiff Hfin]. simpl. split; [|exact Hfin].
    split; [discriminate|]. intros Hl. apply Hiff in Hl. discriminate.
  - intros [= <- _] [Hiff Hfin]. simpl. split; [|exact Hfin].
    split; [discriminate|]. intros Hl. apply Hiff in Hl. discriminate.
  - discriminate.
Qed.

Lemma listener_step_served (rank : nat) (fin : bool) (w w' : worker)
    (evs : list event) :
  listener_step rank w = Some (w', evs) → listener_served fin w →
  listener_served fin w'.
Proof.
  destruct w as [pc lis ub inbox bcasts out]. unfold listener_served. simpl.
  destruct lis as [| |v|v|]; simpl; try discriminate.
  - destruct bcasts as [|v bcasts']; [discriminate|].
    intros [= <- _] [Hiff Hfin]. simpl. split.
    + split; [intros Hpc; apply Hiff in Hpc; discriminate|].
      destruct (v =? RETURN); discriminate.
    + intros Hf. destruct (Z.eqb_spec v RETURN) as [->|Hv]; [left; reflexivity|].
      right. destruct (Hfin Hf) as [[=]|Hin].
      apply elem_of_cons in Hin as [?|Hin]; [congruence|exact Hin].
  - intros [= <- _] [Hiff Hfin]. simpl. split.
    + split; [intros Hpc; apply Hiff in Hpc; discriminate|].
      destruct (v <? ub); discriminate.
    + intros Hf. right. destruct (Hfin Hf) as [[=]|Hin]. exact Hin.
  - intros [= <- _] [Hiff Hfin]. simpl. split.
    + split; [intros Hpc; apply Hiff in Hpc; discriminate|discriminate].
    + intros Hf. right. destruct (Hfin Hf) as [[=]|Hin]. exact Hin.
Qed.

Lemma frame_served (fin : bool) (w w' : worker) :
  w_main w' = w_main w → w_lis w' = w_lis w →
  (∀ v, v ∈ w_bcasts w → v ∈ w_bcasts w') →
  listener_served fin w → listener_served fin w'.
Proof.
  unfold listener_served. intros -> -> Hsub [Hiff Hfin].
  split; [exact Hiff|]. intros Hf.
  destruct (Hfin Hf) as [?|Hin]; [left; assumption|right; apply Hsub, Hin].
Qed.

Lemma sys_step_served (a : sched) (s s' : system) (evs : list event) :
  sys_step a s = Some (s', evs) →
  Forall (listener_served (c_finished (coord s))) (workers s) →
  Forall (listener_served (c_finished (coord s'))) (workers s').
Proof.
  destruct s as [c ws]. destruct a as [i|i|i|]; simpl.
  - destruct (ws !! i) as [w|] eqn:Hw; [|discriminate]. simpl.
    destruct (main_step (S i) w) as [[w' evs']|] eqn:Hstep; [|discriminate].
    simpl. intros [= <- _] Hall. simpl.
    apply Forall_insert; [exact Hall|].
    eapply main_step_served; [exact Hstep|].
    exact (proj1 (Forall_lookup _ _) Hall i w Hw).
  - destruct (ws !! i) as [w|] eqn:Hw; [|discriminate]. simpl.
    destruct (listener_step (S i) w) as [[w' evs']|] eqn:Hstep; [|discriminate].
    simpl. intros [= <- _] Hall. simpl.
    apply Forall_insert; [exact Hall|].
    eapply listener_step_served; [exact Hstep|].
    exact (proj1 (Forall_lookup _ _) Hall i w Hw).
  - destruct (ws !! i) as [w|] eqn:Hw; [|discriminate]. simpl.
    destruct (take_out w) as [[m w']|] eqn:Ht; [|discriminate]. simpl.
    destruct (coordinator_receive (length ws) c m) as [[[c' vs] evs']|] eqn:Hrecv;
      [|discriminate].
    simpl. intros [= <- _] Hall. simpl.
    destruct (coordinator_receive_facts _ _ _ _ _ _ Hrecv) as (Hf & Hf' & _).
    rewrite Hf'. rewrite Hf in Hall.
    destruct (take_out_frame _ _ _ Ht) as (Hm1 & Hm2 & _ & _ & Hm5 & _).
    apply Forall_fmap.
    assert (Forall (listener_served false) (<[i := w']> ws)) as Hall'.
    { apply Forall_insert; [exact Hall|].
      eapply frame_served; [exact Hm1|exact Hm2|rewrite Hm5; tauto|].
      exact (proj1 (Forall_lookup _ _) Hall i w Hw). }
    eapply Forall_impl; [exact Hall'|]. intros w0 Hw0. simpl.
    destruct (deliver_bcast_frame vs w0) as (H1 & H2 & _ & _ & H5 & _).
    eapply frame_served; [exact H1|exact H2| |exact Hw0].
    intros v Hv. rewrite H5. apply elem_of_app. left. exact Hv.
  - destruct (coordinator_finish (length ws) c) as [[[c' vs] evs']|] eqn:Hfin;
      [|discriminate].
    simpl. intros [= <- _] Hall. simpl.
    rewrite (coordinator_finish_bcast _ _ _ _ _ Hfin).
    apply Forall_fmap. eapply Forall_impl; [exact Hall|].
    intros w0 [Hiff _]. simpl.
    destruct (deliver_bcast_frame [RETURN] w0) as (H1 & H2 & _ & _ & H5 & _).
    split; [rewrite H1, H2; exact Hiff|].
    intros _. right. rewrite H5. apply elem_of_app. right. apply list_elem_of_here.
Qed.

Lemma exec_served (sch : list sched) (s s' : system) (evs : list event) :
  exec sch s = Some (s', evs) →
  Forall (listener_served (c_finished (coord s))) (workers s) →
  Forall (listener_served (c_finished (coord s'))) (workers s').
Proof.
  revert s evs. induction sch as [|a sch IH]; intros s evs; simpl.
  - intros [= <- _] Hall. exact Hall.
  - destruct (sys_step a s) as [[s1 evs1]|] eqn:Hstep; [|discriminate]. simpl.
    destruct (exec sch s1) as [[s2 evs2]|] eqn:Hexec; [|discriminate]. simpl.
    intros [= <- _] Hall.
    eapply IH; [exact Hexec|]. eapply sys_step_served; eassumption.
Qed.

(** Once the listener of rank 0 has left its loop, every worker's listener
    has left its own loop or still has the termination value to receive,
    and in that case it can take a step as soon as it exists: no listener
    waits for a broadcast that never comes. *)
Theorem listeners_get_return (st : seed) (first : list msg) (sch : list sched)
    (s : system) (evs : list event) :
  exec sch (init_system st first) = Some (s, evs) →
  c_finished (coord s) = true →
  ∀ i w, workers s !! i = Some w →
    w_lis w = LExit ∨
    (RETURN ∈ w_bcasts w ∧
     (w_main w ≠ WReceive → is_Some (listener_step (S i) w))).
Proof.
  intros Hexec Hfin i w Hw.
  assert (Forall (listener_served (c_finished (coord s))) (workers s)) as Hall.
  { eapply exec_served; [exact Hexec|]. simpl.
    apply Forall_fmap, Forall_forall. intros m _. split; [|discriminate].
    simpl. tauto. }
  destruct (proj1 (Forall_lookup _ _) Hall i w Hw) as [Hiff Hserved].
  destruct (Hserved Hfin) as [Hexit|Hin]; [left; exact Hexit|].
  destruct w as [pc lis ub inbox bcasts out]. simpl in *.
  destruct lis as [| |v|v|]; [right..|left; reflexivity];
    (split; [exact Hin|]); intros Hpc; simpl.
  - exfalso. apply Hpc, Hiff. reflexivity.
  - destruct bcasts; [inversion Hin|eexists; reflexivity].
  - eexists; reflexivity.
  - eexists; reflexivity.
Qed.

End Broadcasts.

(** ** Runs used as examples *)

Lemma reports_are_final_witness :
  Forall (@report_final (Search.ops 3 edgeless3)) (launch3.2 ++ end3.2).
Proof.
  apply (@reports_are_final (Search.ops 3 edgeless3) 10 2 full_schedule
           end3.1 (launch3.2 ++ end3.2)).
  vm_compute. reflexivity.
Defined.

Lemma coordinator_broadcasts_witness :
  ∃ ups,
    bcast_values end3.2
    = ups ++ (if c_finished (coord end3.1) then [RETURN] else []) ∧
    decreasing_from 4 ups ∧
    c_ub (coord end3.1) = default 4 (last ups) ∧
    (ups = [] → best (coord end3.1) = Search.empty 3) ∧
    (ups ≠ [] → tot_colors (best (coord end3.1)) = c_ub (coord end3.1)).
Proof.
  apply (@coordinator_broadcasts (Search.ops 3 edgeless3) full_schedule
           (@init_system (Search.ops 3 edgeless3) launch3.1.2 first3)
           end3.1 end3.2).
  - vm_compute. reflexivity.
  - reflexivity.
Defined.

(** Rank 1 at the end of the complete run. *)
Definition worker3 : worker :=
  Eval vm_compute in
    default (Worker WJoin LExit 0 [] [] []) (workers end3.1 !! 0%nat).

Lemma listeners_get_return_witness :
  w_lis worker3 = LExit ∨
  (RETURN ∈ w_bcasts worker3 ∧
   (w_main worker3 ≠ WReceive → is_Some (listener_step 1 worker3))).
Proof.
  apply (@listeners_get_return (Search.ops 3 edgeless3) launch3.1.2 first3
           full_schedule end3.1 end3.2).
  - vm_compute. reflexivity.
  - reflexivity.
  - reflexivity.
Defined.

(** The edgeless graph with three vertices and four workers: the queue
    holds three nodes at the dispatch, and rank 4 receives the default node
    with the tag [0]. *)
Definition launch4 : launch * seed * list event :=
  Eval vm_compute in
    default (Aborted 0, Seed [] 0 (Search.empty 3), [])
            (@coordinator_main (Search.ops 3 edgeless3) 10 4).

Definition first4 : list msg :=
  match launch4.1.1 with Dispatched first => first | Aborted _ => [] end.

(** Rank 4 runs to the end of its main thread while the others wait. *)
Definition idle_schedule : list sched := [RunMain 3; RunMain 3; RunMain 3].

Definition idle_end4 : system * list event :=
  Eval vm_compute in
    default (@init_system (Search.ops 3 edgeless3) launch4.1.2 first4, [])
            (@exec (Search.ops 3 edgeless3) idle_schedule
               (@init_system (Search.ops 3 edgeless3) launch4.1.2 first4)).

Lemma idle_worker_only_returns_witness :
  (∃ w, workers idle_end4.1 !! 3%nat = Some w ∧ idle w) ∧
  Forall (@only_return (Search.ops 3 edgeless3) 4) idle_end4.2.
Proof.
  apply (@idle_worker_only_returns (Search.ops 3 edgeless3) launch4.1.2 first4
           idle_schedule idle_end4.1 idle_end4.2 3 (Msg 0 [0; 0; 0; 0; 0])).
  - reflexivity.
  - discriminate.
  - vm_compute. reflexivity.
Defined.

(** ** The dispatch, with the branching rule of the specification *)

(** With the search node of the specification, rank 0 dispatches only when
    its own loop has found no colouring: its bound is still [n + 1] and
    [best_so_far] the default node.  A colouring found by the seeding loop
    is therefore never dropped by the dispatch, whose listener starts from
    a default [best]: the loop that finds one drains its queue and ends in
    the abort that prints it. *)
Theorem dispatch_without_incumbent (n : nat) (g : Graph.matrix) (fuel W : nat)
    (first : list msg) (st : seed) (evs : list event) :
  Z.of_nat n + 1 < UINT_MOD → (1 ≤ W)%nat →
  @coordinator_main (Search.ops n g) fuel W = Some (Dispatched first, st, evs) →
  s_ub st = Z.of_nat n + 1 ∧ best_so_far st = Search.empty n ∧
  c_ub (coord (@init_system (Search.ops n g) st first)) = Z.of_nat n + 1 ∧
  best (coord (@init_system (Search.ops n g) st first)) = Search.empty n.
Proof.
  intros Hfits HW. unfold coordinator_main.
  destruct (@seed_loop (Search.ops n g) fuel W seed_init) as [[st0 evs0]|] eqn:Hloop;
    [|discriminate].
  simpl.
  destruct (seed_loop_post n g Hfits W _ _ st0 evs0 (seed_init_inv n g W HW) Hloop)
    as (_ & _ & _ & Hbest).
  destruct (initial_q st0) as [|x q] eqn:Hq; [discriminate|].
  destruct (@dispatch (Search.ops n g) W (x :: q)) as [first0|]; [|discriminate].
  simpl. intros [= <- <- <-].
  destruct Hbest as [[Hub Hb]|[Hnil _]]; [|discriminate Hnil].
  simpl. repeat split; assumption || reflexivity.
Qed.

Lemma dispatch_without_incumbent_witness :
  s_ub launch4.1.2 = Z.of_nat 3 + 1 ∧ best_so_far launch4.1.2 = Search.empty 3 ∧
  c_ub (coord (@init_system (Search.ops 3 edgeless3) launch4.1.2 first4))
  = Z.of_nat 3 + 1 ∧
  best (coord (@init_system (Search.ops 3 edgeless3) launch4.1.2 first4))
  = Search.empty 3.
Proof.
  apply (dispatch_without_incumbent 3 edgeless3 10 4 first4 launch4.1.2 launch4.2).
  - reflexivity.
  - lia.
  - vm_compute. reflexivity.
Defined.

(** ** The two versions of the listener of rank 0

    The first version of [main.cpp] receives the node through the derived
    datatype [mpi_solution] and prints every solution it receives, after
    the broadcast; the later version unpacks the node with
    [receive_solution] and prints it only when it lowers the bound, before
    the broadcast. *)

(** One pass of the body of [while (worker_done < size - 1)] in the first
    version (lines 263-285), on a message with tag [t] whose node has been
    received as [new_best]. *)
Definition coordinator_receive_v1 (W : nat) (c : coordinator) (t : Z)
    (new_best : solution) : option (coordinator * list Z * list event) :=
  let 'Coordinator ub done b fin := c in
  if fin || negb (done <? W)%nat then None
  else
    let done' := if t =? RETURN then S done else done in
    if t =? SOLUTION_FROM_WORKER then
      if tot_colors new_best <? ub then
        Some (Coordinator (tot_colors new_best) done' new_best false,
              [tot_colors new_best],
              [EvRead 0 ListenerThread ub;
               EvWrite 0 ListenerThread ub (tot_colors new_best);
               EvBcast (tot_colors new_best); EvPrint 0 new_best])
      else
        Some (Coordinator ub done' b false, [],
              [EvRead 0 ListenerThread ub; EvPrint 0 new_best])
    else Some (Coordinator ub done' b false, [], []).

(** The nodes printed, and the events other than prints. *)
Definition printed (evs : list event) : list solution :=
  omap (λ e, match e with EvPrint _ s => Some s | _ => None end) evs.

Definition unprinted (evs : list event) : list event :=
  omap (λ e, match e with EvPrint _ _ => None | _ => Some e end) evs.

(** On the same message the two versions of the loop body reach the same
    state of rank 0 ([colors_ub], [worker_done], [best]), broadcast the same
    value and access the bound alike; they differ in what they print: the
    first version prints every node received with the tag
    [SOLUTION_FROM_WORKER], the later one only a node that lowers the
    bound. *)
Theorem listener_versions_agree `{NodeOps} (W : nat) (c : coordinator)
    (m : msg) (new_best : solution) :
  Wire.receive_solution dim (payload m) = Some new_best →
  match coordinator_receive W c m,
        coordinator_receive_v1 W c (tag m) new_best with
  | Some (c2, vs2, evs2), Some (c1, vs1, evs1) =>
    c1 = c2 ∧ vs1 = vs2 ∧ unprinted evs1 = unprinted evs2 ∧
    printed evs1
    = (if tag m =? SOLUTION_FROM_WORKER then [new_best] else []) ∧
    printed evs2
    = (if (tag m =? SOLUTION_FROM_WORKER) && (tot_colors new_best <? c_ub c)
       then [new_best] else [])
  | None, None => True
  | _, _ => False
  end.
Proof.
  intros Hrecv. destruct c as [ub done b fin].
  unfold coordinator_receive, coordinator_receive_v1.
  destruct (fin || negb (done <? W)%nat); [exact I|].
  rewrite Hrecv. simpl.
  destruct (tag m =? SOLUTION_FROM_WORKER); simpl;
    [destruct (tot_colors new_best <? ub)|]; repeat split; reflexivity.
Qed.

Lemma listener_versions_agree_witness :
  match @coordinator_receive (Search.ops 3 edgeless3) 2
          (Coordinator 2 0 {| color := [1; 2; 1]; tot_colors := 2; next := 3 |} false)
          (Msg SOLUTION_FROM_WORKER [1; 1; 2; 2; 3]),
        coordinator_receive_v1 2
          (Coordinator 2 0 {| color := [1; 2; 1]; tot_colors := 2; next := 3 |} false)
          SOLUTION_FROM_WORKER
          {| color := [1; 1; 2]; tot_colors := 2; next := 3 |} with
  | Some (c2, vs2, evs2), Some (c1, vs1, evs1) =>
    c1 = c2 ∧ vs1 = vs2 ∧ unprinted evs1 = unprinted evs2 ∧
    printed evs1 = [ {| color := [1; 1; 2]; tot_colors := 2; next := 3 |} ] ∧
    printed evs2 = []
  | None, None => True
  | _, _ => False
  end.
Proof.
  apply (@listener_versions_agree (Search.ops 3 edgeless3) 2
           (Coordinator 2 0 {| color := [1; 2; 1]; tot_colors := 2; next := 3 |} false)
           (Msg SOLUTION_FROM_WORKER [1; 1; 2; 2; 3])
           {| color := [1; 1; 2]; tot_colors := 2; next := 3 |}).
  reflexivity.
Defined.

Lemma send_receive_on_wire_witness :
  length [1; 2; 0; 2; 2] = (3 + 2)%nat ∧ Forall is_u32 [1; 2; 0; 2; 2] ∧
  Wire.receive_solution 3 [1; 2; 0; 2; 2]
  = Some (on_wire 3 {| color := [1; 2]; tot_colors := 2; next := 2 |}).
Proof.
  apply (proj2 (send_receive_on_wire 3
                  {| color := [1; 2]; tot_colors := 2; next := 2 |})).
  reflexivity.
Defined.

(** The seeding loop on the edgeless graph with three vertices, with two
    workers: it stops with two queued nodes. *)
Definition seed3 : seed * list event :=
  Eval vm_compute in
    default (@seed_init (Search.ops 3 edgeless3), [])
            (@seed_loop (Search.ops 3 edgeless3) 10 2
               (@seed_init (Search.ops 3 edgeless3))).

Lemma seed_queue_fits_witness : (length (initial_q seed3.1) ≤ 2)%nat.
Proof.
  apply (@seed_queue_fits (Search.ops 3 edgeless3) 10 2 seed3.1 seed3.2).
  - lia.
  - vm_compute. reflexivity.
Defined.

(** ** The order in which a worker visits the children *)

(** The loop of lines 259-260: the children are pushed on the stack from
    the last to the first. *)
Definition push_children (tmp stack : list solution) : list solution :=
  foldl (λ q child, child :: q) stack (reverse tmp).

Lemma push_children_app (tmp stack : list solution) :
  push_children tmp stack = tmp ++ stack.
Proof.
  unfold push_children. revert stack.
  induction tmp as [|c tmp IH]; intros stack; [reflexivity|].
  rewrite reverse_cons, foldl_app. simpl. rewrite IH. reflexivity.
Qed.

(** Pushing the children in reverse leaves them on top of the stack in the
    order [get_next] generated them, above the nodes pushed earlier: the
    step from line 257 is the loop head with that stack, so that the first
    child is popped next and the subtree of each child is searched before
    its next sibling. *)
Theorem children_popped_in_order `{NodeOps} (rank : nat) (curr : solution)
    (q : list solution) (lis : wlis) (ub : Z) (inbox : list msg)
    (bcasts : list Z) (out : list msg) :
  main_step rank (Worker (WExpand curr q) lis ub inbox bcasts out)
  = Some (Worker (WLoop (push_children (get_next ub curr) q))
                 lis ub inbox bcasts out,
          [EvRead rank MainThread ub]) ∧
  ∀ c tmp, get_next ub curr = c :: tmp →
    push_children (get_next ub curr) q = c :: push_children tmp q.
Proof.
  split.
  - simpl. rewrite push_children_app. reflexivity.
  - intros c tmp ->. rewrite !push_children_app. reflexivity.
Qed.

(** * The whole program: the graph reaches the workers through
    [broadcast_graph] *)

(** What the receiver holds after the five steps of [broadcast_graph], when
    the [int] count passed at line 77 is [c]: the first [c] entries of the
    root's table, in row-major order, and [false] everywhere else. *)
Lemma broadcast_graph_received (dim c : nat) (m m0 : Graph.matrix) :
  Z.of_nat dim < UINT_MOD →
  Graph.square dim m →
  Forall (λ row, length row = dim) (take dim m0) →
  Bcast.to_int (Z.of_nat dim * Z.of_nat dim) = Z.of_nat c →
  (c ≤ dim * dim)%nat →
  ∃ m',
    Bcast.broadcast_graph dim m m0 = Some m' ∧ Graph.square dim m' ∧
    ∀ i j : nat, (i < dim)%nat → (j < dim)%nat →
      Graph.adj m' i j
      = if decide (i * dim + j < c)%nat then Graph.adj m i j else false.
Proof.
  intros Hdim Hsq Hrows Hcount Hc. unfold Bcast.broadcast_graph.
  assert (Z.to_nat (u32 (Z.of_nat dim)) = dim) as ->.
  { unfold u32. rewrite Z.mod_small by lia. apply Nat2Z.id. }
  destruct (pack_rows_spec dim m 0 dim (replicate (dim * dim) 0) Hsq
              ltac:(lia) ltac:(apply length_replicate))
    as (sent & Hpack & Hlen & Hget).
  unfold Bcast.root_buffer. rewrite Hpack. simpl.
  rewrite Hlen, length_replicate, Nat2Z.inj_mul, Hcount.
  unfold Bcast.mpi_bcast. rewrite Hlen, length_replicate.
  rewrite decide_True by lia. simpl. rewrite Nat2Z.id.
  set (received := take c sent ++ drop c (replicate (dim * dim) 0)).
  assert (length received = (dim * dim)%nat) as Hrlen.
  { unfold received.
    rewrite length_app, length_take, length_drop, length_replicate. lia. }
  destruct (unpack_rows_spec dim received 0 dim (Bcast.resize dim m0)
              (resize_square dim m0 Hrows) ltac:(lia) Hrlen)
    as (m' & -> & Hsq' & Hadj).
  exists m'. split; [reflexivity|]. split; [exact Hsq'|].
  intros i j Hi Hj. rewrite (Hadj i j Hj), decide_True by lia.
  pose proof (row_major_bound dim i j Hi Hj) as Hp.
  unfold received. case_decide as Hlt.
  - rewrite lookup_app_l by (rewrite length_take; lia).
    rewrite lookup_take_lt by lia.
    rewrite (Hget i j Hj), decide_True by lia. simpl.
    apply bool_of_char_of_bool.
  - rewrite lookup_app_r by (rewrite length_take; lia).
    rewrite length_take, lookup_drop, lookup_replicate_2 by lia.
    reflexivity.
Qed.

(** ** The process group when the ranks hold different tables

    Rank 0 searches the table it constructed; every worker searches the
    table [broadcast_graph] left it with.  The steps are those of
    [sys_step], with the operations of the search node taken from the
    process that performs them. *)

Section Program.
Variable root_ops worker_ops : NodeOps.

Definition program_step (a : sched) (s : system) : option (system * list event) :=
  let W := length (workers s) in
  match a with
  | RunMain i =>
    w ← workers s !! i;
    '(w', evs) ← @main_step worker_ops (S i) w;
    Some (System (coord s) (<[i := w']> (workers s)), evs)
  | RunListener i =>
    w ← workers s !! i;
    '(w', evs) ← listener_step (S i) w;
    Some (System (coord s) (<[i := w']> (workers s)), evs)
  | Deliver i =>
    w ← workers s !! i;
    '(m, w') ← take_out w;
    '(c', vs, evs) ← @coordinator_receive root_ops W (coord s) m;
    Some (System c' (deliver_bcast vs <$> <[i := w']> (workers s)), evs)
  | Finish =>
    '(c', vs, evs) ← coordinator_finish W (coord s);
    Some (System c' (deliver_bcast vs <$> workers s), evs)
  end.

Fixpoint program_exec (sch : list sched) (s : system)
  : option (system * list event) :=
  match sch with
  | [] => Some (s, [])
  | a :: sch' =>
    '(s1, evs1) ← program_step a s;
    '(s2, evs2) ← program_exec sch' s1;
    Some (s2, evs1 ++ evs2)
  end.

(** The process group right after rank 0 has dispatched [first]: the bound
    of a worker starts from the value of its own process. *)
Definition program_init (st : seed) (first : list msg) : system :=
  System (Coordinator (s_ub st) 0 (@blank root_ops) false)
         ((λ m, Worker WReceive LNone (@initial_ub worker_ops) [m] [] [])
            <$> first).

End Program.

(** How a run of the program ends. *)
Inductive outcome : Type :=
| BroadcastFailed
    (** the call of [MPI_Bcast] at line 77 is erroneous: the job is aborted
        before any search, and nothing is reported *)
| NoParallelism (st : seed) (evs : list event)
    (** [MPI_Abort(MPI_COMM_WORLD, 69)] after the seeding loop *)
| Parallel (s : system) (evs : list event).
    (** the state and the events reached under the schedule *)

(** The program on the table [g] with [n] vertices that rank 0 has
    constructed: [broadcast_graph] (lines 122 and 217) hands every worker
    its table, starting from the default-constructed table [m0]; rank 0
    then seeds and dispatches, and the group runs under the schedule
    [sch]. *)
Definition program (n : nat) (g m0 : Graph.matrix) (fuel W : nat)
    (sch : list sched) : option outcome :=
  match Bcast.broadcast_graph n g m0 with
  | None => Some BroadcastFailed
  | Some gw =>
    let n' := Z.to_nat (u32 (Z.of_nat n)) in
    '(l, st, evs) ← @coordinator_main (Search.ops n g) fuel W;
    match l with
    | Aborted _ => Some (NoParallelism st evs)
    | Dispatched first =>
      '(s, evs') ← program_exec (Search.ops n g) (Search.ops n' gw) sch
                     (program_init (Search.ops n g) (Search.ops n' gw) st first);
      Some (Parallel s (evs ++ evs'))
    end
  end.

(** When every rank holds the same table, the group is the one of
    [sys_step]. *)
Lemma program_step_same `{NodeOps} (a : sched) (s : system) :
  program_step H H a s = sys_step a s.
Proof. destruct a; reflexivity. Qed.

Lemma program_exec_same `{NodeOps} (sch : list sched) (s : system) :
  program_exec H H sch s = exec sch s.
Proof.
  revert s. induction sch as [|a sch IH]; intros s; simpl; [reflexivity|].
  rewrite program_step_same. destruct (sys_step a s) as [[s1 evs1]|]; simpl;
    [|reflexivity].
  rewrite IH. reflexivity.
Qed.

(** For a graph with fewer than [2^31] entries in its table, that is up to
    [46340] vertices, the program reports an optimal colouring.  On a
    [n] x [n] symmetric, irreflexive table, with at least one worker: the
    broadcast of the table succeeds and rank 0 completes its seed phase;
    when the seed phase drains the queue, the colouring printed before the
    abort is a proper colouring of all vertices whose [tot_colors] is the
    chromatic number; otherwise, under every schedule, the run is bounded,
    some step is enabled as long as the coordinator listener has not
    finished and no worker listener has left its loop, and once the
    coordinator listener has finished the colouring [best] printed after
    the termination broadcast (the last colouring printed) is a proper
    colouring of all vertices whose [tot_colors] is the chromatic number. *)
Theorem program_report_optimal (n : nat) (g m0 : Graph.matrix) (W : nat) :
  Graph.square n g → Graph.symmetric n g → Graph.irreflexive n g →
  Forall (λ row, length row = n) (take n m0) →
  (1 ≤ W)%nat →
  Z.of_nat n * Z.of_nat n < 2 ^ 31 →
  ∃ fuel bound,
    is_Some (program n g m0 fuel W []) ∧
    ∀ sch o,
      program n g m0 fuel W sch = Some o →
      match o with
      | BroadcastFailed => False
      | NoParallelism st evs =>
        optimal_coloring n g (best_so_far st) ∧
        ∃ pre, evs = pre ++ [EvPrint 0 (best_so_far st); EvAbort 0 69]
      | Parallel s evs =>
        (length sch ≤ bound)%nat ∧
        (c_finished (coord s) = false →
         Forall (λ w, w_lis w ≠ LExit) (workers s) →
         ∃ a, is_Some (program_step (Search.ops n g) (Search.ops n g) a s)) ∧
        (c_finished (coord s) = true →
         optimal_coloring n g (best (coord s)) ∧
         ∃ pre post,
           evs = pre ++ [EvBcast RETURN; EvPrint 0 (best (coord s))] ++ post ∧
           Forall (λ e, ¬ is_print e) post)
      end.
Proof.
  intros Hsq Hsym Hirr Hrows HW Hsmall.
  assert (Hfits : Z.of_nat n + 1 < UINT_MOD) by (unfold UINT_MOD; nia).
  assert (Hn : Z.to_nat (u32 (Z.of_nat n)) = n).
  { unfold u32. rewrite Z.mod_small by lia. apply Nat2Z.id. }
  assert (Hbcast : Bcast.broadcast_graph n g m0 = Some g).
  { destruct (broadcast_graph_received n (n * n) g m0 ltac:(lia) Hsq Hrows)
      as (m' & Hm' & Hsq' & Hadj).
    - rewrite to_int_small by lia. rewrite Nat2Z.inj_mul. reflexivity.
    - lia.
    - rewrite Hm'. f_equal. apply (square_ext n); [exact Hsq'|exact Hsq|].
      intros i j Hi Hj. rewrite (Hadj i j Hi Hj).
      rewrite decide_True by (apply row_major_bound; assumption).
      reflexivity. }
  destruct (engine_report_optimal n g W Hsym Hirr HW Hfits)
    as (fuel & l & st & evs0 & bound & Hmain & Hl).
  exists fuel, bound. unfold program. rewrite Hbcast, Hn, Hmain. simpl.
  destruct l as [code|first].
  - split; [eexists; reflexivity|].
    intros sch o [= <-]. exact Hl.
  - split; [eexists; reflexivity|].
    intros sch o. rewrite program_exec_same.
    change (program_init (Search.ops n g) (Search.ops n g) st first)
      with (@init_system (Search.ops n g) st first).
    destruct (@exec (Search.ops n g) sch (@init_system (Search.ops n g) st first))
      as [[s evs]|] eqn:Hexec; [|discriminate].
    simpl. intros [= <-].
    destruct (Hl sch s evs Hexec) as (Hlen & Hprog & Hfin).
    split; [exact Hlen|]. split.
    + intros Hf _. destruct (Hprog Hf) as [a Ha]. exists a.
      rewrite program_step_same. exact Ha.
    + intros Hf. destruct (Hfin Hf) as (Hopt & pre & post & -> & Hnp).
      split; [exact Hopt|]. exists (evs0 ++ pre), post.
      split; [rewrite <- app_assoc; reflexivity|exact Hnp].
Qed.

Lemma program_report_optimal_witness :
  ∃ fuel bound,
    is_Some (program 5 cycle5 [] fuel 3 []) ∧
    ∀ sch o,
      program 5 cycle5 [] fuel 3 sch = Some o →
      match o with
      | BroadcastFailed => False
      | NoParallelism st evs =>
        optimal_coloring 5 cycle5 (best_so_far st) ∧
        ∃ pre, evs = pre ++ [EvPrint 0 (best_so_far st); EvAbort 0 69]
      | Parallel s evs =>
        (length sch ≤ bound)%nat ∧
        (c_finished (coord s) = false →
         Forall (λ w, w_lis w ≠ LExit) (workers s) →
         ∃ a, is_Some (program_step (Search.ops 5 cycle5) (Search.ops 5 cycle5) a s)) ∧
        (c_finished (coord s) = true →
         optimal_coloring 5 cycle5 (best (coord s)) ∧
         ∃ pre post,
           evs = pre ++ [EvBcast RETURN; EvPrint 0 (best (coord s))] ++ post ∧
           Forall (λ e, ¬ is_print e) post)
      end.
Proof.
  apply (program_report_optimal 5 cycle5 [] 3).
  - split; [reflexivity|]. repeat constructor.
  - intros i j Hi Hj.
    do 5 (destruct i as [|i];
          [do 5 (destruct j as [|j]; [reflexivity|]); lia|]).
    lia.
  - intros i Hi. do 5 (destruct i as [|i]; [reflexivity|]). lia.
  - constructor.
  - lia.
  - reflexivity.
Defined.

(** ** A graph the program colours improperly

    From [65536] vertices on, the size of the table no longer fits the
    [int] count of [MPI_Bcast]; at [65536] vertices the count is [0]. *)

(** The graph with [n] vertices whose only edge joins the last two. *)
Definition late_edge (n : nat) : Graph.matrix :=
  alter (<[(n - 2)%nat := true]>) (n - 1)%nat
    (alter (<[(n - 1)%nat := true]>) (n - 2)%nat (Graph.zero_matrix n)).

(** Steps of the main thread of rank 1, one after the other. *)
Fixpoint main_steps `{NodeOps} (k : nat) (w : worker) : option worker :=
  match k with
  | O => Some w
  | S k' => '(w', _) ← main_step 1 w; main_steps k' w'
  end.

(** The main thread gets from [w] to [w'] on its own. *)
Definition main_reach `{NodeOps} (w w' : worker) : Prop :=
  ∃ k, main_steps k w = Some w'.

Section MainSteps.
Context `{NodeOps}.

Lemma main_reach_refl (w : worker) : main_reach w w.
Proof. exists 0%nat. reflexivity. Qed.

Lemma main_reach_step (w w1 w' : worker) (evs : list event) :
  main_step 1 w = Some (w1, evs) → main_reach w1 w' → main_reach w w'.
Proof.
  intros Hstep [k Hk]. exists (S k). simpl. rewrite Hstep. exact Hk.
Qed.

Lemma main_reach_trans (w w1 w' : worker) :
  main_reach w w1 → main_reach w1 w' → main_reach w w'.
Proof.
  intros [k Hk]. revert w Hk. induction k as [|k IH]; intros w; simpl.
  - intros [= ->]. trivial.
  - destruct (main_step 1 w) as [[w2 evs]|] eqn:Hstep; [|discriminate].
    simpl. intros Hk Hrest. eapply main_reach_step; [exact Hstep|].
    apply IH; assumption.
Qed.

(** Line 254 lets the node through: on to [get_next]. *)
Lemma step_descend (curr : solution) (q : list solution) (lis : wlis) (ub : Z)
    (inbox : list msg) (bcasts : list Z) (out : list msg) :
  is_final curr = false → tot_colors curr < ub →
  main_step 1 (Worker (WLoop (curr :: q)) lis ub inbox bcasts out)
  = Some (Worker (WExpand curr q) lis ub inbox bcasts out,
          [EvRead 1 MainThread ub]).
Proof.
  intros Hfin Hlt. simpl. rewrite Hfin. simpl.
  destruct (Z.leb_spec ub (tot_colors curr)); [lia|reflexivity].
Qed.

(** The test of line 262 passes: on to the assignment. *)
Lemma step_improve (curr : solution) (q : list solution) (lis : wlis) (ub : Z)
    (inbox : list msg) (bcasts : list Z) (out : list msg) :
  is_final curr = true → tot_colors curr < ub →
  main_step 1 (Worker (WLoop (curr :: q)) lis ub inbox bcasts out)
  = Some (Worker (WStore curr q) lis ub inbox bcasts out,
          [EvRead 1 MainThread ub]).
Proof.
  intros Hfin Hlt. simpl. rewrite Hfin. simpl.
  destruct (Z.ltb_spec (tot_colors curr) ub); [reflexivity|lia].
Qed.

(** A node with as many colours as the bound is dropped, final or not. *)
Lemma step_prune (curr : solution) (q : list solution) (lis : wlis) (ub : Z)
    (inbox : list msg) (bcasts : list Z) (out : list msg) :
  ub ≤ tot_colors curr →
  main_step 1 (Worker (WLoop (curr :: q)) lis ub inbox bcasts out)
  = Some (Worker (WLoop q) lis ub inbox bcasts out, [EvRead 1 MainThread ub]).
Proof.
  intros Hle. simpl. destruct (is_final curr); simpl.
  - destruct (Z.ltb_spec (tot_colors curr) ub); [lia|reflexivity].
  - destruct (Z.leb_spec ub (tot_colors curr)); [reflexivity|lia].
Qed.

Lemma main_reach_prune (l q : list solution) (lis : wlis) (ub : Z)
    (inbox : list msg) (bcasts : list Z) (out : list msg) :
  Forall (λ x, ub ≤ tot_colors x) l →
  main_reach (Worker (WLoop (l ++ q)) lis ub inbox bcasts out)
             (Worker (WLoop q) lis ub inbox bcasts out).
Proof.
  induction 1 as [|x l Hx _ IH]; [apply main_reach_refl|].
  eapply main_reach_step; [apply step_prune, Hx|exact IH].
Qed.

(** Line 226 with a node to search. *)
Lemma step_receive (m : msg) (s : solution) (lis : wlis) (ub : Z)
    (inbox : list msg) (bcasts : list Z) (out : list msg) :
  Wire.receive_solution dim (payload m) = Some s → tag m = INITIAL_NODE →
  main_step 1 (Worker WReceive lis ub (m :: inbox) bcasts out)
  = Some (Worker (WLoop [s]) LWait ub inbox bcasts out, [EvSpawn 1]).
Proof. intros Hrecv Htag. simpl. rewrite Hrecv, Htag. reflexivity. Qed.

(** Lines 266-270. *)
Lemma step_store (curr : solution) (p : list Z) (q : list solution)
    (lis : wlis) (ub : Z) (inbox : list msg) (bcasts : list Z) (out : list msg) :
  Wire.send_solution dim curr = Some p →
  main_step 1 (Worker (WStore curr q) lis ub inbox bcasts out)
  = Some (Worker (WLoop q) lis (tot_colors curr) inbox bcasts
                 (out ++ [Msg SOLUTION_FROM_WORKER p]),
          [EvWrite 1 MainThread ub (tot_colors curr);
           EvSend 1 0 (Msg SOLUTION_FROM_WORKER p)]).
Proof. intros Hsend. simpl. rewrite Hsend. reflexivity. Qed.

(** Line 287. *)
Lemma step_return (p : list Z) (lis : wlis) (ub : Z) (inbox : list msg)
    (bcasts : list Z) (out : list msg) :
  Wire.send_solution dim blank = Some p →
  main_step 1 (Worker WSendDone lis ub inbox bcasts out)
  = Some (Worker WBarrier lis ub inbox bcasts (out ++ [Msg RETURN p]),
          [EvSend 1 0 (Msg RETURN p)]).
Proof. intros Hsend. simpl. rewrite Hsend. reflexivity. Qed.

(** The seeding loop queues the children when they fit. *)
Lemma seed_body_push (W : nat) (curr : solution) (rest : list solution)
    (ub : Z) (b : solution) :
  is_final curr = false →
  tot_colors curr < ub →
  (length rest + length (get_next ub curr) ≤ W)%nat →
  seed_body W curr rest ub b
  = (Continue, Seed (rest ++ get_next ub curr) ub b,
     [EvRead 0 MainThread ub; EvRead 0 MainThread ub]).
Proof.
  intros Hfin Hub Hfit. unfold seed_body. rewrite Hfin. simpl.
  destruct (Z.leb_spec ub (tot_colors curr)); [lia|].
  destruct (Nat.leb_spec (length rest + length (get_next ub curr)) W); [|lia].
  reflexivity.
Qed.

End MainSteps.

(** The steps of the main thread of rank 1 are steps of the group. *)
Lemma main_steps_exec (root_ops worker_ops : NodeOps) (k : nat)
    (c : coordinator) (w w' : worker) :
  @main_steps worker_ops k w = Some w' →
  ∃ evs, program_exec root_ops worker_ops (replicate k (RunMain 0))
           (System c [w]) = Some (System c [w'], evs).
Proof.
  revert w. induction k as [|k IH]; intros w; simpl.
  - intros [= ->]. eexists. reflexivity.
  - destruct (@main_step worker_ops 1 w) as [[w1 evs1]|]; [|discriminate].
    simpl. intros Hk. destruct (IH w1 Hk) as [evs2 ->]. simpl.
    eexists. reflexivity.
Qed.

Lemma program_exec_app (root_ops worker_ops : NodeOps) (sch1 sch2 : list sched)
    (s s1 s2 : system) (evs1 evs2 : list event) :
  program_exec root_ops worker_ops sch1 s = Some (s1, evs1) →
  program_exec root_ops worker_ops sch2 s1 = Some (s2, evs2) →
  program_exec root_ops worker_ops (sch1 ++ sch2) s = Some (s2, evs1 ++ evs2).
Proof.
  revert s evs1. induction sch1 as [|a sch1 IH]; intros s evs1; simpl.
  - intros [= -> <-] H2. rewrite H2. reflexivity.
  - destruct (program_step root_ops worker_ops a s) as [[s0 evs0]|];
      [|discriminate].
    simpl.
    destruct (program_exec root_ops worker_ops sch1 s0) as [[s3 evs3]|] eqn:H1;
      [|discriminate].
    simpl. intros [= -> <-] H2.
    rewrite (IH s0 evs3 H1 H2). simpl. rewrite app_assoc. reflexivity.
Qed.

(** Steps of rank 0 in a group with one worker. *)
Lemma deliver_single (root_ops worker_ops : NodeOps) (c c' : coordinator)
    (vs : list Z) (evs : list event) (m : msg) (pc : wmain) (lis : wlis)
    (ub : Z) (inbox : list msg) (bcasts : list Z) (out : list msg) :
  @coordinator_receive root_ops 1 c m = Some (c', vs, evs) →
  program_step root_ops worker_ops (Deliver 0)
    (System c [Worker pc lis ub inbox bcasts (m :: out)])
  = Some (System c' [Worker pc lis ub inbox (bcasts ++ vs) out], evs).
Proof. intros Hrecv. simpl. rewrite Hrecv. reflexivity. Qed.

Lemma finish_single (root_ops worker_ops : NodeOps) (c c' : coordinator)
    (vs : list Z) (evs : list event) (w : worker) :
  coordinator_finish 1 c = Some (c', vs, evs) →
  program_step root_ops worker_ops Finish (System c [w])
  = Some (System c' [deliver_bcast vs w], evs).
Proof. intros Hfin. simpl. rewrite Hfin. reflexivity. Qed.

(** Lines 338-349 on a node that lowers the bound. *)
Lemma receive_improving `{NodeOps} (W done : nat) (ub : Z) (b nb : solution)
    (m : msg) :
  Wire.receive_solution dim (payload m) = Some nb →
  tag m = SOLUTION_FROM_WORKER → tot_colors nb < ub → (done < W)%nat →
  coordinator_receive W (Coordinator ub done b false) m
  = Some (Coordinator (tot_colors nb) done nb false, [tot_colors nb],
          [EvRead 0 ListenerThread ub;
           EvWrite 0 ListenerThread ub (tot_colors nb);
           EvPrint 0 nb; EvBcast (tot_colors nb)]).
Proof.
  intros Hrecv Htag Hlt Hdone. simpl.
  destruct (Nat.ltb_spec done W); [|lia]. simpl.
  rewrite Hrecv, Htag. simpl.
  destruct (Z.ltb_spec (tot_colors nb) ub); [reflexivity|lia].
Qed.

(** Lines 334-336 on a [RETURN] message. *)
Lemma receive_return `{NodeOps} (W done : nat) (ub : Z) (b nb : solution)
    (m : msg) :
  Wire.receive_solution dim (payload m) = Some nb →
  tag m = RETURN → (done < W)%nat →
  coordinator_receive W (Coordinator ub done b false) m
  = Some (Coordinator ub (S done) b false, [], []).
Proof.
  intros Hrecv Htag Hdone. simpl.
  destruct (Nat.ltb_spec done W); [|lia]. simpl.
  rewrite Hrecv, Htag. reflexivity.
Qed.

Section LargeGraph.
Variable N : nat.
Hypothesis N_three : (3 ≤ N)%nat.
Hypothesis N_fits : Z.of_nat N + 1 < UINT_MOD.
Hypothesis N_count : Bcast.to_int (Z.of_nat N * Z.of_nat N) = 0.

(** The first [k] vertices have colour [1]. *)
Definition ones (k : nat) : solution := mk_node N (replicate k 1).

(** The first [k] vertices have colour [1], the next one colour [2]. *)
Definition two (k : nat) : solution := mk_node N (replicate k 1 ++ [2]).

(** What the descent along colour [1] from vertex [k] leaves on the stack
    below the node it is at, after [d] levels. *)
Fixpoint siblings (k d : nat) (q : list solution) : list solution :=
  match d with
  | O => q
  | S d' => siblings (S k) d' (two k :: q)
  end.

(** *** The table of the graph, and the table the workers receive *)

Lemma late_edge_adj (i j : nat) :
  Graph.adj (late_edge N) i j
  = bool_decide ((i = N - 2 ∧ j = N - 1) ∨ (i = N - 1 ∧ j = N - 2))%nat.
Proof.
  unfold late_edge.
  rewrite (adj_pair N) by (try apply square_zero; lia).
  rewrite adj_zero. case_decide.
  - rewrite bool_decide_eq_true_2 by assumption. reflexivity.
  - rewrite bool_decide_eq_false_2 by assumption. reflexivity.
Qed.

Lemma late_edge_square : Graph.square N (late_edge N).
Proof. apply square_pair, square_zero. Qed.

Lemma late_edge_symmetric : Graph.symmetric N (late_edge N).
Proof.
  intros i j _ _. rewrite !late_edge_adj.
  apply bool_decide_ext. tauto.
Qed.

Lemma late_edge_irreflexive : Graph.irreflexive N (late_edge N).
Proof.
  intros i _. rewrite late_edge_adj. apply bool_decide_eq_false_2. lia.
Qed.

(** With the count [0], nothing of the table reaches the workers. *)
Lemma late_edge_broadcast :
  Bcast.broadcast_graph N (late_edge N) [] = Some (Graph.zero_matrix N).
Proof.
  destruct (broadcast_graph_received N 0 (late_edge N) [] ltac:(lia)
              late_edge_square ltac:(rewrite take_nil; constructor) N_count ltac:(lia))
    as (m' & -> & Hsq & Hadj).
  f_equal. apply (square_ext N); [exact Hsq|apply square_zero|].
  intros i j Hi Hj. rewrite (Hadj i j Hi Hj), adj_zero.
  rewrite decide_False by lia. reflexivity.
Qed.

(** *** The nodes on the way *)

Lemma replicate_snoc (k : nat) (x : Z) :
  replicate k x ++ [x] = replicate (S k) x.
Proof. induction k as [|k IH]; simpl; [reflexivity|]. rewrite IH. reflexivity. Qed.

Lemma maxcol_ones (k : nat) : (1 ≤ k)%nat → maxcol (replicate k 1) = 1.
Proof.
  induction k as [|k IH]; intros Hk; [lia|].
  destruct k as [|k]; [reflexivity|].
  change (maxcol (replicate (S (S k)) 1))
    with (Z.max 1 (maxcol (replicate (S k) 1))).
  rewrite IH by lia. reflexivity.
Qed.

Lemma maxcol_two (k : nat) : (1 ≤ k)%nat → maxcol (replicate k 1 ++ [2]) = 2.
Proof. intros Hk. rewrite maxcol_snoc, maxcol_ones by exact Hk. reflexivity. Qed.

Lemma ones_path (k : nat) : node_path (Graph.zero_matrix N) (replicate k 1).
Proof.
  induction k as [|k IH]; [constructor|].
  rewrite <- replicate_snoc. constructor; [exact IH| |].
  - pose proof (maxcol_nonneg (replicate k 1)). lia.
  - apply clash_false_intro. intros j _ Hadj. rewrite adj_zero in Hadj.
    discriminate.
Qed.

Lemma ones_shape (k : nat) : (k ≤ N)%nat → node_shape N (ones k).
Proof.
  intros Hk. apply (valid_node_shape N (Graph.zero_matrix N) N_fits).
  exists (replicate k 1). split; [apply ones_path|].
  split; [rewrite length_replicate; exact Hk|reflexivity].
Qed.

Lemma ones_final (g : Graph.matrix) (k : nat) :
  @is_final (Search.ops N g) (ones k) = bool_decide (k = N).
Proof.
  change (Search.final N (mk_node N (replicate k 1)) = bool_decide (k = N)).
  rewrite final_mk, length_replicate. reflexivity.
Qed.

Lemma two_tot (k : nat) : (1 ≤ k)%nat → tot_colors (two k) = 2.
Proof. intros Hk. apply maxcol_two, Hk. Qed.

Lemma ones_tot (k : nat) : (1 ≤ k)%nat → tot_colors (ones k) = 1.
Proof. intros Hk. apply maxcol_ones, Hk. Qed.

(** The children of a node whose vertices all have colour [1], when colour
    [1] does not clash at the next vertex and the bound leaves room for a
    second colour. *)
Lemma expand_ones (g : Graph.matrix) (ub : Z) (k : nat) :
  (1 ≤ k)%nat → (k < N)%nat → 2 ≤ ub - 1 →
  clash g (replicate k 1) 1 = false →
  Search.expand g ub (ones k) = [ones (S k); two k].
Proof.
  intros Hk HkN Hub Hclash. unfold ones.
  rewrite expand_mk by (rewrite length_replicate; exact HkN).
  rewrite maxcol_ones by exact Hk.
  change (seqZ 1 1) with [1].
  rewrite filter_cons_True by exact Hclash.
  rewrite filter_nil, decide_True by lia.
  simpl. rewrite replicate_snoc. reflexivity.
Qed.

Lemma expand_blank (g : Graph.matrix) (ub : Z) :
  1 ≤ ub - 1 → Search.expand g ub (Search.empty N) = [ones 1].
Proof.
  intros Hub. rewrite <- mk_node_nil.
  rewrite expand_mk by (simpl; lia).
  change (maxcol []) with 0. change (seqZ 1 0) with (@nil Z).
  rewrite filter_nil, decide_True by lia. reflexivity.
Qed.

Lemma zero_clash (a : list Z) (x : Z) : clash (Graph.zero_matrix N) a x = false.
Proof.
  apply clash_false_intro. intros j _ Hadj. rewrite adj_zero in Hadj.
  discriminate.
Qed.

Lemma late_edge_clash_one : clash (late_edge N) (replicate 1 1) 1 = false.
Proof.
  apply clash_false_intro. simpl. intros j Hj Hadj.
  rewrite late_edge_adj in Hadj. apply bool_decide_eq_true_1 in Hadj. lia.
Qed.


(** *** The seed phase of rank 0, with one worker *)

#[local] Abbreviation root := (Search.ops N (late_edge N)).
#[local] Abbreviation work := (Search.ops N (Graph.zero_matrix N)).

Lemma blank_not_final (g : Graph.matrix) :
  @is_final (Search.ops N g) (Search.empty N) = false.
Proof.
  change (Search.final N (Search.empty N) = false). unfold Search.final.
  change (next (Search.empty N)) with 0.
  destruct (Z.eqb_spec 0 (Z.of_nat N)); [lia|reflexivity].
Qed.

(** The loop expands the empty node, then stops at the node with one
    coloured vertex, whose two children do not fit one worker. *)
Lemma late_edge_seed :
  ∃ evs,
    @seed_loop root 2 1 (@seed_init root)
    = Some (Seed [ones 1] (Z.of_nat N + 1) (Search.empty N), evs).
Proof.
  unfold seed_init.
  cbn [seed_loop initial_q s_ub best_so_far].
  change (@blank root) with (Search.empty N).
  change (@initial_ub root) with (Z.of_nat N + 1).
  rewrite (@seed_body_push root 1 (Search.empty N) [] (Z.of_nat N + 1)
             (Search.empty N)).
  2:{ apply blank_not_final. }
  2:{ simpl. lia. }
  2:{ change (@get_next root) with (Search.expand (late_edge N)).
      rewrite expand_blank by lia. simpl. lia. }
  change (@get_next root) with (Search.expand (late_edge N)).
  rewrite expand_blank by lia.
  cbn [initial_q s_ub best_so_far app].
  rewrite (@seed_body_break root 1 (ones 1) [] (Z.of_nat N + 1) (Search.empty N)).
  - eexists. reflexivity.
  - rewrite ones_final. apply bool_decide_eq_false_2. lia.
  - rewrite ones_tot by lia. lia.
  - change (@get_next root) with (Search.expand (late_edge N)).
    rewrite expand_ones by (lia || apply late_edge_clash_one). simpl. lia.
Qed.

(** What travels: the node with one coloured vertex to rank 1, the
    colouring with all vertices at colour [1] and the default node back. *)
Definition first_payload : list Z := color (ones 1) ++ [1; 1].
Definition report_payload : list Z := color (ones N) ++ [1; Z.of_nat N].
Definition blank_payload : list Z := color (Search.empty N) ++ [0; 0].

Lemma send_ones (k : nat) :
  (1 ≤ k)%nat → (k ≤ N)%nat →
  Wire.send_solution N (ones k) = Some (color (ones k) ++ [1; Z.of_nat k]).
Proof.
  intros Hk HkN. rewrite (send_solution_shape N) by (apply ones_shape, HkN).
  rewrite ones_tot by exact Hk.
  unfold ones, mk_node. simpl. rewrite length_replicate. reflexivity.
Qed.

Lemma receive_ones (k : nat) :
  (1 ≤ k)%nat → (k ≤ N)%nat →
  Wire.receive_solution N (color (ones k) ++ [1; Z.of_nat k]) = Some (ones k).
Proof.
  intros Hk HkN. rewrite receive_solution_shape by (apply ones_shape, HkN).
  f_equal. unfold ones, mk_node. cbn [color].
  rewrite length_replicate, maxcol_ones by exact Hk. reflexivity.
Qed.

Lemma send_blank : Wire.send_solution N (Search.empty N) = Some blank_payload.
Proof.
  rewrite (send_solution_shape N); [reflexivity|].
  apply (valid_node_shape N (Graph.zero_matrix N) N_fits), valid_node_empty.
Qed.

Lemma receive_blank :
  Wire.receive_solution N blank_payload = Some (Search.empty N).
Proof.
  unfold blank_payload. rewrite receive_solution_shape; [reflexivity|].
  apply (valid_node_shape N (Graph.zero_matrix N) N_fits), valid_node_empty.
Qed.

Lemma late_edge_main :
  ∃ evs,
    @coordinator_main root 2 1
    = Some (Dispatched [Msg INITIAL_NODE first_payload],
            Seed [ones 1] (Z.of_nat N + 1) (Search.empty N), evs).
Proof.
  destruct late_edge_seed as [evs Hseed].
  unfold coordinator_main. rewrite Hseed. simpl.
  unfold dispatch. simpl.
  change (@dim root) with N. change (@blank root) with (Search.empty N).
  rewrite (send_ones 1) by lia. simpl. rewrite send_blank. simpl.
  eexists. reflexivity.
Qed.

(** *** The search of rank 1 on the table it received *)

Lemma siblings_tot (k d : nat) (q : list solution) :
  (1 ≤ k)%nat → Forall (λ x, 1 ≤ tot_colors x) q →
  Forall (λ x, 1 ≤ tot_colors x) (siblings k d q).
Proof.
  revert k q. induction d as [|d IH]; intros k q Hk Hq; simpl; [exact Hq|].
  apply IH; [lia|]. constructor; [|exact Hq].
  rewrite two_tot by exact Hk. lia.
Qed.

(** With the bound at [N + 1], the main thread descends along colour [1]
    to the colouring with all vertices at colour [1]. *)
Lemma descend_ones (d k : nat) (q : list solution) (out : list msg) :
  (1 ≤ k)%nat → (k + d = N)%nat →
  @main_reach work
    (Worker (WLoop (ones k :: q)) LWait (Z.of_nat N + 1) [] [] out)
    (Worker (WLoop (ones N :: siblings k d q)) LWait (Z.of_nat N + 1) [] [] out).
Proof.
  revert k q. induction d as [|d IH]; intros k q Hk Hsum.
  - replace k with N by lia. apply main_reach_refl.
  - eapply main_reach_step.
    { apply (@step_descend work).
      - rewrite ones_final. apply bool_decide_eq_false_2. lia.
      - rewrite ones_tot by exact Hk. lia. }
    eapply main_reach_step.
    { reflexivity. }
    change (@get_next work) with (Search.expand (Graph.zero_matrix N)).
    rewrite expand_ones by (lia || apply zero_clash).
    apply (IH (S k) (two k :: q)); lia.
Qed.

(** The whole main thread of rank 1: it receives the node with one
    coloured vertex, finds the colouring with all vertices at colour [1],
    reports it, drops every other node against the bound [1], and sends its
    [RETURN] message. *)
Lemma late_edge_worker :
  @main_reach work
    (Worker WReceive LNone (Z.of_nat N + 1)
            [Msg INITIAL_NODE first_payload] [] [])
    (Worker WBarrier LWait 1 [] []
            [Msg SOLUTION_FROM_WORKER report_payload; Msg RETURN blank_payload]).
Proof.
  eapply main_reach_step.
  { apply (@step_receive work); [|reflexivity].
    apply (receive_ones 1); lia. }
  eapply main_reach_trans.
  { apply (descend_ones (N - 1) 1 [] []); lia. }
  eapply main_reach_step.
  { apply (@step_improve work).
    - rewrite ones_final. apply bool_decide_eq_true_2. reflexivity.
    - rewrite ones_tot by lia. lia. }
  eapply main_reach_step.
  { apply (@step_store work). apply (send_ones N); lia. }
  rewrite ones_tot by lia.
  eapply main_reach_trans.
  { rewrite <- (app_nil_r (siblings 1 (N - 1) [])).
    apply (@main_reach_prune work). apply siblings_tot; [lia|constructor]. }
  eapply main_reach_step.
  { reflexivity. }
  eapply main_reach_step.
  { apply (@step_return work). exact send_blank. }
  apply main_reach_refl.
Qed.

(** *** The report of rank 0 *)

(** Rank 0 accepts the colouring without looking at the table, counts the
    [RETURN] message and reports. *)
Lemma late_edge_report :
  ∃ s evs,
    program_exec root work [Deliver 0; Deliver 0; Finish]
      (System (Coordinator (Z.of_nat N + 1) 0 (Search.empty N) false)
         [Worker WBarrier LWait 1 [] []
            [Msg SOLUTION_FROM_WORKER report_payload; Msg RETURN blank_payload]])
    = Some (s, evs ++ [EvBcast RETURN; EvPrint 0 (ones N)]) ∧
    c_finished (coord s) = true ∧ best (coord s) = ones N.
Proof.
  cbn [program_exec].
  rewrite (deliver_single root work _ _ _ _ _ _ _ _ _ _ _
             (@receive_improving root 1 0 (Z.of_nat N + 1) (Search.empty N)
                (ones N) (Msg SOLUTION_FROM_WORKER report_payload)
                ltac:(apply (receive_ones N); lia) eq_refl
                ltac:(rewrite ones_tot by lia; lia) ltac:(lia))).
  cbn [mbind option_bind app].
  rewrite (deliver_single root work _ _ _ _ _ _ _ _ _ _ _
             (@receive_return root 1 0 (tot_colors (ones N)) (ones N)
                (Search.empty N) (Msg RETURN blank_payload)
                receive_blank eq_refl ltac:(lia))).
  cbn [mbind option_bind app].
  rewrite (finish_single root work (Coordinator (tot_colors (ones N)) 1 (ones N) false)
             (Coordinator (tot_colors (ones N)) 1 (ones N) true) [RETURN]
             [EvBcast RETURN; EvPrint 0 (ones N)] _ eq_refl).
  cbn [mbind option_bind app].
  eexists _, [_; _; _; _]. split; [reflexivity|]. split; reflexivity.
Qed.

(** The run: the main thread of rank 1 to its end, then rank 0. *)
Lemma late_edge_run :
  ∃ sch s evs,
    program_exec root work sch
      (program_init root work
         (Seed [ones 1] (Z.of_nat N + 1) (Search.empty N))
         [Msg INITIAL_NODE first_payload])
    = Some (s, evs) ∧
    c_finished (coord s) = true ∧ best (coord s) = ones N ∧
    ∃ pre, evs = pre ++ [EvBcast RETURN; EvPrint 0 (ones N)].
Proof.
  destruct late_edge_worker as [k Hk].
  destruct (main_steps_exec root work k
              (Coordinator (Z.of_nat N + 1) 0 (Search.empty N) false) _ _ Hk)
    as [evs1 Hexec1].
  destruct late_edge_report as (s & evs2 & Hexec2 & Hfin & Hbest).
  exists (replicate k (RunMain 0) ++ [Deliver 0; Deliver 0; Finish]), s,
    (evs1 ++ evs2 ++ [EvBcast RETURN; EvPrint 0 (ones N)]).
  split; [exact (program_exec_app root work _ _ _ _ _ _ _ Hexec1 Hexec2)|].
  split; [exact Hfin|]. split; [exact Hbest|].
  exists (evs1 ++ evs2). rewrite app_assoc. reflexivity.
Qed.

(** *** The report is not a proper colouring *)

Lemma ones_improper (k : Z) :
  ¬ proper_coloring N (late_edge N) k (color (ones N)).
Proof.
  intros (_ & _ & Hadj).
  apply (Hadj (N - 2)%nat (N - 1)%nat); [lia..| |].
  - rewrite late_edge_adj. apply bool_decide_eq_true_2. left. tauto.
  - unfold ones, mk_node. cbn [color].
    rewrite !lookup_app_l by (rewrite length_replicate; lia).
    rewrite !lookup_replicate_2 by lia. reflexivity.
Qed.

Lemma late_edge_not_one : ¬ colorable N (late_edge N) 1.
Proof.
  intros (_ & c & Hlen & Hcol & Hadj).
  apply (Hadj (N - 2)%nat (N - 1)%nat); [lia..| |].
  - rewrite late_edge_adj. apply bool_decide_eq_true_2. left. tauto.
  - destruct (lookup_lt_is_Some_2 c (N - 2)) as [x Hx]; [lia|].
    destruct (lookup_lt_is_Some_2 c (N - 1)) as [y Hy]; [lia|].
    rewrite Forall_lookup in Hcol.
    pose proof (Hcol _ _ Hx). pose proof (Hcol _ _ Hy).
    rewrite Hx, Hy. f_equal. lia.
Qed.

(** The program on [late_edge N] with one worker: the broadcast hands the
    worker the table without an edge, and a run ends with the report of the
    colouring that gives every vertex the colour [1]. *)
Lemma late_edge_program :
  Bcast.broadcast_graph N (late_edge N) [] = Some (Graph.zero_matrix N) ∧
  ∃ sch s evs,
    program N (late_edge N) [] 2 1 sch = Some (Parallel s evs) ∧
    c_finished (coord s) = true ∧
    (∃ pre, evs = pre ++ [EvBcast RETURN; EvPrint 0 (best (coord s))]) ∧
    next (best (coord s)) = Z.of_nat N ∧
    tot_colors (best (coord s)) = 1 ∧
    Forall (λ x, x = 1) (color (best (coord s))) ∧
    ¬ proper_coloring N (late_edge N) (tot_colors (best (coord s)))
        (color (best (coord s))) ∧
    ¬ chromatic_number N (late_edge N) (tot_colors (best (coord s))) ∧
    ¬ optimal_coloring N (late_edge N) (best (coord s)).
Proof.
  split; [exact late_edge_broadcast|].
  destruct late_edge_main as [evs0 Hmain].
  destruct late_edge_run as (sch & s & evs & Hexec & Hfin & Hbest & pre & ->).
  exists sch, s, (evs0 ++ pre ++ [EvBcast RETURN; EvPrint 0 (ones N)]).
  split.
  { unfold program. rewrite late_edge_broadcast.
    assert (Z.to_nat (u32 (Z.of_nat N)) = N) as ->.
    { unfold u32. rewrite Z.mod_small by lia. apply Nat2Z.id. }
    rewrite Hmain. simpl. rewrite Hexec. reflexivity. }
  rewrite Hbest.
  split; [exact Hfin|].
  split; [exists (evs0 ++ pre); rewrite app_assoc; reflexivity|].
  split; [unfold ones, mk_node; simpl; rewrite length_replicate; reflexivity|].
  split; [apply ones_tot; lia|].
  split.
  { unfold ones, mk_node. cbn [color]. apply Forall_app. split.
    - apply Forall_replicate. reflexivity.
    - rewrite length_replicate, Nat.sub_diag. constructor. }
  split; [apply ones_improper|].
  split.
  { rewrite ones_tot by lia. intros [Hcol _]. exact (late_edge_not_one Hcol). }
  intros (_ & Hproper & _). exact (ones_improper _ Hproper).
Qed.

End LargeGraph.

(** The number of vertices from which the table has [2^32] entries. *)
Definition big : nat := Z.to_nat 65536.

(** C1 fails on the code: for the graph with [65536] vertices whose only
    edge joins the last two, run with one worker, the size [2^32] of the
    table is passed to [MPI_Bcast] as the [int] count [0] (line 77), so the
    worker is left with the table without an edge.  Rank 0 seeds and
    dispatches on its own table; the worker colours every vertex with the
    colour [1] and reports it; rank 0 accepts the report without looking at
    the table (lines 340-343) and prints it after the termination
    broadcast.  The colouring reported gives the two adjacent vertices the
    same colour: it is not a proper colouring, and its [tot_colors = 1] is
    not the chromatic number. *)
Theorem improper_report_at_65536 :
  Graph.square big (late_edge big) ∧
  Graph.symmetric big (late_edge big) ∧
  Graph.irreflexive big (late_edge big) ∧
  Bcast.to_int (Z.of_nat big * Z.of_nat big) = 0 ∧
  Bcast.broadcast_graph big (late_edge big) [] = Some (Graph.zero_matrix big) ∧
  ∃ sch s evs,
    program big (late_edge big) [] 2 1 sch = Some (Parallel s evs) ∧
    c_finished (coord s) = true ∧
    (∃ pre, evs = pre ++ [EvBcast RETURN; EvPrint 0 (best (coord s))]) ∧
    next (best (coord s)) = Z.of_nat big ∧
    tot_colors (best (coord s)) = 1 ∧
    Forall (λ x, x = 1) (color (best (coord s))) ∧
    ¬ proper_coloring big (late_edge big) (tot_colors (best (coord s)))
        (color (best (coord s))) ∧
    ¬ chromatic_number big (late_edge big) (tot_colors (best (coord s))) ∧
    ¬ optimal_coloring big (late_edge big) (best (coord s)).
Proof.
  assert (H3 : (3 ≤ big)%nat) by (unfold big; lia).
  assert (Hfit : Z.of_nat big + 1 < UINT_MOD) by (unfold big, UINT_MOD; lia).
  assert (Hcount : Bcast.to_int (Z.of_nat big * Z.of_nat big) = 0).
  { unfold big. rewrite Z2Nat.id by lia. reflexivity. }
  split; [apply late_edge_square|].
  split; [apply late_edge_symmetric; exact H3|].
  split; [apply late_edge_irreflexive; exact H3|].
  split; [exact Hcount|].
  exact (late_edge_program big H3 Hfit Hcount).
Qed.
